(** * The object verifier of [cli/command_object_verify.go]

    A shallow embedding of the [verify] command: the shared state of one run
    (the [verifier] struct), the three operations it guards with its mutex,
    the two kinds of queued task, the seeding of the roots and the final
    result.  Work running on several goroutines is modelled by interleaving
    the atomic actions of the workers under an arbitrary schedule. *)

From Stdlib Require Import ZArith QArith Floats Uint63.
From stdpp Require Import gmap strings list pretty.

Local Open Scope Z_scope.

(** ** Data model *)

(** Modelled from the spec: [object.ID] is declared in package [object],
    outside this file; it is an opaque, comparable, hashable key.  It is a
    string here, which is also what [parseObjectID] is given. *)
Abbreviation ID := string (only parsing).

(** Go [error] values.  Every [fmt.Errorf] of the file has its own
    constructor, carrying the arguments of its format string; errors
    returned by collaborators are arbitrary values of this type. *)
Inductive error : Type :=
| ErrorString (msg : string)
| ErrParsing (srcStr : string) (err : error)
    (* "error parsing %q: %v" *)
| ErrReading (oid : ID) (err : error)
    (* "error reading %v: %v" *)
| ErrVerifying (oid : ID) (err : error)
    (* "error verifying %v: %v" *)
| ErrInvalidLength (oid : ID) (length expectedLength : Z)
    (* "invalid object length %q, %v, expected %v" *)
| ErrReadingObject (oid : ID) (err : error).
    (* "error reading object %v: %v" *)

(** A Go pair [(value, err)] in which exactly one side is meaningful. *)
Inductive result (T : Type) : Type :=
| Ok (x : T)
| Err (e : error).
Arguments Ok {T} x.
Arguments Err {T} e.

(** What the directory loop reads from an [fs.Entry]: [e.Metadata().Name],
    [e.Metadata().FileMode().IsDir()], [e.Metadata().FileSize] and
    [e.(object.HasObjectID).ObjectID()]. *)
Record Entry : Type := {
  Name : string;
  IsDir : bool;
  FileSize : Z;
  ObjectID : ID;
}.

(** [fs.EntryType]; only the comparison with [fs.EntryTypeDirectory] is
    used. *)
Inductive EntryType : Type :=
| EntryTypeDirectory
| EntryTypeFile
| EntryTypeSymlink
| EntryTypeUnknown.

Record RootEntryT : Type := {
  Type_ : EntryType;
  RootObjectID : ID;
}.

(** [snapshot.Manifest]: [Source] and [StartTime] already rendered by [%v]
    and [Format(timeFormat)]. *)
Record Manifest : Type := {
  Source : string;
  StartTime : string;
  RootEntry : option RootEntryT;
}.

Record SourceInfo : Type := {
  Host : string;
  UserName : string;
  Path : string;
}.

(** The stream returned by [om.Open]: all the verifier does with it is
    [io.Copy(ioutil.Discard, r)], whose error is [copyErr]. *)
Record reader : Type := {
  copyErr : option error;
}.

(** The closures handed to the work queue, by the function they call and
    the variables they capture. *)
Inductive task : Type :=
| VerifyDirectoryTask (oid : ID) (path : string)
| VerifyObjectTask (oid : ID) (path : string) (expectedLength : Z).

Definition task_oid (t : task) : ID :=
  match t with
  | VerifyDirectoryTask oid _ => oid
  | VerifyObjectTask oid _ _ => oid
  end.

(** Calls into the object and snapshot layers, recorded in the order they
    are made. *)
Inductive ext_call : Type :=
| CReaddir (oid : ID)
| CVerifyObject (oid : ID)
| COpen (oid : ID).

(** The command-line flags ([verifyCommand...] variables). *)
Record flags : Type := {
  ErrorThreshold : Z;
  DirObjectIDs : list string;
  FileObjectIDs : list string;
  AllSources : bool;
  Sources : list string;
  Parallel : Z;
  FilesPercent : Z;
}.

(** The collaborators of the verifier: the object manager, the snapshot
    manager, the random source and the parsers. *)
Record world : Type := {
  Readdir : ID -> result (list Entry);
    (* v.mgr.DirectoryEntry(oid, nil).Readdir(ctx) *)
  VerifyObject : ID -> Z * option error;
    (* length, _, err := v.om.VerifyObject(ctx, oid) *)
  Open : ID -> result reader;
    (* v.om.Open(ctx, oid) *)
  Intn : nat -> Z;
    (* the value of the k-th call of rand.Intn(100), k = 0, 1, ... *)
  ParseSourceInfo : string -> result SourceInfo;
  ListSnapshotManifests : option SourceInfo -> list string;
  LoadSnapshots : list string -> result (list Manifest);
  parseObjectID : string -> result ID;
}.

(** The [verifier] struct.  [mgr] and [om] are the [world]; [startTime] is
    an argument of [progressCallback]; [mu] is reflected in which updates
    are atomic.  The last four fields are not in the struct: they record
    what the run did. *)
Record verifier : Type := {
  workQueue : list task;          (* head = front of the queue *)
  seen : gmap ID bool;
  errors : list error;
  enqueued : list task;           (* every task given to the queue, oldest first *)
  warnings : list (string * error); (* log.Warningf("failed on %v: %v", path, err) *)
  calls : list ext_call;
  draws : nat;                    (* calls of rand.Intn so far *)
}.

Definition set_workQueue (q : list task) (v : verifier) : verifier :=
  {| workQueue := q; seen := seen v; errors := errors v;
     enqueued := enqueued v; warnings := warnings v; calls := calls v;
     draws := draws v |}.

Definition set_seen (s : gmap ID bool) (v : verifier) : verifier :=
  {| workQueue := workQueue v; seen := s; errors := errors v;
     enqueued := enqueued v; warnings := warnings v; calls := calls v;
     draws := draws v |}.

Definition add_error (path : string) (err : error) (v : verifier) : verifier :=
  {| workQueue := workQueue v; seen := seen v; errors := errors v ++ [err];
     enqueued := enqueued v; warnings := warnings v ++ [(path, err)];
     calls := calls v; draws := draws v |}.

Definition push_front (t : task) (v : verifier) : verifier :=
  {| workQueue := t :: workQueue v; seen := seen v; errors := errors v;
     enqueued := enqueued v ++ [t]; warnings := warnings v; calls := calls v;
     draws := draws v |}.

Definition push_back (t : task) (v : verifier) : verifier :=
  {| workQueue := workQueue v ++ [t]; seen := seen v; errors := errors v;
     enqueued := enqueued v ++ [t]; warnings := warnings v; calls := calls v;
     draws := draws v |}.

Definition add_call (c : ext_call) (v : verifier) : verifier :=
  {| workQueue := workQueue v; seen := seen v; errors := errors v;
     enqueued := enqueued v; warnings := warnings v; calls := calls v ++ [c];
     draws := draws v |}.

Definition add_draw (v : verifier) : verifier :=
  {| workQueue := workQueue v; seen := seen v; errors := errors v;
     enqueued := enqueued v; warnings := warnings v; calls := calls v;
     draws := S (draws v) |}.

(** [&verifier{..., seen: map[object.ID]bool{}}] with a new queue. *)
Definition new_verifier : verifier :=
  {| workQueue := []; seen := ∅; errors := []; enqueued := [];
     warnings := []; calls := []; draws := 0%nat |}.

(** ** Programs

    A Go function of the verifier is a sequence of atomic actions: the
    three operations above (each holds [v.mu] from start to end), the two
    enqueue operations of the work queue (which has a lock of its own), and
    the calls to the collaborators.  Between two actions of one goroutine,
    other goroutines may run. *)

Inductive action : Type -> Type :=
| TooManyErrors : action bool
| ReportError (path : string) (err : error) : action bool
| ShouldEnqueue (oid : ID) : action bool
| EnqueueFront (t : task) : action unit
| EnqueueBack (t : task) : action unit
| CallReaddir (oid : ID) : action (result (list Entry))
| CallVerifyObject (oid : ID) : action (Z * option error)
| CallOpen (oid : ID) : action (result reader)
| CallIntn (n : Z) : action Z
| ReportErrorVoid (path : string) (err : error) : action unit.
    (* only in the variant programs at the end of the model *)

Inductive M (A : Type) : Type :=
| Ret (a : A)
| Act {X : Type} (a : action X) (k : X -> M A).
Arguments Ret {A} a.
Arguments Act {A X} a k.

Fixpoint bind {A B : Type} (m : M A) (f : A -> M B) : M B :=
  match m with
  | Ret a => f a
  | Act a k => Act a (fun x => bind (k x) f)
  end.

Definition call {X : Type} (a : action X) : M X := Act a Ret.

Notation "x <- m ;; k" := (bind m (fun x => k))
  (at level 100, m at next level, right associativity).
Notation "m ;; k" := (bind m (fun _ => k))
  (at level 100, right associativity).

(** ** The operations under [v.mu] *)

Section Verifier.

Variable F : flags.
Variable W : world.

Definition tooManyErrors (v : verifier) : bool :=
  if ErrorThreshold F =? 0 then false
  else Z.of_nat (length (errors v)) >=? ErrorThreshold F.

Definition reportError (path : string) (err : error) (v : verifier)
  : verifier * bool :=
  let v' := add_error path err v in
  (v', Z.of_nat (length (errors v')) >=? ErrorThreshold F).

(** The [reportError] of the variant defined at the end of the model: it
    appends the record and returns no value. *)
Definition reportError_void (path : string) (err : error) (v : verifier)
  : verifier :=
  add_error path err v.

(** [v.seen[oid]] is [false] for a key that is not in the map. *)
Definition shouldEnqueue (oid : ID) (v : verifier) : verifier * bool :=
  if default false (seen v !! oid) then (v, false)
  else (set_seen (<[oid := true]> (seen v)) v, true).

(** What one action does to the shared state, and what it returns. *)
Definition perform {X : Type} (a : action X) (v : verifier) : verifier * X :=
  match a in action X return verifier * X with
  | TooManyErrors => (v, tooManyErrors v)
  | ReportError path err => reportError path err v
  | ShouldEnqueue oid => shouldEnqueue oid v
  | EnqueueFront t => (push_front t v, tt)
  | EnqueueBack t => (push_back t v, tt)
  | CallReaddir oid => (add_call (CReaddir oid) v, Readdir W oid)
  | CallVerifyObject oid => (add_call (CVerifyObject oid) v, VerifyObject W oid)
  | CallOpen oid => (add_call (COpen oid) v, Open W oid)
  | CallIntn _ => (add_draw v, Intn W (draws v))
  | ReportErrorVoid path err => (reportError_void path err v, tt)
  end.

(** A program run from start to end with no other goroutine in between. *)
Fixpoint run {A : Type} (m : M A) (v : verifier) : verifier * A :=
  match m with
  | Ret a => (v, a)
  | Act a k => let '(v', x) := perform a v in run (k x) v'
  end.

Definition enqueueVerifyDirectory (oid : ID) (path : string) : M unit :=
  ok <- call (ShouldEnqueue oid) ;;
  if negb ok then Ret tt
  else call (EnqueueFront (VerifyDirectoryTask oid path)).

Definition enqueueVerifyObject (oid : ID) (path : string)
    (expectedLength : Z) : M unit :=
  ok <- call (ShouldEnqueue oid) ;;
  if negb ok then Ret tt
  else call (EnqueueBack (VerifyObjectTask oid path expectedLength)).

(** The body of the loop of [doVerifyDirectory] after the test of
    [tooManyErrors]. *)
Definition enqueueEntry (path : string) (e : Entry) : M unit :=
  let objectID := ObjectID e in
  let childPath := path +:+ "/" +:+ Name e in
  if IsDir e then enqueueVerifyDirectory objectID childPath
  else enqueueVerifyObject objectID childPath (FileSize e).

(** The [for _, e := range entries] loop of [doVerifyDirectory]; leaving
    the loop by [break] ends the function. *)
Fixpoint forEntries (path : string) (entries : list Entry) : M unit :=
  match entries with
  | [] => Ret tt
  | e :: rest =>
      stop <- call TooManyErrors ;;
      if stop then Ret tt
      else enqueueEntry path e ;; forEntries path rest
  end.

Definition doVerifyDirectory (oid : ID) (path : string) : M unit :=
  r <- call (CallReaddir oid) ;;
  match r with
  | Err err => call (ReportError path (ErrReading oid err)) ;; Ret tt
  | Ok entries => forEntries path entries
  end.

Definition readEntireObject (oid : ID) (path : string) : M (option error) :=
  r <- call (CallOpen oid) ;;
  match r with
  | Err err => Ret (Some err)
  | Ok rd => Ret (copyErr rd)
  end.

Definition doVerifyObject (oid : ID) (path : string) (expectedLength : Z)
  : M unit :=
  p <- call (CallVerifyObject oid) ;;
  let '(len, err) := p in
  match err with
  | Some e => call (ReportError path (ErrVerifying oid e)) ;; Ret tt
  | None => Ret tt
  end ;;
  (if (expectedLength >=? 0) && negb (len =? expectedLength)
   then call (ReportError path (ErrInvalidLength oid len expectedLength)) ;;
        Ret tt
   else Ret tt) ;;
  r <- call (CallIntn 100) ;;
  if r <? FilesPercent F then
    err' <- readEntireObject oid path ;;
    match err' with
    | Some e => call (ReportError path (ErrReadingObject oid e)) ;; Ret tt
    | None => Ret tt
    end
  else Ret tt.

(** Calling a queued closure. *)
Definition run_task (t : task) : M unit :=
  match t with
  | VerifyDirectoryTask oid path => doVerifyDirectory oid path
  | VerifyObjectTask oid path expectedLength =>
      doVerifyObject oid path expectedLength
  end.

(** ** The work queue *)

(** Modelled from the spec: [parallelwork.Queue] is not in this file.  The
    spec gives [enqueueFront], [enqueueBack] and [process(parallelism)],
    which "blocks until drained".  Here [Process] starts [parallelism]
    workers; an idle worker takes the task at the front of the queue, a
    busy one performs the next action of its task.  The schedule lists
    which worker moves next; a worker with nothing to do does not move. *)
Record pool : Type := {
  shared : verifier;
  workers : list (M unit);   (* [Ret tt] is an idle worker *)
}.

Definition step (i : nat) (c : pool) : pool :=
  match workers c !! i with
  | None => c
  | Some (Ret _) =>
      match workQueue (shared c) with
      | [] => c
      | t :: q =>
          {| shared := set_workQueue q (shared c);
             workers := <[i := run_task t]> (workers c) |}
      end
  | Some (Act a k) =>
      let '(v', x) := perform a (shared c) in
      {| shared := v'; workers := <[i := k x]> (workers c) |}
  end.

Definition steps (sched : list nat) (c : pool) : pool :=
  foldl (fun c i => step i c) c sched.

Definition idle (w : M unit) : bool :=
  match w with
  | Ret _ => true
  | Act _ _ => false
  end.

Definition drained (c : pool) : bool :=
  match workQueue (shared c) with
  | [] => forallb idle (workers c)
  | _ :: _ => false
  end.

Definition start_pool (parallelism : Z) (v : verifier) : pool :=
  {| shared := v; workers := replicate (Z.to_nat parallelism) (Ret tt) |}.

(** Modelled from the spec: [process(parallelism)] "blocks until
    drained"; [None] says that the queue is not drained when the schedule
    ends.  The spec takes the parallelism to be a positive number.  With a
    parallelism of 0 or less no worker is started, there is nothing to
    wait for, and [Process] returns at once with the queue as it is. *)
Definition Process (parallelism : Z) (sched : list nat) (v : verifier)
  : option verifier :=
  if parallelism <=? 0 then Some v
  else
    let c := steps sched (start_pool parallelism v) in
    if drained c then Some (shared c) else None.

(** ** Seeding the roots and the result of the run *)

(** The loop of [loadSourceManifests] over [*verifyCommandSources]; the
    host and user name arguments of [ParseSourceInfo] are part of [W]. *)
Fixpoint sourceManifestIDs (manifestIDs : list string)
    (sources : list string) : result (list string) :=
  match sources with
  | [] => Ok manifestIDs
  | srcStr :: rest =>
      match ParseSourceInfo W srcStr with
      | Err err => Err (ErrParsing srcStr err)
      | Ok src =>
          sourceManifestIDs
            (manifestIDs ++ ListSnapshotManifests W (Some src)) rest
      end
  end.

Definition loadSourceManifests : result (list Manifest) :=
  match
    (if AllSources F then Ok ([] ++ ListSnapshotManifests W None)
     else sourceManifestIDs [] (Sources F))
  with
  | Err err => Err err
  | Ok manifestIDs => LoadSnapshots W manifestIDs
  end.

Fixpoint enqueueManifests (manifests : list Manifest) : M unit :=
  match manifests with
  | [] => Ret tt
  | man :: rest =>
      let path := Source man +:+ "@" +:+ StartTime man in
      match RootEntry man with
      | None => enqueueManifests rest
      | Some re =>
          (match Type_ re with
           | EntryTypeDirectory =>
               enqueueVerifyDirectory (RootObjectID re) path
           | _ => enqueueVerifyObject (RootObjectID re) path (-1)
           end) ;;
          enqueueManifests rest
      end
  end.

Fixpoint enqueueDirObjectIDs (ids : list string) : M (option error) :=
  match ids with
  | [] => Ret None
  | oidStr :: rest =>
      match parseObjectID W oidStr with
      | Err err => Ret (Some err)
      | Ok oid =>
          enqueueVerifyDirectory oid oidStr ;; enqueueDirObjectIDs rest
      end
  end.

Fixpoint enqueueFileObjectIDs (ids : list string) : M (option error) :=
  match ids with
  | [] => Ret None
  | oidStr :: rest =>
      match parseObjectID W oidStr with
      | Err err => Ret (Some err)
      | Ok oid =>
          enqueueVerifyObject oid oidStr (-1) ;; enqueueFileObjectIDs rest
      end
  end.

Definition enqueueRootsToVerify : M (option error) :=
  match loadSourceManifests with
  | Err err => Ret (Some err)
  | Ok manifests =>
      enqueueManifests manifests ;;
      r <- enqueueDirObjectIDs (DirObjectIDs F) ;;
      match r with
      | Some err => Ret (Some err)
      | None => enqueueFileObjectIDs (FileObjectIDs F)
      end
  end.

(** [fmt.Errorf("encountered %v errors", len(v.errors))]. *)
Definition encountered (n : nat) : error :=
  ErrorString ("encountered " +:+ pretty n +:+ " errors").

(** The result is the final verifier (to observe the run) and the error
    returned, [None] for [nil]; there is no result when [Process] does not
    return within the schedule. *)
Definition runVerifyCommand (sched : list nat)
  : option (verifier * option error) :=
  let '(v, r) := run enqueueRootsToVerify new_verifier in
  match r with
  | Some err => Some (v, Some err)
  | None =>
      match Process (Parallel F) sched v with
      | None => None
      | Some v' =>
          Some (v', if Nat.eqb (length (errors v')) 0 then None
                    else Some (encountered (length (errors v'))))
      end
  end.

(** ** The variant in which [reportError] returns no value

    The same program with [reportError_void] at the four call sites, run
    by the same queue. *)

Definition doVerifyDirectory_void (oid : ID) (path : string) : M unit :=
  r <- call (CallReaddir oid) ;;
  match r with
  | Err err => call (ReportErrorVoid path (ErrReading oid err))
  | Ok entries => forEntries path entries
  end.

Definition doVerifyObject_void (oid : ID) (path : string)
    (expectedLength : Z) : M unit :=
  p <- call (CallVerifyObject oid) ;;
  let '(len, err) := p in
  match err with
  | Some e => call (ReportErrorVoid path (ErrVerifying oid e))
  | None => Ret tt
  end ;;
  (if (expectedLength >=? 0) && negb (len =? expectedLength)
   then call (ReportErrorVoid path (ErrInvalidLength oid len expectedLength))
   else Ret tt) ;;
  r <- call (CallIntn 100) ;;
  if r <? FilesPercent F then
    err' <- readEntireObject oid path ;;
    match err' with
    | Some e => call (ReportErrorVoid path (ErrReadingObject oid e))
    | None => Ret tt
    end
  else Ret tt.

Definition run_task_void (t : task) : M unit :=
  match t with
  | VerifyDirectoryTask oid path => doVerifyDirectory_void oid path
  | VerifyObjectTask oid path expectedLength =>
      doVerifyObject_void oid path expectedLength
  end.

Definition step_void (i : nat) (c : pool) : pool :=
  match workers c !! i with
  | None => c
  | Some (Ret _) =>
      match workQueue (shared c) with
      | [] => c
      | t :: q =>
          {| shared := set_workQueue q (shared c);
             workers := <[i := run_task_void t]> (workers c) |}
      end
  | Some (Act a k) =>
      let '(v', x) := perform a (shared c) in
      {| shared := v'; workers := <[i := k x]> (workers c) |}
  end.

Definition steps_void (sched : list nat) (c : pool) : pool :=
  foldl (fun c i => step_void i c) c sched.

Definition Process_void (parallelism : Z) (sched : list nat) (v : verifier)
  : option verifier :=
  if parallelism <=? 0 then Some v
  else
    let c := steps_void sched (start_pool parallelism v) in
    if drained c then Some (shared c) else None.

Definition runVerifyCommand_void (sched : list nat)
  : option (verifier * option error) :=
  let '(v, r) := run enqueueRootsToVerify new_verifier in
  match r with
  | Some err => Some (v, Some err)
  | None =>
      match Process_void (Parallel F) sched v with
      | None => None
      | Some v' =>
          Some (v', if Nat.eqb (length (errors v')) 0 then None
                    else Some (encountered (length (errors v'))))
      end
  end.

End Verifier.

(** ** The progress callback

    Instants are nanoseconds since the zero time, durations are [int64]
    nanoseconds, [float64] is the binary64 arithmetic of [PrimFloat]. *)












(** ** The checks of an object task, one by one

    What each of the three checks of [doVerifyObject] reports, as a
    function of the answers of the collaborators it looks at. *)

Definition verification_failure (W : world) (oid : ID) : list error :=
  match (VerifyObject W oid).2 with
  | Some e => [ErrVerifying oid e]
  | None => []
  end.

Definition length_mismatch (W : world) (oid : ID) (expectedLength : Z)
  : list error :=
  let len := (VerifyObject W oid).1 in
  if (0 <=? expectedLength) && negb (len =? expectedLength)
  then [ErrInvalidLength oid len expectedLength]
  else [].

Definition deep_read_failure (W : world) (oid : ID) : list error :=
  match Open W oid with
  | Err e => [ErrReadingObject oid e]
  | Ok rd =>
      match copyErr rd with
      | Some e => [ErrReadingObject oid e]
      | None => []
      end
  end.

(** Whether the [k]-th draw selects the object for a full read. *)
Definition sampled (F : flags) (W : world) (k : nat) : bool :=
  Intn W k <? FilesPercent F.

(** The task that the loop of [doVerifyDirectory] makes of an entry. *)
Definition task_of_entry (path : string) (e : Entry) : task :=
  if IsDir e then VerifyDirectoryTask (ObjectID e) (path +:+ "/" +:+ Name e)
  else VerifyObjectTask (ObjectID e) (path +:+ "/" +:+ Name e) (FileSize e).

(** An object task with no expected length. *)
Definition length_unknown (t : task) : Prop :=
  match t with
  | VerifyDirectoryTask _ _ => True
  | VerifyObjectTask _ _ expectedLength => expectedLength = -1
  end.

(** ** What a worker is about to do

    The identifier a program is about to hand to the queue, and the one it
    is about to pass to [VerifyObject], if its next action is one of
    these. *)

Definition pendE {A : Type} (p : M A) : list ID :=
  match p with
  | Ret _ => []
  | Act a _ =>
      match a with
      | EnqueueFront t | EnqueueBack t => [task_oid t]
      | _ => []
      end
  end.

Definition pendV {A : Type} (p : M A) : list ID :=
  match p with
  | Ret _ => []
  | Act a _ =>
      match a with
      | CallVerifyObject oid => [oid]
      | _ => []
      end
  end.

Definition plain {A : Type} (p : M A) : Prop :=
  pendE p = [] /\ pendV p = [].

(** What may follow an action: a task is handed to the queue only right
    after [shouldEnqueue] returned [true] for its identifier, and
    [VerifyObject] is called only as the first action of a task. *)
Definition cont_ok {A X : Type} (a : action X) : (X -> M A) -> Prop :=
  match a in action X return (X -> M A) -> Prop with
  | ShouldEnqueue oid => fun k =>
      plain (k false) /\ pendV (k true) = []
      /\ (pendE (k true) = [] \/ pendE (k true) = [oid])
  | _ => fun k => forall x, plain (k x)
  end.

Fixpoint proper {A : Type} (p : M A) : Prop :=
  match p with
  | Ret _ => True
  | Act a k => cont_ok a k /\ forall x, proper (k x)
  end.

Definition good {A : Type} (p : M A) : Prop := proper p /\ plain p.

(** The identifiers passed to [VerifyObject] so far, oldest first. *)
Definition verified (cs : list ext_call) : list ID :=
  omap (fun c => match c with CVerifyObject oid => Some oid | _ => None end)
    cs.

(** The invariant of a run, given the identifiers the workers are about
    to enqueue ([pe]) and about to verify ([pv]): no identifier was or is
    about to be enqueued twice, all of them are in the visited set; no
    identifier was verified, is about to be verified or is waiting in the
    queue twice, and all of those were enqueued. *)
Definition inv (v : verifier) (pe pv : list ID) : Prop :=
  NoDup (map task_oid (enqueued v) ++ pe)
  /\ (forall x, x ∈ map task_oid (enqueued v) ++ pe ->
                seen v !! x = Some true)
  /\ NoDup (verified (calls v) ++ pv ++ map task_oid (workQueue v))
  /\ (forall x, x ∈ verified (calls v) ++ pv ++ map task_oid (workQueue v) ->
                x ∈ map task_oid (enqueued v)).

Definition pool_inv (c : pool) : Prop :=
  inv (shared c) (workers c ≫= pendE) (workers c ≫= pendV)
  /\ Forall proper (workers c).

(** The error of the first string that does not parse as an object
    identifier, if there is one. *)
Fixpoint first_parse_error (W : world) (ids : list string) : option error :=
  match ids with
  | [] => None
  | oidStr :: rest =>
      match parseObjectID W oidStr with
      | Err err => Some err
      | Ok _ => first_parse_error W rest
      end
  end.

(** ** Comparing a program with its variant

    [sim p q]: [q] is [p] with every [reportError] replaced by the one that
    returns nothing, and what [p] does after a [reportError] does not
    depend on the boolean returned. *)
Inductive sim {A : Type} : M A -> M A -> Prop :=
| sim_ret (a : A) : sim (Ret a) (Ret a)
| sim_report (path : string) (err : error)
    (k : bool -> M A) (k' : unit -> M A) :
    (forall b, sim (k b) (k' tt)) ->
    sim (Act (ReportError path err) k) (Act (ReportErrorVoid path err) k')
| sim_act {X : Type} (a : action X) (k k' : X -> M A) :
    (forall x, sim (k x) (k' x)) -> sim (Act a k) (Act a k').

Definition pool_sim (c c' : pool) : Prop :=
  shared c = shared c' /\ Forall2 sim (workers c) (workers c').

(** ** A measure of the work left

    How many identifiers of [U] are not yet in the visited set, and the
    sum of that number and the length of the queue. *)
Definition unseen (U : list ID) (v : verifier) : nat :=
  length (filter (fun x => seen v !! x <> Some true) U).

Definition work_left (U : list ID) (v : verifier) : nat :=
  (length (workQueue v) + unseen U v)%nat.

(** Every directory of the repository lists identifiers of [U] only. *)
Definition listings_within (W : world) (U : list ID) : Prop :=
  forall oid entries e,
    Readdir W oid = Ok entries -> e ∈ entries -> ObjectID e ∈ U.

(** ** Where tasks and length failures come from

    A task either has no expected length or is the task of an entry of
    some listing of the repository; a length failure is about an expected
    length that is not negative and differs from the length found. *)
Definition task_origin (W : world) (t : task) : Prop :=
  length_unknown t
  \/ exists d entries e path,
       Readdir W d = Ok entries /\ e ∈ entries /\ t = task_of_entry path e.

Definition report_ok (W : world) (err : error) : Prop :=
  match err with
  | ErrInvalidLength oid len expectedLength =>
      0 <= expectedLength /\ len = (VerifyObject W oid).1
      /\ len <> expectedLength
  | _ => True
  end.

Definition act_ok (W : world) {X : Type} (a : action X) : Prop :=
  match a with
  | EnqueueFront t | EnqueueBack t => task_origin W t
  | ReportError _ err | ReportErrorVoid _ err => report_ok W err
  | _ => True
  end.

(** Every action the program can come to perform is [act_ok]. *)
Fixpoint lawful (F : flags) (W : world) {A : Type} (p : M A) : Prop :=
  match p with
  | Ret _ => True
  | Act a k => act_ok W a /\ forall v, lawful F W (k (perform F W a v).2)
  end.

Definition records_ok (W : world) (v : verifier) : Prop :=
  Forall (task_origin W) (enqueued v) /\ Forall (report_ok W) (errors v).

(** ** What a program leaves unchanged, adds and consumes *)

(** Every task the program adds to the history of the queue satisfies
    [P]. *)
Definition adds {A : Type} (F : flags) (W : world) (P : task -> Prop)
    (m : M A) : Prop :=
  forall v, exists new,
    enqueued (run F W m v).1 = enqueued v ++ new /\ Forall P new.

(** The program reports no failure, calls no collaborator of the object
    layer and draws no random number. *)
Definition keeps {A : Type} (F : flags) (W : world) (m : M A) : Prop :=
  forall v,
    errors (run F W m v).1 = errors v
    /\ warnings (run F W m v).1 = warnings v
    /\ calls (run F W m v).1 = calls v
    /\ draws (run F W m v).1 = draws v.

(** The work left does not grow while the program runs. *)
Definition tame {A : Type} (F : flags) (W : world) (U : list ID) (m : M A)
  : Prop :=
  forall v, (work_left U (run F W m v).1 <= work_left U v)%nat.

(** ** Configurations used in the statements *)

Definition with_threshold (t : Z) (F : flags) : flags :=
  {| ErrorThreshold := t; DirObjectIDs := DirObjectIDs F;
     FileObjectIDs := FileObjectIDs F; AllSources := AllSources F;
     Sources := Sources F; Parallel := Parallel F;
     FilesPercent := FilesPercent F |}.

Definition with_percent (p : Z) (F : flags) : flags :=
  {| ErrorThreshold := ErrorThreshold F; DirObjectIDs := DirObjectIDs F;
     FileObjectIDs := FileObjectIDs F; AllSources := AllSources F;
     Sources := Sources F; Parallel := Parallel F; FilesPercent := p |}.

(** A repository in which nothing fails: no directory has entries, every
    object has length 0, every draw is 0, every string parses. *)
Definition quiet_world : world :=
  {| Readdir := fun _ => Ok [];
     VerifyObject := fun _ => (0, None);
     Open := fun _ => Ok {| copyErr := None |};
     Intn := fun _ => 0;
     ParseSourceInfo := fun s =>
       Ok {| Host := "host"; UserName := "user"; Path := s |};
     ListSnapshotManifests := fun _ => [];
     LoadSnapshots := fun _ => Ok [];
     parseObjectID := fun s => Ok s |}.

(** A repository in which an object of expected length 0 fails the checks
    chosen by the three booleans. *)
Definition checks_world (verify_fails length_differs read_fails : bool)
  : world :=
  {| Readdir := Readdir quiet_world;
     VerifyObject := fun _ =>
       (if length_differs then 1 else 0,
        if verify_fails then Some (ErrorString "missing block") else None);
     Open := fun _ =>
       if read_fails then Err (ErrorString "unreadable")
       else Ok {| copyErr := None |};
     Intn := Intn quiet_world;
     ParseSourceInfo := ParseSourceInfo quiet_world;
     ListSnapshotManifests := ListSnapshotManifests quiet_world;
     LoadSnapshots := LoadSnapshots quiet_world;
     parseObjectID := parseObjectID quiet_world |}.

(** A repository whose directory [root] lists one file, of recorded size
    -2; the object has length 10. *)
Definition negative_size_world : world :=
  {| Readdir := fun oid =>
       if String.eqb oid "root" then Ok [ {| Name := "f"; IsDir := false;
                                             FileSize := -2; ObjectID := "o" |} ]
       else Err (ErrorString "not a directory");
     VerifyObject := fun _ => (10, None);
     Open := Open quiet_world;
     Intn := Intn quiet_world;
     ParseSourceInfo := ParseSourceInfo quiet_world;
     ListSnapshotManifests := ListSnapshotManifests quiet_world;
     LoadSnapshots := LoadSnapshots quiet_world;
     parseObjectID := parseObjectID quiet_world |}.

Definition negative_size_flags : flags :=
  {| ErrorThreshold := 0; DirObjectIDs := ["root"]; FileObjectIDs := [];
     AllSources := false; Sources := []; Parallel := 1; FilesPercent := 0 |}.

(** ** A repository with five damaged files

    One snapshot whose root directory has five sub-directories; each holds
    a file that fails verification and a file shared by all of them.  An
    identifier that is not listed is not a directory. *)

Definition file (name oid : string) (size : Z) : Entry :=
  {| Name := name; IsDir := false; FileSize := size; ObjectID := oid |}.

Definition dir (name oid : string) : Entry :=
  {| Name := name; IsDir := true; FileSize := 0; ObjectID := oid |}.

Fixpoint assoc {A : Type} (l : list (string * A)) (key : string) : option A :=
  match l with
  | [] => None
  | (k, a) :: rest => if String.eqb k key then Some a else assoc rest key
  end.

Definition five_listing : list (string * list Entry) :=
  [("root", [dir "a" "A"; dir "b" "B"; dir "c" "C"; dir "d" "D"; dir "e" "E"]);
   ("A", [file "bad" "fa" 1; file "ok" "good" 2]);
   ("B", [file "bad" "fb" 1; file "ok" "good" 2]);
   ("C", [file "bad" "fc" 1; file "ok" "good" 2]);
   ("D", [file "bad" "fd" 1; file "ok" "good" 2]);
   ("E", [file "bad" "fe" 1; file "ok" "good" 2])].

Definition five_world : world :=
  {| Readdir := fun oid =>
       match assoc five_listing oid with
       | Some entries => Ok entries
       | None => Err (ErrorString "not a directory")
       end;
     VerifyObject := fun oid =>
       if String.eqb oid "good" then (2, None)
       else (1, Some (ErrorString "missing block"));
     Open := Open quiet_world;
     Intn := Intn quiet_world;
     ParseSourceInfo := fun s =>
       if String.eqb s "?" then Err (ErrorString "invalid source")
       else ParseSourceInfo quiet_world s;
     ListSnapshotManifests := fun _ => ["m1"];
     LoadSnapshots := fun _ =>
       Ok [ {| Source := "user@host:/home"; StartTime := "2019-01-01";
               RootEntry := Some {| Type_ := EntryTypeDirectory;
                                    RootObjectID := "root" |} |} ];
     parseObjectID := fun s =>
       if String.eqb s "?" then Err (ErrorString "malformed object id")
       else Ok s |}.

Definition five_flags : flags :=
  {| ErrorThreshold := 0; DirObjectIDs := []; FileObjectIDs := [];
     AllSources := true; Sources := []; Parallel := 2; FilesPercent := 0 |}.

(** The same repository in which, besides, the shared file cannot be
    opened and the reading of [fa] breaks off. *)
Definition five_unreadable_world : world :=
  {| Readdir := Readdir five_world;
     VerifyObject := VerifyObject five_world;
     Open := fun oid =>
       if String.eqb oid "good" then Err (ErrorString "unreadable")
       else if String.eqb oid "fa"
            then Ok {| copyErr := Some (ErrorString "unexpected EOF") |}
            else Ok {| copyErr := None |};
     Intn := Intn five_world;
     ParseSourceInfo := ParseSourceInfo five_world;
     ListSnapshotManifests := ListSnapshotManifests five_world;
     LoadSnapshots := LoadSnapshots five_world;
     parseObjectID := parseObjectID five_world |}.

(** Two workers taking turns. *)
Definition turns (n : nat) : list nat := concat (replicate n [0; 1]%nat).

(** ** Every action of a program

    [every Q p]: each action the program [p] can come to perform, whatever
    the answers it gets, satisfies [Q]; [after_first Q p]: the same for the
    actions that follow the first one. *)
Fixpoint every {A : Type} (Q : forall X : Type, action X -> Prop) (p : M A)
  : Prop :=
  match p with
  | Ret _ => True
  | Act a k => Q _ a /\ forall x, every Q (k x)
  end.

Definition after_first {A : Type} (Q : forall X : Type, action X -> Prop)
    (p : M A) : Prop :=
  match p with
  | Ret _ => True
  | Act _ k => forall x, every Q (k x)
  end.

(** [Q] holds of every action that seeding performs and that a task
    performs after its first action. *)
Definition admits (Q : forall X : Type, action X -> Prop) : Prop :=
  Q _ TooManyErrors
  /\ (forall oid, Q _ (ShouldEnqueue oid))
  /\ (forall oid path, Q _ (EnqueueFront (VerifyDirectoryTask oid path)))
  /\ (forall oid path len, Q _ (EnqueueBack (VerifyObjectTask oid path len)))
  /\ (forall path err, Q _ (ReportError path err))
  /\ (forall oid, Q _ (CallOpen oid))
  /\ (forall n, Q _ (CallIntn n)).

(** ** Kinds of task and the order of the queue *)

Definition is_dir_task (t : task) : bool :=
  match t with
  | VerifyDirectoryTask _ _ => true
  | VerifyObjectTask _ _ _ => false
  end.

Definition dir_tasks (ts : list task) : list task :=
  List.filter is_dir_task ts.

Definition obj_tasks (ts : list task) : list task :=
  List.filter (fun t => negb (is_dir_task t)) ts.

(** The entries that the loop of [doVerifyDirectory] hands to the queue
    when the visited set is [s]: in listing order, those whose identifier
    is neither in [s] nor the identifier of an earlier entry. *)
Fixpoint fresh (s : gmap ID bool) (entries : list Entry) : list Entry :=
  match entries with
  | [] => []
  | e :: rest =>
      if default false (s !! ObjectID e) then fresh s rest
      else e :: fresh (<[ObjectID e := true]> s) rest
  end.

(** Directory tasks go to the front of the queue and object tasks to the
    back. *)
Definition sides (X : Type) (a : action X) : Prop :=
  match a with
  | EnqueueFront t => is_dir_task t = true
  | EnqueueBack t => is_dir_task t = false
  | _ => True
  end.

(** Neither a listing nor a verification. *)
Definition no_start (X : Type) (a : action X) : Prop :=
  match a with
  | CallReaddir _ | CallVerifyObject _ => False
  | _ => True
  end.

(** The identifiers of the directory tasks and of the object tasks of a
    list, and the identifiers passed to [Readdir] so far. *)
Definition dir_ids (ts : list task) : list ID :=
  omap (fun t => match t with
                 | VerifyDirectoryTask oid _ => Some oid
                 | VerifyObjectTask _ _ _ => None
                 end) ts.

Definition obj_ids (ts : list task) : list ID :=
  omap (fun t => match t with
                 | VerifyDirectoryTask _ _ => None
                 | VerifyObjectTask oid _ _ => Some oid
                 end) ts.

Definition listed (cs : list ext_call) : list ID :=
  omap (fun c => match c with CReaddir oid => Some oid | _ => None end) cs.

(** The directory a program is about to list. *)
Definition pendR {A : Type} (p : M A) : list ID :=
  match p with
  | Ret _ => []
  | Act a _ =>
      match a with
      | CallReaddir oid => [oid]
      | _ => []
      end
  end.

(** Every task that was enqueued is in the queue, about to be started, or
    was started: its directory listed, its object verified. *)
Definition accounted (v : verifier) (pr pv : list ID) : Prop :=
  dir_ids (enqueued v)
    ≡ₚ listed (calls v) ++ pr ++ dir_ids (workQueue v)
  /\ obj_ids (enqueued v)
    ≡ₚ verified (calls v) ++ pv ++ obj_ids (workQueue v).

(** ** The visited set and the history of the queue *)

(** After [shouldEnqueue] returned [true] the next action hands the
    identifier to the queue. *)
Definition pushes_after {A X : Type} (a : action X) : (X -> M A) -> Prop :=
  match a in action X return (X -> M A) -> Prop with
  | ShouldEnqueue oid => fun k => pendE (k true) = [oid]
  | _ => fun _ => True
  end.

Fixpoint eager {A : Type} (p : M A) : Prop :=
  match p with
  | Ret _ => True
  | Act a k => pushes_after a k /\ forall x, eager (k x)
  end.

(** The map holds [true] only, and only for identifiers that were handed
    to the queue or are about to be ([pe]). *)
Definition seen_enqueued (v : verifier) (pe : list ID) : Prop :=
  forall x b,
    seen v !! x = Some b ->
    b = true /\ x ∈ map task_oid (enqueued v) ++ pe.

(** ** Reaching every entry

    [covers x p]: as long as [tooManyErrors] answers [false], the program
    [p] comes to call [shouldEnqueue] with [x]. *)
Definition hits (x : ID) {X : Type} (a : action X) : Prop :=
  match a with
  | ShouldEnqueue oid => oid = x
  | _ => False
  end.

Definition allowed {X : Type} (a : action X) : X -> Prop :=
  match a in action X return X -> Prop with
  | TooManyErrors => fun r => r = false
  | _ => fun _ => True
  end.

Fixpoint covers {A : Type} (x : ID) (p : M A) : Prop :=
  match p with
  | Ret _ => False
  | Act a k => hits x a \/ forall r, allowed a r -> covers x (k r)
  end.

(** A program about to list a directory goes on to cover every entry of
    the listing. *)
Definition lists_all (W : world) {A : Type} (p : M A) : Prop :=
  match p with
  | Ret _ => True
  | Act a k =>
      match a in action X return (X -> M A) -> Prop with
      | CallReaddir d => fun k =>
          forall es e, Readdir W d = Ok es -> e ∈ es ->
                       covers (ObjectID e) (k (Ok es))
      | _ => fun _ => True
      end k
  end.

(** Every entry of every directory listed so far is in the visited set or
    is covered by the program of a worker. *)
Definition closed_so_far (W : world) (v : verifier) (ws : list (M unit))
  : Prop :=
  forall d es e,
    d ∈ listed (calls v) -> Readdir W d = Ok es -> e ∈ es ->
    seen v !! ObjectID e = Some true
    \/ exists j w, ws !! j = Some w /\ covers (ObjectID e) w.

(** The roots of a run: the root entries of the manifests loaded and the
    identifiers given for directories and for files. *)
Definition is_root (F : flags) (W : world) (oid : ID) : Prop :=
  (exists manifests man re,
      loadSourceManifests F W = Ok manifests /\ man ∈ manifests
      /\ RootEntry man = Some re /\ RootObjectID re = oid)
  \/ (exists s, s ∈ DirObjectIDs F /\ parseObjectID W s = Ok oid)
  \/ (exists s, s ∈ FileObjectIDs F /\ parseObjectID W s = Ok oid).

(** The identifiers that the listings of the repository with five damaged
    files mention. *)
Definition five_ids : list ID :=
  ["A"; "B"; "C"; "D"; "E"; "fa"; "fb"; "fc"; "fd"; "fe"; "good"].

(** A repository with two sources, listed as manifests [m1] and [m2; m3];
    a source that starts with nothing does not parse. *)
Definition two_sources_world : world :=
  {| Readdir := Readdir quiet_world;
     VerifyObject := VerifyObject quiet_world;
     Open := Open quiet_world;
     Intn := Intn quiet_world;
     ParseSourceInfo := fun s =>
       if String.eqb s "?" then Err (ErrorString "invalid source")
       else Ok {| Host := "host"; UserName := "user"; Path := s |};
     ListSnapshotManifests := fun src =>
       match src with
       | None => ["m1"; "m2"; "m3"; "m4"]
       | Some src =>
           if String.eqb (Path src) "/a" then ["m1"]
           else if String.eqb (Path src) "/b" then ["m2"; "m3"]
           else []
       end;
     LoadSnapshots := fun ids =>
       Ok (map (fun id => {| Source := id; StartTime := "t";
                             RootEntry := None |}) ids);
     parseObjectID := parseObjectID quiet_world |}.

(** ** What a program does along the answers it really gets

    [always Q ls vs p]: every action that [p] comes to perform, given the
    answers of the collaborators and of the shared state, satisfies [Q],
    where [ls] and [vs] are the directories listed and the objects
    verified before that action.  [eventually E p]: on every such path [p]
    comes to perform an action that satisfies [E]. *)

Definition starts_l {X : Type} (a : action X) : list ID :=
  match a with
  | CallReaddir d => [d]
  | _ => []
  end.

Definition starts_v {X : Type} (a : action X) : list ID :=
  match a with
  | CallVerifyObject o => [o]
  | _ => []
  end.

Fixpoint always (F : flags) (W : world)
    (Q : list ID -> list ID -> forall X : Type, action X -> Prop)
    (ls vs : list ID) {A : Type} (p : M A) : Prop :=
  match p with
  | Ret _ => True
  | Act a k =>
      Q ls vs _ a
      /\ forall v, always F W Q (ls ++ starts_l a) (vs ++ starts_v a)
                     (k (perform F W a v).2)
  end.

Fixpoint eventually (F : flags) (W : world)
    (E : forall X : Type, action X -> Prop) {A : Type} (p : M A) : Prop :=
  match p with
  | Ret _ => False
  | Act a k => E _ a \/ forall v, eventually F W E (k (perform F W a v).2)
  end.

Definition monotone_in_calls
    (Q : list ID -> list ID -> forall X : Type, action X -> Prop) : Prop :=
  forall ls vs ls' vs' X (a : action X),
    (forall x, x ∈ ls -> x ∈ ls') -> (forall x, x ∈ vs -> x ∈ vs') ->
    Q ls vs X a -> Q ls' vs' X a.

(** A worker's program satisfies [Q] from the state [v] on. *)
Definition upholds (F : flags) (W : world)
    (Q : list ID -> list ID -> forall X : Type, action X -> Prop)
    (v : verifier) (w : M unit) : Prop :=
  always F W Q (listed (calls v)) (verified (calls v)) w.

(** What is owed for the tasks enqueued so far: each of the things [x]
    expected of an enqueued task is recorded, or the task still waits in
    the queue, or a worker is on its way to the action that records [x]. *)
Definition owed (F : flags) (W : world) {T : Type}
    (expected : task -> list T)
    (event : T -> forall X : Type, action X -> Prop)
    (recorded : T -> verifier -> Prop)
    (v : verifier) (ws : list (M unit)) : Prop :=
  forall t x,
    t ∈ enqueued v -> x ∈ expected t ->
    t ∈ workQueue v \/ recorded x v
    \/ exists j w, ws !! j = Some w /\ eventually F W (event x) w.

(** The failures a task has to report, each with the path it is logged
    under. *)
Definition expected_reports (W : world) (t : task) : list (string * error) :=
  match t with
  | VerifyDirectoryTask d path =>
      match Readdir W d with
      | Err e => [(path, ErrReading d e)]
      | Ok _ => []
      end
  | VerifyObjectTask o path expectedLength =>
      map (pair path)
        (verification_failure W o ++ length_mismatch W o expectedLength)
  end.

Definition reports (pe : string * error) (X : Type) (a : action X) : Prop :=
  match a with
  | ReportError path err => (path, err) = pe
  | _ => False
  end.

Definition logged (pe : string * error) (v : verifier) : Prop :=
  pe ∈ warnings v.

(** The actions of seeding and of the loop over the entries of a
    directory. *)
Definition walk (X : Type) (a : action X) : Prop :=
  match a with
  | TooManyErrors | ShouldEnqueue _ | EnqueueFront _ | EnqueueBack _ => True
  | _ => False
  end.

(** ** Failures that are real

    What a record of the failure list states about the repository, and the
    listing or verification it presupposes. *)
Definition failure_of (W : world) (err : error) : Prop :=
  match err with
  | ErrReading d e => Readdir W d = Err e
  | ErrVerifying o e => (VerifyObject W o).2 = Some e
  | ErrInvalidLength o len expectedLength =>
      len = (VerifyObject W o).1 /\ 0 <= expectedLength
      /\ len <> expectedLength
  | ErrReadingObject o e =>
      Open W o = Err e
      \/ exists rd, Open W o = Ok rd /\ copyErr rd = Some e
  | ErrorString _ | ErrParsing _ _ => False
  end.

Definition started_in (ls vs : list ID) (err : error) : Prop :=
  match err with
  | ErrReading d _ => d ∈ ls
  | ErrVerifying o _ | ErrInvalidLength o _ _ | ErrReadingObject o _ => o ∈ vs
  | ErrorString _ | ErrParsing _ _ => False
  end.

Definition report_sound (W : world) (ls vs : list ID) (X : Type)
    (a : action X) : Prop :=
  match a with
  | ReportError _ err | ReportErrorVoid _ err =>
      failure_of W err /\ started_in ls vs err
  | _ => True
  end.

Definition failures_sound (W : world) (v : verifier) : Prop :=
  Forall (fun err => failure_of W err
                     /\ started_in (listed (calls v)) (verified (calls v)) err)
    (errors v).

(** ** Full reads *)

(** The identifiers passed to [Open] so far. *)
Definition opened (cs : list ext_call) : list ID :=
  omap (fun c => match c with COpen oid => Some oid | _ => None end) cs.

Definition no_open (ls vs : list ID) (X : Type) (a : action X) : Prop :=
  match a with
  | CallOpen _ => False
  | _ => True
  end.

(** The full read an object task is expected to make when every object
    is sampled, and the failure it is then expected to report. *)
Definition expected_opens (t : task) : list ID :=
  match t with
  | VerifyDirectoryTask _ _ => []
  | VerifyObjectTask o _ _ => [o]
  end.

Definition opens (o : ID) (X : Type) (a : action X) : Prop :=
  match a with
  | CallOpen o' => o' = o
  | _ => False
  end.

Definition was_opened (o : ID) (v : verifier) : Prop := o ∈ opened (calls v).

Definition expected_read_reports (W : world) (t : task)
  : list (string * error) :=
  match t with
  | VerifyDirectoryTask _ _ => []
  | VerifyObjectTask o path _ => map (pair path) (deep_read_failure W o)
  end.


(** ** The failure list, record by record *)

(** The record of a directory task, when the listing fails, and the
    records an object task makes before the draw. *)
Definition listing_failure (W : world) (d : ID) : list error :=
  match Readdir W d with
  | Err e => [ErrReading d e]
  | Ok _ => []
  end.

Definition shallow_failures (W : world) (t : task) : list error :=
  match t with
  | VerifyDirectoryTask d _ => listing_failure W d
  | VerifyObjectTask o _ expectedLength =>
      verification_failure W o ++ length_mismatch W o expectedLength
  end.

Definition mismatch_of (W : world) (t : task) : list error :=
  match t with
  | VerifyDirectoryTask _ _ => []
  | VerifyObjectTask o _ expectedLength => length_mismatch W o expectedLength
  end.

Definition fails_listing (W : world) (d : ID) : bool :=
  match Readdir W d with
  | Err _ => true
  | Ok _ => false
  end.

Definition fails_verification (W : world) (o : ID) : bool :=
  match (VerifyObject W o).2 with
  | Some _ => true
  | None => false
  end.

Definition fails_read (W : world) (o : ID) : bool :=
  match Open W o with
  | Err _ => true
  | Ok rd => match copyErr rd with Some _ => true | None => false end
  end.

(** The record an action appends to the failure list. *)
Definition reported {X : Type} (a : action X) : list error :=
  match a with
  | ReportError _ err | ReportErrorVoid _ err => [err]
  | _ => []
  end.

(** The listing and the verification: their answers come from the
    repository alone. *)
Definition asks {X : Type} (a : action X) : bool :=
  match a with
  | CallReaddir _ | CallVerifyObject _ => true
  | _ => false
  end.

(** The records a program is bound to append whatever the other workers
    do: those it makes up to its next test of the budget, enqueueing, draw
    or full read.  The answer of a listing or of a verification does not
    depend on the state, and the programs of the verifier do not look at
    the result of [reportError]. *)
Fixpoint owes (F : flags) (W : world) {A : Type} (p : M A) : list error :=
  match p with
  | Ret _ => []
  | Act a k =>
      match reported a, asks a with
      | [], false => []
      | rep, _ => rep ++ owes F W (k (perform F W a new_verifier).2)
      end
  end.

(** The record that follows a full read. *)
Definition read_failures (W : world) {X : Type} (a : action X) : list error :=
  match a with
  | CallOpen o => deep_read_failure W o
  | _ => []
  end.

(** Each action of the program keeps the account: what the program owes
    afterwards, with the record the action appended, is what it owed
    before, with the record that a full read makes due. *)
Fixpoint settled (F : flags) (W : world) {A : Type} (p : M A) : Prop :=
  match p with
  | Ret _ => True
  | Act a k =>
      forall v,
        owes F W (k (perform F W a v).2) ++ reported a
        ≡ₚ owes F W (Act a k) ++ read_failures W a
        /\ settled F W (k (perform F W a v).2)
  end.

(** The account of a run: the records in the failure list, those the
    workers owe and those of the tasks waiting in the queue are the
    records of all the tasks enqueued and of all the full reads made. *)
Definition ledger (F : flags) (W : world) (v : verifier)
    (ws : list (M unit)) : Prop :=
  errors v ++ (ws ≫= owes F W) ++ (workQueue v ≫= shallow_failures W)
  ≡ₚ (enqueued v ≫= shallow_failures W)
     ++ (opened (calls v) ≫= deep_read_failure W).

(** The repository with five damaged files in which a failed verification
    gives the length 0. *)
Definition five_short_world : world :=
  {| Readdir := Readdir five_world;
     VerifyObject := fun oid =>
       if String.eqb oid "good" then (2, None)
       else (0, Some (ErrorString "missing block"));
     Open := Open five_world;
     Intn := Intn five_world;
     ParseSourceInfo := ParseSourceInfo five_world;
     ListSnapshotManifests := ListSnapshotManifests five_world;
     LoadSnapshots := LoadSnapshots five_world;
     parseObjectID := parseObjectID five_world |}.

(** The flags with another number of workers. *)
Definition with_parallel (n : Z) (F : flags) : flags :=
  {| ErrorThreshold := ErrorThreshold F; DirObjectIDs := DirObjectIDs F;
     FileObjectIDs := FileObjectIDs F; AllSources := AllSources F;
     Sources := Sources F; Parallel := n; FilesPercent := FilesPercent F |}.

(** * Properties *)

(** ** The error budget *)

Lemma reportError_errors F path err v :
  errors (reportError F path err v).1 = errors v ++ [err].
Proof. reflexivity. Qed.

Lemma reportError_result F path err v :
  (reportError F path err v).2
  = (Z.of_nat (S (length (errors v))) >=? ErrorThreshold F).
Proof.
  unfold reportError; simpl.
  rewrite length_app; simpl. do 2 f_equal. lia.
Qed.

(** C2.  [reportError] appends exactly one record and returns whether the
    new count is at least the threshold.  With the threshold 0 it therefore
    returns [true] on every call, where the claim says [false];
    [tooManyErrors], which tests for 0 first, answers [false] on the same
    state. *)
Theorem reportError_true_at_threshold_zero :
  forall (F : flags) (path : string) (err : error) (v : verifier),
    errors (reportError F path err v).1 = errors v ++ [err]
    /\ (reportError F path err v).2
       = (Z.of_nat (S (length (errors v))) >=? ErrorThreshold F)
    /\ (reportError (with_threshold 0 F) path err v).2 = true
    /\ tooManyErrors (with_threshold 0 F)
         (reportError (with_threshold 0 F) path err v).1 = false.
Proof.
  intros F path err v.
  split; [apply reportError_errors|].
  split; [apply reportError_result|].
  split.
  - rewrite reportError_result. cbn [with_threshold ErrorThreshold].
    apply Z.geb_le. lia.
  - reflexivity.
Qed.

(** ** Running programs *)

Lemma run_bind {A B : Type} F W (m : M A) (f : A -> M B) v :
  run F W (bind m f) v
  = let '(v', a) := run F W m v in run F W (f a) v'.
Proof.
  revert v. induction m as [a | X a k IH]; intros v; simpl.
  - reflexivity.
  - destruct (perform F W a v) as [v' x]. apply IH.
Qed.

(** ** The object task *)

Lemma doVerifyObject_run F W oid path expectedLength v :
  let v' := (run F W (doVerifyObject F oid path expectedLength) v).1 in
  errors v' = errors v ++ verification_failure W oid
                ++ length_mismatch W oid expectedLength
                ++ (if sampled F W (draws v) then deep_read_failure W oid
                    else [])
  /\ calls v' = calls v ++ CVerifyObject oid
                  :: (if sampled F W (draws v) then [COpen oid] else [])
  /\ warnings v' = warnings v ++
       map (pair path)
         (verification_failure W oid ++ length_mismatch W oid expectedLength
          ++ (if sampled F W (draws v) then deep_read_failure W oid else []))
  /\ workQueue v' = workQueue v /\ seen v' = seen v
  /\ enqueued v' = enqueued v.
Proof.
  unfold doVerifyObject, verification_failure, length_mismatch,
    deep_read_failure, sampled, readEntireObject.
  cbn -[Z.geb Z.leb Z.eqb Z.ltb].
  destruct (VerifyObject W oid) as [len err].
  cbn -[Z.geb Z.leb Z.eqb Z.ltb].
  replace (expectedLength >=? 0) with (0 <=? expectedLength)
    by (rewrite Z.geb_leb; reflexivity).
  destruct err as [e|];
    destruct (0 <=? expectedLength); destruct (len =? expectedLength);
    cbn -[Z.geb Z.leb Z.eqb Z.ltb];
    destruct (Intn W (draws v) <? FilesPercent F);
    cbn -[Z.geb Z.leb Z.eqb Z.ltb];
    try (destruct (Open W oid) as [rd | e']; [destruct (copyErr rd)|]);
    cbn -[Z.geb Z.leb Z.eqb Z.ltb];
    rewrite <- ?app_assoc; cbn; rewrite ?app_nil_r;
    repeat split; reflexivity.
Qed.

(** C5.  The failures an object task reports are those of the verification
    check, then of the length check, then of the sampled full read, each
    decided by its own inputs only; the full read is attempted exactly when
    the draw selects the object, whatever the first two checks found; each
    check reports at most one record, records of different checks differ,
    and every one of the eight combinations occurs in some repository. *)
Theorem object_task_checks_independent :
  forall (F : flags) (W : world) (oid path : string) (expectedLength : Z)
         (v : verifier),
    let v' := (run F W (doVerifyObject F oid path expectedLength) v).1 in
    errors v' = errors v ++ verification_failure W oid
                  ++ length_mismatch W oid expectedLength
                  ++ (if sampled F W (draws v) then deep_read_failure W oid
                      else [])
    /\ calls v' = calls v ++ CVerifyObject oid
                    :: (if sampled F W (draws v) then [COpen oid] else [])
    /\ (length (verification_failure W oid) <= 1
        /\ length (length_mismatch W oid expectedLength) <= 1
        /\ length (deep_read_failure W oid) <= 1)%nat
    /\ (forall a b c,
          a ∈ verification_failure W oid ->
          b ∈ length_mismatch W oid expectedLength ->
          c ∈ deep_read_failure W oid ->
          a <> b /\ a <> c /\ b <> c)
    /\ (forall x y z : bool,
          let W' := checks_world x y z in
          let F' := with_percent 100 F in
          sampled F' W' (draws v) = true
          /\ verification_failure W' oid
             = (if x then [ErrVerifying oid (ErrorString "missing block")]
                else [])
          /\ length_mismatch W' oid 0
             = (if y then [ErrInvalidLength oid 1 0] else [])
          /\ deep_read_failure W' oid
             = (if z then [ErrReadingObject oid (ErrorString "unreadable")]
                else [])).
Proof.
  intros F W oid path expectedLength v v'.
  destruct (doVerifyObject_run F W oid path expectedLength v)
    as (He & Hc & _).
  split; [exact He|]. split; [exact Hc|]. split; [|split].
  - unfold verification_failure, length_mismatch, deep_read_failure.
    destruct (VerifyObject W oid) as [len [e|]]; simpl;
      destruct ((0 <=? expectedLength) && negb (len =? expectedLength));
      destruct (Open W oid) as [[[e'|]]|e']; simpl; lia.
  - unfold verification_failure, length_mismatch, deep_read_failure.
    intros a b c Ha Hb Hc'.
    destruct (VerifyObject W oid) as [len [e|]]; simpl in *;
      [|by apply elem_of_nil in Ha].
    destruct ((0 <=? expectedLength) && negb (len =? expectedLength));
      [|by apply elem_of_nil in Hb].
    apply list_elem_of_singleton in Ha, Hb. subst a b.
    destruct (Open W oid) as [[[e'|]]|e']; simpl in Hc';
      try (by apply elem_of_nil in Hc');
      apply list_elem_of_singleton in Hc'; subst c; repeat split; discriminate.
  - intros x y z; simpl. repeat split; destruct x, y, z; reflexivity.
Qed.

(** ** The directory task *)

(** C7.  When the listing of a directory fails, the task appends exactly
    one record to the failure list, the listing failure of that directory,
    logged under the path of the directory: run alone, it makes the
    failure list one record longer and leaves the queue, the visited set
    and the list of enqueued tasks as they were, having called [Readdir]
    once.  Run among other workers it takes two steps, the listing and the
    report, then the worker is idle; whatever the other workers did in
    between, the first step changes the history of calls only, the second
    the failure list and the log only, and neither changes the program of
    another worker. *)
Theorem listing_failure_reports_once :
  forall (F : flags) (W : world) (oid path : string) (err : error),
    Readdir W oid = Err err ->
    (forall v,
       let v' := (run F W (doVerifyDirectory oid path) v).1 in
       errors v' = errors v ++ [ErrReading oid err]
       /\ length (errors v') = S (length (errors v))
       /\ warnings v' = warnings v ++ [(path, ErrReading oid err)]
       /\ workQueue v' = workQueue v
       /\ seen v' = seen v
       /\ enqueued v' = enqueued v
       /\ calls v' = calls v ++ [CReaddir oid]
       /\ draws v' = draws v)
    /\ (forall (c : pool) (i : nat),
          workers c !! i = Some (doVerifyDirectory oid path) ->
          let c1 := step F W i c in
          errors (shared c1) = errors (shared c)
          /\ warnings (shared c1) = warnings (shared c)
          /\ workQueue (shared c1) = workQueue (shared c)
          /\ seen (shared c1) = seen (shared c)
          /\ enqueued (shared c1) = enqueued (shared c)
          /\ calls (shared c1) = calls (shared c) ++ [CReaddir oid]
          /\ (forall j, j <> i -> workers c1 !! j = workers c !! j)
          /\ (forall c2 : pool,
                workers c2 !! i = workers c1 !! i ->
                let c3 := step F W i c2 in
                errors (shared c3)
                = errors (shared c2) ++ [ErrReading oid err]
                /\ warnings (shared c3)
                   = warnings (shared c2) ++ [(path, ErrReading oid err)]
                /\ workQueue (shared c3) = workQueue (shared c2)
                /\ seen (shared c3) = seen (shared c2)
                /\ enqueued (shared c3) = enqueued (shared c2)
                /\ calls (shared c3) = calls (shared c2)
                /\ workers c3 !! i = Some (Ret tt)
                /\ (forall j, j <> i -> workers c3 !! j = workers c2 !! j))).
Proof.
  intros F W oid path err Hdir. split.
  - intros v v'. unfold v', doVerifyDirectory. cbn. rewrite Hdir. cbn.
    repeat split. rewrite length_app. cbn. lia.
  - intros c i Hi c1.
    assert (Hlt : (i < length (workers c))%nat)
      by (apply lookup_lt_is_Some; eauto).
    assert (Hc1 : c1 = {| shared := add_call (CReaddir oid) (shared c);
                          workers := <[i := bind (call (ReportError path
                                        (ErrReading oid err))) (fun _ => Ret tt)]>
                                       (workers c) |}).
    { unfold c1, step. rewrite Hi. unfold doVerifyDirectory. simpl.
      rewrite Hdir. reflexivity. }
    rewrite Hc1. cbn [shared workers add_call errors warnings workQueue seen
                      enqueued calls].
    do 6 (split; [reflexivity|]). split.
    + intros j Hj. by rewrite list_lookup_insert_ne.
    + intros c2 Hi2.
      rewrite list_lookup_insert_eq in Hi2 by exact Hlt.
      assert (Hlt2 : (i < length (workers c2))%nat)
        by (apply lookup_lt_is_Some; eauto).
      unfold step. rewrite Hi2. simpl.
      do 6 (split; [reflexivity|]). split.
      * by rewrite list_lookup_insert_eq.
      * intros j Hj. by rewrite list_lookup_insert_ne.
Qed.

(** In the repository with five damaged files the identifier [X] is not a
    directory: the task reports once, under its path. *)
Lemma listing_failure_reports_once_witness :
  Readdir five_world "X" = Err (ErrorString "not a directory")
  /\ (let v' := (run five_flags five_world (doVerifyDirectory "X" "snap/x")
                   new_verifier).1 in
      errors v' = [ErrReading "X" (ErrorString "not a directory")]
      /\ warnings v'
         = [("snap/x", ErrReading "X" (ErrorString "not a directory"))]
      /\ workQueue v' = [] /\ enqueued v' = []
      /\ calls v' = [CReaddir "X"]).
Proof.
  split; [reflexivity|].
  destruct (proj1 (listing_failure_reports_once five_flags five_world
                     "X" "snap/x" (ErrorString "not a directory") eq_refl)
              new_verifier) as (He & _ & Hw & Hq & _ & Hn & Hc & _).
  cbn zeta. rewrite He, Hw, Hq, Hn, Hc. repeat split.
Defined.

(** ** Which tasks a program hands to the queue *)

Lemma adds_ret {A : Type} F W P (a : A) : adds F W P (Ret a).
Proof. intros v. exists []. simpl. by rewrite app_nil_r. Qed.

Lemma adds_bind {A B : Type} F W P (m : M A) (f : A -> M B) :
  adds F W P m -> (forall a, adds F W P (f a)) -> adds F W P (bind m f).
Proof.
  intros Hm Hf v. rewrite run_bind.
  destruct (Hm v) as (n1 & E1 & P1).
  destruct (run F W m v) as [v1 a]. simpl in E1.
  destruct (Hf a v1) as (n2 & E2 & P2).
  exists (n1 ++ n2). rewrite E2, E1, app_assoc. split; [done|].
  by apply Forall_app.
Qed.

Lemma adds_weaken {A : Type} F W (P Q : task -> Prop) (m : M A) :
  (forall t, P t -> Q t) -> adds F W P m -> adds F W Q m.
Proof.
  intros HPQ Hm v. destruct (Hm v) as (new & E & HP).
  exists new. split; [done|]. eapply Forall_impl; eauto.
Qed.

Lemma adds_enqueueVerifyDirectory F W (P : task -> Prop) oid path :
  P (VerifyDirectoryTask oid path) ->
  adds F W P (enqueueVerifyDirectory oid path).
Proof.
  intros HP v. unfold enqueueVerifyDirectory. simpl. unfold shouldEnqueue.
  destruct (default false (seen v !! oid)); simpl.
  - exists []. by rewrite app_nil_r.
  - exists [VerifyDirectoryTask oid path]. split; [done|]. by constructor.
Qed.

Lemma adds_enqueueVerifyObject F W (P : task -> Prop) oid path len :
  P (VerifyObjectTask oid path len) ->
  adds F W P (enqueueVerifyObject oid path len).
Proof.
  intros HP v. unfold enqueueVerifyObject. simpl. unfold shouldEnqueue.
  destruct (default false (seen v !! oid)); simpl.
  - exists []. by rewrite app_nil_r.
  - exists [VerifyObjectTask oid path len]. split; [done|]. by constructor.
Qed.

Lemma adds_call_TooManyErrors F W P : adds F W P (call TooManyErrors).
Proof. intros v. exists []. simpl. by rewrite app_nil_r. Qed.

Lemma adds_forEntries F W path entries :
  adds F W (fun t => exists e, e ∈ entries /\ t = task_of_entry path e)
    (forEntries path entries).
Proof.
  induction entries as [|e rest IH]; [apply adds_ret|].
  cbn [forEntries]. apply adds_bind; [apply adds_call_TooManyErrors|].
  intros [|]; [apply adds_ret|].
  apply adds_bind.
  - unfold enqueueEntry.
    destruct (IsDir e) eqn:Hd;
      [apply adds_enqueueVerifyDirectory | apply adds_enqueueVerifyObject];
      (exists e; split; [by left|]; unfold task_of_entry; by rewrite Hd).
  - intros _. eapply adds_weaken; [|exact IH].
    intros t (e' & He' & ->). exists e'. split; [by right|done].
Qed.

Lemma adds_enqueueManifests F W manifests :
  adds F W length_unknown (enqueueManifests manifests).
Proof.
  induction manifests as [|man rest IH]; [apply adds_ret|].
  cbn [enqueueManifests]. destruct (RootEntry man) as [re|]; [|exact IH].
  apply adds_bind; [|intros _; exact IH].
  destruct (Type_ re);
    first [by apply adds_enqueueVerifyDirectory
          | by apply adds_enqueueVerifyObject].
Qed.

Lemma adds_enqueueDirObjectIDs F W ids :
  adds F W length_unknown (enqueueDirObjectIDs W ids).
Proof.
  induction ids as [|oidStr rest IH]; [apply adds_ret|].
  cbn [enqueueDirObjectIDs]. destruct (parseObjectID W oidStr);
    [|apply adds_ret].
  apply adds_bind; [by apply adds_enqueueVerifyDirectory|intros _; exact IH].
Qed.

Lemma adds_enqueueFileObjectIDs F W ids :
  adds F W length_unknown (enqueueFileObjectIDs W ids).
Proof.
  induction ids as [|oidStr rest IH]; [apply adds_ret|].
  cbn [enqueueFileObjectIDs]. destruct (parseObjectID W oidStr);
    [|apply adds_ret].
  apply adds_bind; [by apply adds_enqueueVerifyObject|intros _; exact IH].
Qed.

Lemma adds_enqueueRootsToVerify F W :
  adds F W length_unknown (enqueueRootsToVerify F W).
Proof.
  unfold enqueueRootsToVerify.
  destruct (loadSourceManifests F W); [|apply adds_ret].
  apply adds_bind; [apply adds_enqueueManifests|]. intros _.
  apply adds_bind; [apply adds_enqueueDirObjectIDs|].
  intros [e|]; [apply adds_ret|apply adds_enqueueFileObjectIDs].
Qed.

(** ** The failure list only grows *)

Lemma perform_errors {X : Type} F W (a : action X) v :
  exists more, errors (perform F W a v).1 = errors v ++ more.
Proof.
  destruct a; simpl; try (exists []; by rewrite app_nil_r).
  - by exists [err].
  - unfold shouldEnqueue. destruct (default false (seen v !! oid));
      exists []; by rewrite app_nil_r.
  - by exists [err].
Qed.

Lemma step_errors F W i c :
  exists more, errors (shared (step F W i c)) = errors (shared c) ++ more.
Proof.
  unfold step. destruct (workers c !! i) as [[[]|X a k]|].
  - destruct (workQueue (shared c)); exists []; by rewrite app_nil_r.
  - destruct (perform_errors F W a (shared c)) as (more & E).
    destruct (perform F W a (shared c)) as [v' x]. by exists more.
  - exists []. by rewrite app_nil_r.
Qed.

Lemma steps_errors F W sched c :
  exists more,
    errors (shared (steps F W sched c)) = errors (shared c) ++ more.
Proof.
  revert c. induction sched as [|i sched IH]; intros c.
  - exists []. by rewrite app_nil_r.
  - simpl. destruct (IH (step F W i c)) as (m2 & E2).
    destruct (step_errors F W i c) as (m1 & E1).
    exists (m1 ++ m2). change (steps F W (i :: sched) c)
      with (steps F W sched (step F W i c)). by rewrite E2, E1, app_assoc.
Qed.

Lemma tooManyErrors_spec F v :
  tooManyErrors F v = true
  <-> ErrorThreshold F <> 0
      /\ ErrorThreshold F <= Z.of_nat (length (errors v)).
Proof.
  unfold tooManyErrors. destruct (Z.eqb_spec (ErrorThreshold F) 0) as [E|E].
  - split; [discriminate | tauto].
  - rewrite Z.geb_le. tauto.
Qed.

Lemma tooManyErrors_mono F v v' more :
  errors v' = errors v ++ more ->
  tooManyErrors F v = true -> tooManyErrors F v' = true.
Proof.
  intros E. rewrite !tooManyErrors_spec, E, length_app. lia.
Qed.

(** C3.  The budget is exhausted exactly when the threshold is not 0 and
    the count has reached it; once exhausted it stays so whatever the
    workers do; a worker that then tests it at the head of the loop over
    the entries ends its task at once, changing nothing; a directory task
    run from such a state changes nothing at all.  With the threshold 0
    the test always fails: the worker goes on to the entry at the head of
    the listing, and a task left alone passes every entry, in the order of
    the listing, to the enqueue operations. *)
Theorem threshold_stops_expansion :
  forall (F : flags) (W : world),
    (forall v, tooManyErrors F v = true
               <-> ErrorThreshold F <> 0
                   /\ ErrorThreshold F <= Z.of_nat (length (errors v)))
    /\ (forall c sched,
          tooManyErrors F (shared c) = true ->
          tooManyErrors F (shared (steps F W sched c)) = true)
    /\ (forall c i path e rest,
          workers c !! i = Some (forEntries path (e :: rest)) ->
          tooManyErrors F (shared c) = true ->
          step F W i c
          = {| shared := shared c; workers := <[i := Ret tt]> (workers c) |})
    /\ (forall v path entries,
          tooManyErrors F v = true ->
          run F W (forEntries path entries) v = (v, tt))
    /\ (forall v, tooManyErrors (with_threshold 0 F) v = false)
    /\ (forall c i path e rest,
          workers c !! i = Some (forEntries path (e :: rest)) ->
          step (with_threshold 0 F) W i c
          = {| shared := shared c;
               workers := <[i := enqueueEntry path e ;; forEntries path rest]>
                            (workers c) |})
    /\ (forall v path entries,
          run (with_threshold 0 F) W (forEntries path entries) v
          = (foldl (fun v e =>
                      (run (with_threshold 0 F) W (enqueueEntry path e) v).1)
               v entries, tt)).
Proof.
  intros F W.
  split; [|split; [|split; [|split; [|split; [|split]]]]].
  - apply tooManyErrors_spec.
  - intros c sched H0. destruct (steps_errors F W sched c) as (more & E).
    by eapply tooManyErrors_mono.
  - intros c i path e rest Hi Hs. unfold step. rewrite Hi. cbn.
    by rewrite Hs.
  - intros v path entries Hs. destruct entries as [|e rest]; [done|].
    cbn. by rewrite Hs.
  - reflexivity.
  - intros c i path e rest Hi. unfold step. rewrite Hi. reflexivity.
  - intros v path entries. revert v.
    induction entries as [|e rest IH]; intros v; [done|].
    cbn [forEntries foldl]. rewrite run_bind. cbn.
    rewrite run_bind.
    destruct (run (with_threshold 0 F) W (enqueueEntry path e) v) as [v1 []].
    apply IH.
Qed.

(** With the threshold 1 and one worker: the unreadable directory [X] is
    at the front of the queue and fails first; the task of the snapshot
    root, run next, lists its five entries and enqueues none of them. *)
Example threshold_example :
  exists v,
    runVerifyCommand
      {| ErrorThreshold := 1; DirObjectIDs := ["X"];
         FileObjectIDs := []; AllSources := true; Sources := [];
         Parallel := 1; FilesPercent := 0 |}
      five_world (replicate 8 0%nat)
    = Some (v, Some (ErrorString "encountered 1 errors"))
    /\ calls v = [CReaddir "X"; CReaddir "root"]
    /\ enqueued v = [VerifyDirectoryTask "root" "user@host:/home@2019-01-01";
                     VerifyDirectoryTask "X" "X"].
Proof. eexists. split; [vm_compute; reflexivity|]. by split. Qed.

(** ** Programs hand over each identifier after asking *)

Lemma pendE_bind {A B : Type} (m : M A) (f : A -> M B) :
  (forall a, pendE (f a) = []) -> pendE (bind m f) = pendE m.
Proof. intros Hf. destruct m as [a | X a k]; simpl; [apply Hf | done]. Qed.

Lemma pendV_bind {A B : Type} (m : M A) (f : A -> M B) :
  (forall a, pendV (f a) = []) -> pendV (bind m f) = pendV m.
Proof. intros Hf. destruct m as [a | X a k]; simpl; [apply Hf | done]. Qed.

Lemma plain_bind {A B : Type} (m : M A) (f : A -> M B) :
  plain m -> (forall a, plain (f a)) -> plain (bind m f).
Proof.
  intros [Hm1 Hm2] Hf. split.
  - rewrite pendE_bind; [done | intros a; apply Hf].
  - rewrite pendV_bind; [done | intros a; apply Hf].
Qed.

Lemma proper_bind {A B : Type} (m : M A) (f : A -> M B) :
  proper m -> (forall a, good (f a)) -> proper (bind m f).
Proof.
  intros Hm Hf. induction m as [a | X a k IH]; simpl.
  - apply Hf.
  - destruct Hm as [Hc Hk]. split; [|intros x; apply IH, Hk].
    assert (Hpl : forall a, plain (f a)) by (intros ?; apply Hf).
    destruct a; simpl in *;
      try (intros x; apply plain_bind; [apply Hc | exact Hpl]).
    destruct Hc as (H1 & H2 & H3). split; [|split].
    + apply plain_bind; [exact H1 | exact Hpl].
    + rewrite pendV_bind; [exact H2 | intros ?; apply Hpl].
    + rewrite pendE_bind; [exact H3 | intros ?; apply Hpl].
Qed.

Lemma good_bind {A B : Type} (m : M A) (f : A -> M B) :
  good m -> (forall a, good (f a)) -> good (bind m f).
Proof.
  intros [Hm1 Hm2] Hf. split.
  - by apply proper_bind.
  - apply plain_bind; [done | intros a; apply Hf].
Qed.

Lemma good_ret {A : Type} (a : A) : good (Ret a).
Proof. by repeat split. Qed.

(** One action that neither enqueues nor verifies. *)
Lemma good_call {X : Type} (a : action X) :
  pendE (call a) = [] -> pendV (call a) = [] -> good (call a).
Proof.
  intros HE HV. split; [|by split].
  split; [|done]. destruct a; simpl; try done. by repeat split; try left.
Qed.

Lemma good_enqueueVerifyDirectory oid path :
  good (enqueueVerifyDirectory oid path).
Proof.
  split; [|by split]. split.
  - simpl. repeat split. by right.
  - intros [|]; simpl; [|done]. by repeat split.
Qed.

Lemma good_enqueueVerifyObject oid path len :
  good (enqueueVerifyObject oid path len).
Proof.
  split; [|by split]. split.
  - simpl. repeat split. by right.
  - intros [|]; simpl; [|done]. by repeat split.
Qed.

Lemma good_forEntries path entries : good (forEntries path entries).
Proof.
  induction entries as [|e rest IH]; [apply good_ret|].
  cbn [forEntries]. apply good_bind; [by apply good_call|].
  intros [|]; [apply good_ret|].
  apply good_bind; [|intros _; exact IH].
  unfold enqueueEntry. destruct (IsDir e);
    [apply good_enqueueVerifyDirectory | apply good_enqueueVerifyObject].
Qed.

Lemma good_doVerifyDirectory oid path : good (doVerifyDirectory oid path).
Proof.
  unfold doVerifyDirectory. apply good_bind; [by apply good_call|].
  intros [entries | err]; [apply good_forEntries|].
  apply good_bind; [by apply good_call | intros _; apply good_ret].
Qed.

Lemma good_report {A : Type} path err (m : M A) :
  good m -> good (call (ReportError path err) ;; m).
Proof. intros Hm. apply good_bind; [by apply good_call | done]. Qed.

Lemma proper_doVerifyObject F oid path expectedLength :
  proper (doVerifyObject F oid path expectedLength)
  /\ pendE (doVerifyObject F oid path expectedLength) = []
  /\ pendV (doVerifyObject F oid path expectedLength) = [oid].
Proof.
  split; [|by split].
  assert (Hrest : forall p : Z * option error,
    good (let '(len, err) := p in
          match err with
          | Some e => call (ReportError path (ErrVerifying oid e)) ;; Ret tt
          | None => Ret tt
          end ;;
          (if (expectedLength >=? 0) && negb (len =? expectedLength)
           then call (ReportError path
                        (ErrInvalidLength oid len expectedLength)) ;; Ret tt
           else Ret tt) ;;
          r <- call (CallIntn 100) ;;
          if r <? FilesPercent F then
            err' <- readEntireObject oid path ;;
            match err' with
            | Some e =>
                call (ReportError path (ErrReadingObject oid e)) ;; Ret tt
            | None => Ret tt
            end
          else Ret tt)).
  { intros [len err]. apply good_bind.
    { destruct err; [apply good_report|]; apply good_ret. }
    intros _. apply good_bind.
    { destruct (_ && _); [apply good_report|]; apply good_ret. }
    intros _. apply good_bind; [by apply good_call|].
    intros r. destruct (r <? FilesPercent F); [|apply good_ret].
    apply good_bind.
    - unfold readEntireObject. apply good_bind; [by apply good_call|].
      intros [rd | e]; apply good_ret.
    - intros [e|]; [apply good_report|]; apply good_ret. }
  unfold doVerifyObject. simpl. split; intros p; apply Hrest.
Qed.

Lemma proper_run_task F t :
  proper (run_task F t) /\ pendE (run_task F t) = []
  /\ (pendV (run_task F t) = [] \/ pendV (run_task F t) = [task_oid t]).
Proof.
  destruct t as [oid path | oid path len]; cbn [run_task task_oid].
  - destruct (good_doVerifyDirectory oid path) as (H1 & H2 & H3).
    split; [exact H1 | split; [exact H2 | left; exact H3]].
  - destruct (proper_doVerifyObject F oid path len) as (H1 & H2 & H3).
    split; [exact H1 | split; [exact H2 | right; exact H3]].
Qed.

Lemma good_enqueueManifests manifests : good (enqueueManifests manifests).
Proof.
  induction manifests as [|man rest IH]; [apply good_ret|].
  cbn [enqueueManifests]. destruct (RootEntry man) as [re|]; [|exact IH].
  apply good_bind; [|intros _; exact IH].
  destruct (Type_ re);
    first [apply good_enqueueVerifyDirectory | apply good_enqueueVerifyObject].
Qed.

Lemma good_enqueueDirObjectIDs W ids : good (enqueueDirObjectIDs W ids).
Proof.
  induction ids as [|oidStr rest IH]; [apply good_ret|].
  cbn [enqueueDirObjectIDs].
  destruct (parseObjectID W oidStr); [|apply good_ret].
  apply good_bind; [apply good_enqueueVerifyDirectory | intros _; exact IH].
Qed.

Lemma good_enqueueFileObjectIDs W ids : good (enqueueFileObjectIDs W ids).
Proof.
  induction ids as [|oidStr rest IH]; [apply good_ret|].
  cbn [enqueueFileObjectIDs].
  destruct (parseObjectID W oidStr); [|apply good_ret].
  apply good_bind; [apply good_enqueueVerifyObject | intros _; exact IH].
Qed.

Lemma good_enqueueRootsToVerify F W : good (enqueueRootsToVerify F W).
Proof.
  unfold enqueueRootsToVerify.
  destruct (loadSourceManifests F W); [|apply good_ret].
  apply good_bind; [apply good_enqueueManifests|]. intros _.
  apply good_bind; [apply good_enqueueDirObjectIDs|].
  intros [e|]; [apply good_ret | apply good_enqueueFileObjectIDs].
Qed.

(** ** The invariant of a run *)

Lemma inv_perm v pe pe' pv pv' :
  pe ≡ₚ pe' -> pv ≡ₚ pv' -> inv v pe pv -> inv v pe' pv'.
Proof.
  intros Hpe Hpv (H1 & H2 & H3 & H4). unfold inv.
  setoid_rewrite <- Hpe. setoid_rewrite <- Hpv. done.
Qed.

(** An action that leaves the queue, its history, the visited set and the
    verified identifiers as they are. *)
Lemma inv_same v v' pe pv :
  enqueued v' = enqueued v -> seen v' = seen v ->
  verified (calls v') = verified (calls v) ->
  workQueue v' = workQueue v ->
  inv v pe pv -> inv v' pe pv.
Proof. unfold inv. by intros -> -> -> ->. Qed.

Lemma verified_snoc cs c :
  verified (cs ++ [c])
  = verified cs ++ match c with CVerifyObject oid => [oid] | _ => [] end.
Proof. unfold verified. rewrite omap_app. by destruct c. Qed.

Lemma inv_drop_pending v x pe pv :
  inv v (x :: pe) pv -> inv v pe pv.
Proof.
  intros (H1 & H2 & H3 & H4). split; [|split; [|done]].
  - rewrite <- Permutation_middle in H1. by apply NoDup_cons in H1 as [_ ?].
  - intros y Hy. apply H2. rewrite elem_of_app in Hy |- *.
    destruct Hy as [Hy | Hy]; [by left | right; by right].
Qed.

Lemma perform_inv {A X : Type} F W (a : action X) (k : X -> M A) v pe pv :
  cont_ok a k ->
  inv v (pendE (Act a k) ++ pe) (pendV (Act a k) ++ pv) ->
  inv (perform F W a v).1
    (pendE (k (perform F W a v).2) ++ pe)
    (pendV (k (perform F W a v).2) ++ pv).
Proof.
  intros Hk Hinv.
  destruct a; cbn [perform pendE pendV cont_ok app fst snd] in *;
    try (destruct (Hk (Readdir W oid)) as [-> ->]);
    try (destruct (Hk (Open W oid)) as [-> ->]);
    try (destruct (Hk (Intn W (draws v))) as [-> ->]);
    try (destruct (Hk (tooManyErrors F v)) as [-> ->]);
    try (destruct (Hk (reportError F path err v).2) as [-> ->]);
    try (destruct (Hk tt) as [-> ->]);
    try (destruct (Hk (VerifyObject W oid)) as [-> ->]);
    cbn [app].
  - (* tooManyErrors *) done.
  - (* reportError *) by eapply inv_same; [..|exact Hinv].
  - (* shouldEnqueue *)
    destruct Hk as ([HE0 HV0] & HV1 & HE1).
    unfold shouldEnqueue.
    destruct (default false (seen v !! oid)) eqn:Hs; cbn [fst snd].
    { by rewrite HE0, HV0. }
    rewrite HV1. cbn [app].
    assert (Hfresh : oid ∉ map task_oid (enqueued v) ++ pe).
    { intros Hin. destruct Hinv as (_ & H2 & _).
      rewrite (H2 _ Hin) in Hs. discriminate. }
    assert (Hgrow : inv (set_seen (<[oid:=true]> (seen v)) v) (oid :: pe) pv).
    { destruct Hinv as (H1 & H2 & H3 & H4).
      split; [|split; [|split]]; cbn [set_seen enqueued seen calls workQueue].
      - rewrite <- Permutation_middle. by apply NoDup_cons.
      - intros x Hx. rewrite <- Permutation_middle in Hx.
        apply elem_of_cons in Hx as [-> | Hx].
        + by rewrite lookup_insert_eq.
        + destruct (decide (oid = x)) as [-> | Hne];
            [by rewrite lookup_insert_eq|].
          rewrite lookup_insert_ne by done. by apply H2.
      - done.
      - done. }
    destruct HE1 as [-> | ->]; cbn [app]; [|done].
    by eapply inv_drop_pending.
  - (* EnqueueFront *)
    destruct Hinv as (H1 & H2 & H3 & H4).
    assert (Hfresh : task_oid t ∉ verified (calls v) ++ pv
                                   ++ map task_oid (workQueue v)).
    { intros Hin. apply H4 in Hin.
      apply NoDup_app in H1 as (_ & H1 & _). apply (H1 _ Hin). by left. }
    split; [|split; [|split]];
      cbn [push_front enqueued seen calls workQueue map].
    + by rewrite map_app, <- app_assoc.
    + intros x Hx. apply H2. by rewrite map_app, <- app_assoc in Hx.
    + rewrite app_assoc, <- Permutation_middle, <- app_assoc.
      by apply NoDup_cons.
    + intros x Hx. rewrite app_assoc, <- Permutation_middle, <- app_assoc in Hx.
      rewrite map_app. cbn. apply elem_of_app.
      apply elem_of_cons in Hx as [-> | Hx]; [right; by left | left; auto].
  - (* EnqueueBack *)
    destruct Hinv as (H1 & H2 & H3 & H4).
    assert (Hfresh : task_oid t ∉ verified (calls v) ++ pv
                                   ++ map task_oid (workQueue v)).
    { intros Hin. apply H4 in Hin.
      apply NoDup_app in H1 as (_ & H1 & _). apply (H1 _ Hin). by left. }
    split; [|split; [|split]];
      cbn [push_back enqueued seen calls workQueue].
    + by rewrite map_app, <- app_assoc.
    + intros x Hx. apply H2. by rewrite map_app, <- app_assoc in Hx.
    + rewrite map_app, !app_assoc. cbn.
      rewrite <- Permutation_cons_append, <- !app_assoc.
      by apply NoDup_cons.
    + intros x Hx. rewrite map_app, !app_assoc in Hx. cbn in Hx.
      rewrite <- Permutation_cons_append, <- !app_assoc in Hx.
      rewrite map_app. cbn. apply elem_of_app.
      apply elem_of_cons in Hx as [-> | Hx]; [right; by left | left; auto].
  - (* Readdir *)
    eapply inv_same; [..|exact Hinv]; try done.
    cbn [add_call calls]. by rewrite verified_snoc, app_nil_r.
  - (* VerifyObject *)
    destruct Hinv as (H1 & H2 & H3 & H4).
    split; [|split; [|split]];
      cbn [add_call enqueued seen calls workQueue]; try done.
    + by rewrite verified_snoc, <- app_assoc.
    + intros x Hx. apply H4. by rewrite verified_snoc, <- app_assoc in Hx.
  - (* Open *)
    eapply inv_same; [..|exact Hinv]; try done.
    cbn [add_call calls]. by rewrite verified_snoc, app_nil_r.
  - (* Intn *) by eapply inv_same; [..|exact Hinv].
  - (* the variant of reportError *) by eapply inv_same; [..|exact Hinv].
Qed.

Lemma run_inv {A : Type} F W (m : M A) v pe pv :
  proper m ->
  inv v (pendE m ++ pe) (pendV m ++ pv) ->
  inv (run F W m v).1 pe pv.
Proof.
  revert v. induction m as [a | X a k IH]; intros v Hm Hinv; [done|].
  destruct Hm as [Hc Hk]. cbn [run].
  pose proof (perform_inv F W a k v pe pv Hc Hinv) as Hnext.
  destruct (perform F W a v) as [v' x]. by apply IH.
Qed.

Lemma insert_bind_Permutation {B : Type} (f : M unit -> list B)
    (ws : list (M unit)) i w w' :
  ws !! i = Some w ->
  ws ≫= f ≡ₚ f w ++ (delete i ws ≫= f)
  /\ <[i:=w']> ws ≫= f ≡ₚ f w' ++ (delete i ws ≫= f).
Proof.
  intros Hi. split.
  - rewrite (delete_Permutation ws i w Hi) at 1. by rewrite bind_cons.
  - assert (Hi' : <[i:=w']> ws !! i = Some w').
    { apply list_lookup_insert_eq. apply lookup_lt_is_Some. eauto. }
    rewrite (delete_Permutation _ i w' Hi') at 1. rewrite bind_cons.
    rewrite !delete_take_drop, take_insert_ge, drop_insert_lt by lia.
    done.
Qed.

Lemma step_inv F W i c : pool_inv c -> pool_inv (step F W i c).
Proof.
  intros [Hinv Hws]. unfold step.
  destruct (workers c !! i) as [w|] eqn:Hi; [|done].
  assert (Hw : proper w) by (rewrite Forall_forall in Hws; apply Hws;
                             eapply list_elem_of_lookup_2; eauto).
  destruct w as [[] | X a k].
  - destruct (workQueue (shared c)) as [|t q] eqn:Hq; [done|].
    destruct (proper_run_task F t) as (Hp & HE & HV).
    split; [|by apply Forall_insert]. cbn [shared workers].
    destruct (insert_bind_Permutation pendE _ i _ (run_task F t) Hi)
      as [PE1 PE2].
    destruct (insert_bind_Permutation pendV _ i _ (run_task F t) Hi)
      as [PV1 PV2].
    eapply inv_perm; [symmetry; exact PE2 | symmetry; exact PV2 |].
    eapply inv_perm in Hinv; [|exact PE1 | exact PV1].
    cbn [pendE pendV app] in Hinv. rewrite HE. cbn [app].
    destruct Hinv as (H1 & H2 & H3 & H4). rewrite Hq in H3, H4.
    cbn [map] in H3, H4.
    split; [|split; [|split]];
      cbn [set_workQueue enqueued seen calls workQueue]; try done.
    + destruct HV as [-> | ->]; cbn [app].
      * rewrite app_assoc, <- Permutation_middle, <- app_assoc in H3.
        by apply NoDup_cons in H3 as [_ ?].
      * by rewrite (app_assoc _ _ (_ :: _)), <- Permutation_middle,
          <- app_assoc, Permutation_middle in H3.
    + intros x Hx. apply H4.
      rewrite (app_assoc _ _ (_ :: _)), <- Permutation_middle, <- app_assoc.
      destruct HV as [HV | HV]; rewrite HV in Hx; cbn [app] in Hx.
      * by right.
      * by rewrite <- Permutation_middle in Hx.
  - destruct Hw as [Hc Hk].
    destruct (insert_bind_Permutation pendE _ i _
                (k (perform F W a (shared c)).2) Hi) as [PE1 PE2].
    destruct (insert_bind_Permutation pendV _ i _
                (k (perform F W a (shared c)).2) Hi) as [PV1 PV2].
    eapply inv_perm in Hinv; [|exact PE1 | exact PV1].
    pose proof (perform_inv F W a k _ _ _ Hc Hinv) as Hnext.
    destruct (perform F W a (shared c)) as [v' x]. cbn [fst snd] in *.
    split; [|by apply Forall_insert]. cbn [shared workers].
    eapply inv_perm; [symmetry; exact PE2 | symmetry; exact PV2 | done].
Qed.

Lemma steps_inv F W sched c : pool_inv c -> pool_inv (steps F W sched c).
Proof.
  revert c. induction sched as [|i sched IH]; intros c Hc; [done|].
  apply (IH (step F W i c)). by apply step_inv.
Qed.

Lemma inv_new_verifier : inv new_verifier [] [].
Proof.
  split; [|split; [|split]]; cbn; try apply NoDup_nil_2;
    intros x Hx; by apply elem_of_nil in Hx.
Qed.

Lemma start_pool_inv n v : inv v [] [] -> pool_inv (start_pool n v).
Proof.
  intros Hinv. unfold start_pool. split; cbn [shared workers].
  - assert (HE : replicate (Z.to_nat n) (Ret tt) ≫= pendE (A:=unit) = []).
    { induction (Z.to_nat n) as [|k IH]; [done|].
      by rewrite replicate_S, bind_cons, IH. }
    assert (HV : replicate (Z.to_nat n) (Ret tt) ≫= pendV (A:=unit) = []).
    { induction (Z.to_nat n) as [|k IH]; [done|].
      by rewrite replicate_S, bind_cons, IH. }
    by rewrite HE, HV.
  - apply Forall_forall. intros w Hw.
    apply elem_of_replicate in Hw as [-> _]. done.
Qed.

Lemma seeding_inv F W :
  inv (run F W (enqueueRootsToVerify F W) new_verifier).1 [] [].
Proof.
  destruct (good_enqueueRootsToVerify F W) as (Hp & HE & HV).
  apply run_inv; [done|]. rewrite HE, HV. apply inv_new_verifier.
Qed.

(** ** The visited set only grows *)

Lemma perform_seen {X : Type} F W (a : action X) v oid :
  seen v !! oid = Some true -> seen (perform F W a v).1 !! oid = Some true.
Proof.
  intros Hs. destruct a; cbn; try done.
  unfold shouldEnqueue. destruct (default false (seen v !! oid0)); [done|].
  cbn. destruct (decide (oid0 = oid)) as [-> | Hne].
  - by rewrite lookup_insert_eq.
  - by rewrite lookup_insert_ne.
Qed.

Lemma run_seen {A : Type} F W (m : M A) v oid :
  seen v !! oid = Some true -> seen (run F W m v).1 !! oid = Some true.
Proof.
  revert v. induction m as [a | X a k IH]; intros v Hs; [done|].
  cbn [run]. pose proof (perform_seen F W a v oid Hs) as Hn.
  destruct (perform F W a v) as [v' x]. by apply IH.
Qed.

Lemma step_seen F W i c oid :
  seen (shared c) !! oid = Some true ->
  seen (shared (step F W i c)) !! oid = Some true.
Proof.
  intros Hs. unfold step. destruct (workers c !! i) as [[[] | X a k]|];
    [| |done].
  - by destruct (workQueue (shared c)).
  - pose proof (perform_seen F W a (shared c) oid Hs) as Hn.
    by destruct (perform F W a (shared c)).
Qed.

Lemma steps_seen F W sched c oid :
  seen (shared c) !! oid = Some true ->
  seen (shared (steps F W sched c)) !! oid = Some true.
Proof.
  revert c. induction sched as [|i sched IH]; intros c Hs; [done|].
  apply (IH (step F W i c)). by apply step_seen.
Qed.

(** ** At most once *)

(** C1.  The first call of [shouldEnqueue] with an identifier puts it in
    the visited set and returns [true]; once an identifier is in the set it
    stays there whatever the seeding and the workers do, and every later
    call returns [false] and changes nothing.  So, in every state a run
    reaches, under every schedule, no identifier was handed to the queue
    twice and none was passed to [VerifyObject] twice. *)
Theorem each_identifier_enqueued_once :
  forall (F : flags) (W : world),
    (forall oid v,
       seen v !! oid <> Some true ->
       shouldEnqueue oid v = (set_seen (<[oid:=true]> (seen v)) v, true))
    /\ (forall oid v, seen (shouldEnqueue oid v).1 !! oid = Some true)
    /\ (forall oid v,
          seen v !! oid = Some true -> shouldEnqueue oid v = (v, false))
    /\ (forall (A : Type) (m : M A) oid v,
          seen v !! oid = Some true ->
          seen (run F W m v).1 !! oid = Some true)
    /\ (forall oid c sched,
          seen (shared c) !! oid = Some true ->
          shouldEnqueue oid (shared (steps F W sched c))
          = (shared (steps F W sched c), false))
    /\ (forall sched,
          let v0 := (run F W (enqueueRootsToVerify F W) new_verifier).1 in
          let c := steps F W sched (start_pool (Parallel F) v0) in
          NoDup (map task_oid (enqueued (shared c)))
          /\ NoDup (verified (calls (shared c)))).
Proof.
  intros F W. split; [|split; [|split; [|split; [|split]]]].
  - intros oid v Hs. unfold shouldEnqueue.
    destruct (seen v !! oid) as [[|]|]; done.
  - intros oid v. unfold shouldEnqueue.
    destruct (seen v !! oid) as [[|]|] eqn:Hs; cbn;
      by rewrite ?Hs, ?lookup_insert_eq.
  - intros oid v Hs. unfold shouldEnqueue. by rewrite Hs.
  - intros A m oid v. apply run_seen.
  - intros oid c sched Hs. unfold shouldEnqueue.
    by rewrite (steps_seen F W sched c oid Hs).
  - intros sched v0 c.
    assert (Hc : pool_inv c)
      by apply steps_inv, start_pool_inv, seeding_inv.
    destruct Hc as [(H1 & _ & H3 & _) _].
    split.
    + by apply NoDup_app in H1 as (? & _).
    + by apply NoDup_app in H3 as (? & _).
Qed.

(** ** The result of the run *)

Lemma steps_app F W s1 s2 c :
  steps F W (s1 ++ s2) c = steps F W s2 (steps F W s1 c).
Proof. apply foldl_app. Qed.

Lemma drained_step F W i c : drained c = true -> step F W i c = c.
Proof.
  unfold drained, step. destruct (workQueue (shared c)); [|done].
  intros Hall. destruct (workers c !! i) as [[[] | X a k]|] eqn:Hi; try done.
  rewrite forallb_forall in Hall.
  apply list_elem_of_lookup_2, list_elem_of_In, Hall in Hi. done.
Qed.

Lemma drained_steps F W sched c :
  drained c = true -> steps F W sched c = c.
Proof.
  intros Hd. induction sched as [|i sched IH]; [done|].
  cbn. rewrite drained_step by done. exact IH.
Qed.

(** With at least one worker, [Process] returns the state in which the
    queue is drained; with none it returns the state it was given. *)
Lemma Process_workers F W n sched v :
  0 < n ->
  Process F W n sched v
  = (if drained (steps F W sched (start_pool n v))
     then Some (shared (steps F W sched (start_pool n v))) else None).
Proof.
  intros Hn. unfold Process.
  by destruct (Z.leb_spec n 0) as [Hle|_]; [lia|].
Qed.

Lemma Process_no_worker F W n sched v :
  n <= 0 -> Process F W n sched v = Some v.
Proof.
  intros Hn. unfold Process.
  by destruct (Z.leb_spec n 0) as [_|Hlt]; [|lia].
Qed.

Lemma Process_extend F W n sched more v v' :
  Process F W n sched v = Some v' ->
  Process F W n (sched ++ more) v = Some v'.
Proof.
  unfold Process. destruct (n <=? 0); [done|]. rewrite steps_app.
  destruct (drained (steps F W sched (start_pool n v))) eqn:Hd; [|done].
  rewrite (drained_steps F W more _ Hd). by rewrite Hd.
Qed.

Lemma Process_drained F W n sched v v' :
  0 < n -> Process F W n sched v = Some v' -> workQueue v' = [].
Proof.
  intros Hn. rewrite Process_workers by done.
  destruct (drained _) eqn:Hd; [|done].
  intros [= <-]. unfold drained in Hd.
  by destruct (workQueue (shared (steps F W sched (start_pool n v)))).
Qed.


(** ** Seeding reports nothing and calls nothing *)

Lemma keeps_ret {A : Type} F W (a : A) : keeps F W (Ret a).
Proof. by intros v. Qed.

Lemma keeps_bind {A B : Type} F W (m : M A) (f : A -> M B) :
  keeps F W m -> (forall a, keeps F W (f a)) -> keeps F W (bind m f).
Proof.
  intros Hm Hf v. rewrite run_bind.
  destruct (Hm v) as (E1 & E2 & E3 & E4).
  destruct (run F W m v) as [v1 a]. cbn in E1, E2, E3, E4.
  destruct (Hf a v1) as (G1 & G2 & G3 & G4).
  by rewrite G1, G2, G3, G4.
Qed.

Lemma keeps_enqueueVerifyDirectory F W oid path :
  keeps F W (enqueueVerifyDirectory oid path).
Proof.
  intros v. unfold enqueueVerifyDirectory. cbn. unfold shouldEnqueue.
  by destruct (default false (seen v !! oid)).
Qed.

Lemma keeps_enqueueVerifyObject F W oid path len :
  keeps F W (enqueueVerifyObject oid path len).
Proof.
  intros v. unfold enqueueVerifyObject. cbn. unfold shouldEnqueue.
  by destruct (default false (seen v !! oid)).
Qed.

Lemma keeps_enqueueManifests F W manifests :
  keeps F W (enqueueManifests manifests).
Proof.
  induction manifests as [|man rest IH]; [apply keeps_ret|].
  cbn [enqueueManifests]. destruct (RootEntry man) as [re|]; [|exact IH].
  apply keeps_bind; [|intros _; exact IH].
  destruct (Type_ re);
    first [apply keeps_enqueueVerifyDirectory
          | apply keeps_enqueueVerifyObject].
Qed.

Lemma keeps_enqueueDirObjectIDs F W ids :
  keeps F W (enqueueDirObjectIDs W ids).
Proof.
  induction ids as [|oidStr rest IH]; [apply keeps_ret|].
  cbn [enqueueDirObjectIDs]. destruct (parseObjectID W oidStr);
    [|apply keeps_ret].
  apply keeps_bind; [apply keeps_enqueueVerifyDirectory | intros _; exact IH].
Qed.

Lemma keeps_enqueueFileObjectIDs F W ids :
  keeps F W (enqueueFileObjectIDs W ids).
Proof.
  induction ids as [|oidStr rest IH]; [apply keeps_ret|].
  cbn [enqueueFileObjectIDs]. destruct (parseObjectID W oidStr);
    [|apply keeps_ret].
  apply keeps_bind; [apply keeps_enqueueVerifyObject | intros _; exact IH].
Qed.

Lemma keeps_enqueueRootsToVerify F W : keeps F W (enqueueRootsToVerify F W).
Proof.
  unfold enqueueRootsToVerify.
  destruct (loadSourceManifests F W); [|apply keeps_ret].
  apply keeps_bind; [apply keeps_enqueueManifests|]. intros _.
  apply keeps_bind; [apply keeps_enqueueDirObjectIDs|].
  intros [e|]; [apply keeps_ret | apply keeps_enqueueFileObjectIDs].
Qed.

(** ** What seeding returns *)

Lemma run_bind_snd {A B : Type} F W (m : M A) (f : A -> M B) v :
  (run F W (bind m f) v).2
  = (run F W (f (run F W m v).2) (run F W m v).1).2.
Proof. rewrite run_bind. by destruct (run F W m v). Qed.

Lemma enqueueDirObjectIDs_result F W ids v :
  (run F W (enqueueDirObjectIDs W ids) v).2 = first_parse_error W ids.
Proof.
  revert v. induction ids as [|oidStr rest IH]; intros v; [done|].
  cbn [enqueueDirObjectIDs first_parse_error].
  destruct (parseObjectID W oidStr); [|done].
  rewrite run_bind_snd. apply IH.
Qed.

Lemma enqueueFileObjectIDs_result F W ids v :
  (run F W (enqueueFileObjectIDs W ids) v).2 = first_parse_error W ids.
Proof.
  revert v. induction ids as [|oidStr rest IH]; intros v; [done|].
  cbn [enqueueFileObjectIDs first_parse_error].
  destruct (parseObjectID W oidStr); [|done].
  rewrite run_bind_snd. apply IH.
Qed.

Lemma first_parse_error_Some W ids oidStr e :
  oidStr ∈ ids -> parseObjectID W oidStr = Err e ->
  exists s' e', s' ∈ ids /\ parseObjectID W s' = Err e'
                /\ first_parse_error W ids = Some e'.
Proof.
  intros Hin He. induction ids as [|s rest IH];
    [by apply elem_of_nil in Hin|].
  cbn [first_parse_error].
  destruct (parseObjectID W s) as [oid | e0] eqn:Hs.
  - apply elem_of_cons in Hin as [-> | Hin]; [congruence|].
    destruct (IH Hin) as (s' & e' & H1 & H2 & H3).
    exists s', e'. split; [by right | done].
  - exists s, e0. split; [by left | done].
Qed.

Lemma first_parse_error_None W ids :
  (forall s, s ∈ ids -> exists oid, parseObjectID W s = Ok oid) ->
  first_parse_error W ids = None.
Proof.
  intros Hall. induction ids as [|s rest IH]; [done|].
  cbn [first_parse_error].
  destruct (Hall s) as [oid ->]; [by left|].
  apply IH. intros s' Hs'. apply Hall. by right.
Qed.

Lemma sourceManifestIDs_Err W acc sources srcStr e :
  srcStr ∈ sources -> ParseSourceInfo W srcStr = Err e ->
  exists s' e', s' ∈ sources /\ ParseSourceInfo W s' = Err e'
                /\ sourceManifestIDs W acc sources = Err (ErrParsing s' e').
Proof.
  intros Hin He. revert acc. induction sources as [|s rest IH]; intros acc;
    [by apply elem_of_nil in Hin|].
  cbn [sourceManifestIDs].
  destruct (ParseSourceInfo W s) as [src | e0] eqn:Hs.
  - apply elem_of_cons in Hin as [-> | Hin]; [congruence|].
    destruct (IH Hin (acc ++ ListSnapshotManifests W (Some src)))
      as (s' & e' & H1 & H2 & H3).
    exists s', e'. split; [by right | done].
  - exists s, e0. split; [by left | done].
Qed.

(** C8.  When resolving the roots fails, the run returns that error under
    every schedule: no worker is started, nothing is listed, verified or
    read, and the failure list and the log of failures stay empty.  This
    is what happens when all-sources is off and a source does not parse
    (the error names the first such source), when a directory identifier
    does not parse, and when a file identifier does not parse (the error is
    that of the first such identifier). *)
Theorem root_resolution_failure_is_fatal :
  forall (F : flags) (W : world),
    let seeded := run F W (enqueueRootsToVerify F W) new_verifier in
    (forall err sched,
       seeded.2 = Some err ->
       runVerifyCommand F W sched = Some (seeded.1, Some err)
       /\ errors seeded.1 = [] /\ warnings seeded.1 = []
       /\ calls seeded.1 = [] /\ draws seeded.1 = 0%nat)
    /\ (forall srcStr e,
          AllSources F = false ->
          srcStr ∈ Sources F -> ParseSourceInfo W srcStr = Err e ->
          exists s' e', s' ∈ Sources F /\ ParseSourceInfo W s' = Err e'
                        /\ seeded = (new_verifier, Some (ErrParsing s' e')))
    /\ (forall manifests oidStr e,
          loadSourceManifests F W = Ok manifests ->
          oidStr ∈ DirObjectIDs F -> parseObjectID W oidStr = Err e ->
          exists s' e', s' ∈ DirObjectIDs F /\ parseObjectID W s' = Err e'
                        /\ seeded.2 = Some e')
    /\ (forall manifests oidStr e,
          loadSourceManifests F W = Ok manifests ->
          (forall s, s ∈ DirObjectIDs F -> exists oid, parseObjectID W s = Ok oid) ->
          oidStr ∈ FileObjectIDs F -> parseObjectID W oidStr = Err e ->
          exists s' e', s' ∈ FileObjectIDs F /\ parseObjectID W s' = Err e'
                        /\ seeded.2 = Some e').
Proof.
  intros F W seeded. split; [|split; [|split]].
  - intros err sched Hs.
    destruct (keeps_enqueueRootsToVerify F W new_verifier)
      as (E1 & E2 & E3 & E4).
    fold seeded in E1, E2, E3, E4.
    split; [|done].
    unfold runVerifyCommand. fold seeded.
    destruct seeded as [v0 r0]. cbn in Hs. by subst r0.
  - intros srcStr e Hall Hin He.
    destruct (sourceManifestIDs_Err W [] _ _ _ Hin He)
      as (s' & e' & H1 & H2 & H3).
    exists s', e'. split; [done | split; [done|]].
    unfold seeded, enqueueRootsToVerify, loadSourceManifests.
    by rewrite Hall, H3.
  - intros manifests oidStr e Hm Hin He.
    destruct (first_parse_error_Some W _ _ _ Hin He)
      as (s' & e' & H1 & H2 & H3).
    exists s', e'. split; [done | split; [done|]].
    unfold seeded, enqueueRootsToVerify. rewrite Hm.
    rewrite !run_bind_snd, enqueueDirObjectIDs_result, H3. done.
  - intros manifests oidStr e Hm Hdirs Hin He.
    destruct (first_parse_error_Some W _ _ _ Hin He)
      as (s' & e' & H1 & H2 & H3).
    exists s', e'. split; [done | split; [done|]].
    unfold seeded, enqueueRootsToVerify. rewrite Hm.
    rewrite !run_bind_snd, enqueueDirObjectIDs_result,
      (first_parse_error_None W _ Hdirs), enqueueFileObjectIDs_result, H3.
    done.
Qed.

Example root_failure_example :
  runVerifyCommand
    {| ErrorThreshold := 0; DirObjectIDs := ["root"; "?"];
       FileObjectIDs := ["fa"]; AllSources := true; Sources := [];
       Parallel := 2; FilesPercent := 0 |}
    five_world (turns 45)
  = Some ({| workQueue := [VerifyDirectoryTask "root" "user@host:/home@2019-01-01"];
             seen := {["root" := true]}; errors := [];
             enqueued := [VerifyDirectoryTask "root" "user@host:/home@2019-01-01"];
             warnings := []; calls := []; draws := 0 |},
          Some (ErrorString "malformed object id")).
Proof. vm_compute. reflexivity. Qed.

(** ** The value returned by [reportError] is not used *)

Lemma sim_refl {A : Type} (p : M A) : sim p p.
Proof.
  induction p as [a | X a k IH]; [apply sim_ret | by apply sim_act].
Qed.

Lemma sim_bind {A B : Type} (m m' : M A) (f f' : A -> M B) :
  sim m m' -> (forall a, sim (f a) (f' a)) -> sim (bind m f) (bind m' f').
Proof.
  intros Hm Hf. induction Hm as [a | path err k k' _ IH | X a k k' _ IH];
    cbn [bind].
  - apply Hf.
  - apply sim_report. intros b. apply IH.
  - apply sim_act. intros x. apply IH.
Qed.

Lemma sim_report_void {A : Type} path err (m : M A) :
  sim (call (ReportError path err) ;; m) (call (ReportErrorVoid path err) ;; m).
Proof. apply sim_report. intros b. apply sim_refl. Qed.

Lemma sim_report_last path err :
  sim (call (ReportError path err) ;; Ret tt) (call (ReportErrorVoid path err)).
Proof. apply sim_report. intros b. apply sim_ret. Qed.

Lemma sim_doVerifyDirectory oid path :
  sim (doVerifyDirectory oid path) (doVerifyDirectory_void oid path).
Proof.
  unfold doVerifyDirectory, doVerifyDirectory_void.
  apply sim_bind; [apply sim_refl|].
  intros [entries | err]; [apply sim_refl | apply sim_report_last].
Qed.

Lemma sim_doVerifyObject F oid path expectedLength :
  sim (doVerifyObject F oid path expectedLength)
      (doVerifyObject_void F oid path expectedLength).
Proof.
  unfold doVerifyObject, doVerifyObject_void.
  apply sim_bind; [apply sim_refl|]. intros [len err].
  apply sim_bind.
  { destruct err; [apply sim_report_last | apply sim_refl]. }
  intros _. apply sim_bind.
  { destruct (_ && _); [apply sim_report_last | apply sim_refl]. }
  intros _. apply sim_bind; [apply sim_refl|]. intros r.
  destruct (r <? FilesPercent F); [|apply sim_refl].
  apply sim_bind; [apply sim_refl|].
  intros [e|]; [apply sim_report_last | apply sim_refl].
Qed.

Lemma sim_run_task F t : sim (run_task F t) (run_task_void F t).
Proof.
  destruct t; [apply sim_doVerifyDirectory | apply sim_doVerifyObject].
Qed.

Lemma sim_run {A : Type} F W (p q : M A) v :
  sim p q -> run F W p v = run F W q v.
Proof.
  intros Hs. revert v.
  induction Hs as [a | path err k k' _ IH | X a k k' _ IH]; intros v;
    cbn [run perform]; [done | apply IH |].
  destruct (perform F W a v) as [v' x]. apply IH.
Qed.

Lemma sim_idle (p q : M unit) : sim p q -> idle p = idle q.
Proof. by intros []. Qed.

Lemma step_sim F W i c c' :
  pool_sim c c' -> pool_sim (step F W i c) (step_void F W i c').
Proof.
  intros [Hsh Hws]. unfold step, step_void. rewrite <- Hsh.
  destruct (workers c !! i) as [p|] eqn:Hp.
  - destruct (Forall2_lookup_l _ _ _ _ _ Hws Hp) as (q & Hq & Hpq).
    rewrite Hq. destruct Hpq as [[] | path err k k' Hk | X a k k' Hk].
    + destruct (workQueue (shared c)) as [|t rest]; [by split|].
      split; [done|]. cbn [workers].
      apply Forall2_insert; [done | apply sim_run_task].
    + cbn [perform reportError reportError_void fst snd].
      split; [done|]. cbn [workers]. by apply Forall2_insert.
    + destruct (perform F W a (shared c)) as [v' x].
      split; [done|]. cbn [workers]. by apply Forall2_insert.
  - assert (Hq : workers c' !! i = None).
    { apply lookup_ge_None. rewrite <- (Forall2_length _ _ _ Hws).
      by apply lookup_ge_None. }
    rewrite Hq. by split.
Qed.

Lemma steps_sim F W sched c c' :
  pool_sim c c' -> pool_sim (steps F W sched c) (steps_void F W sched c').
Proof.
  revert c c'. induction sched as [|i sched IH]; intros c c' Hc; [done|].
  apply (IH (step F W i c) (step_void F W i c')). by apply step_sim.
Qed.

Lemma drained_sim c c' : pool_sim c c' -> drained c = drained c'.
Proof.
  intros [Hsh Hws]. unfold drained. rewrite <- Hsh.
  destruct (workQueue (shared c)); [|done].
  induction Hws as [|p q ps qs Hpq _ IH]; [done|].
  cbn [forallb]. by rewrite (sim_idle _ _ Hpq), IH.
Qed.

Lemma Process_void_eq F W n sched v :
  Process_void F W n sched v = Process F W n sched v.
Proof.
  unfold Process, Process_void.
  assert (Hs : pool_sim (steps F W sched (start_pool n v))
                        (steps_void F W sched (start_pool n v))).
  { apply steps_sim. split; [done|].
    apply Forall_Forall2_diag, Forall_forall. intros p _. apply sim_refl. }
  rewrite <- (drained_sim _ _ Hs). destruct Hs as [-> _]. done.
Qed.

(** C10.  At each of the four call sites what follows [reportError] is the
    same for both values it can return; a task run alone, and the whole
    run under any schedule, end in the same state with the same result as
    in the variant where [reportError] returns nothing. *)
Theorem reportError_result_is_unused :
  forall (F : flags) (W : world),
    (forall t, sim (run_task F t) (run_task_void F t))
    /\ (forall t v, run F W (run_task_void F t) v = run F W (run_task F t) v)
    /\ (forall i c, shared (step_void F W i c) = shared (step F W i c))
    /\ (forall sched,
          runVerifyCommand_void F W sched = runVerifyCommand F W sched).
Proof.
  intros F W. split; [|split; [|split]].
  - apply sim_run_task.
  - intros t v. symmetry. apply sim_run, sim_run_task.
  - intros i c.
    assert (Hc : pool_sim c c).
    { split; [done|].
      apply Forall_Forall2_diag, Forall_forall. intros p _. apply sim_refl. }
    by destruct (step_sim F W i c c Hc) as [<- _].
  - intros sched. unfold runVerifyCommand, runVerifyCommand_void.
    destruct (run F W (enqueueRootsToVerify F W) new_verifier) as [v [e|]];
      [done|].
    by rewrite Process_void_eq.
Qed.

(** ** The progress line *)



(** ** The run ends

    In a repository whose directories list finitely many identifiers, one
    worker alone empties the queue: a task puts an entry in the queue only
    when its identifier is new, so the work left never grows while a task
    runs, and taking a task from the queue makes it smaller. *)

Lemma unseen_insert_le U v oid :
  (unseen U (set_seen (<[oid:=true]> (seen v)) v) <= unseen U v)%nat.
Proof.
  unfold unseen. cbn [set_seen seen].
  induction U as [|x U IH]; [done|].
  rewrite !filter_cons.
  destruct (decide (x = oid)) as [-> | Hne].
  - rewrite lookup_insert_eq.
    destruct (decide (Some true <> Some true)) as [Hc|_]; [done|].
    destruct (decide (seen v !! oid <> Some true)); cbn [length]; lia.
  - rewrite lookup_insert_ne by done.
    destruct (decide (seen v !! x <> Some true)); cbn [length]; lia.
Qed.

Lemma unseen_insert_lt U v oid :
  oid ∈ U -> seen v !! oid <> Some true ->
  (unseen U (set_seen (<[oid:=true]> (seen v)) v) < unseen U v)%nat.
Proof.
  intros Hin Hs. induction U as [|x U IH]; [by apply elem_of_nil in Hin|].
  pose proof (unseen_insert_le U v oid) as Hle.
  unfold unseen in *. cbn [set_seen seen] in *.
  rewrite !filter_cons.
  destruct (decide (x = oid)) as [-> | Hne].
  - rewrite lookup_insert_eq.
    destruct (decide (Some true <> Some true)) as [Hc|_]; [done|].
    destruct (decide (seen v !! oid <> Some true)); [|done].
    cbn [length]. lia.
  - apply elem_of_cons in Hin as [-> | Hin]; [done|].
    rewrite lookup_insert_ne by done.
    destruct (decide (seen v !! x <> Some true)); cbn [length];
      specialize (IH Hin); lia.
Qed.

Lemma tame_ret {A : Type} F W U (a : A) : tame F W U (Ret a).
Proof. by intros v. Qed.

Lemma tame_bind {A B : Type} F W U (m : M A) (f : A -> M B) :
  tame F W U m -> (forall a, tame F W U (f a)) -> tame F W U (bind m f).
Proof.
  intros Hm Hf v. rewrite run_bind. specialize (Hm v).
  destruct (run F W m v) as [v1 a]. specialize (Hf a v1). cbn in *. lia.
Qed.

(** One action that changes neither the queue nor the visited set. *)
Lemma tame_call {X : Type} F W U (a : action X) :
  (forall v, workQueue (perform F W a v).1 = workQueue v
             /\ seen (perform F W a v).1 = seen v) ->
  tame F W U (call a).
Proof.
  intros Ha v. cbn [call run]. destruct (Ha v) as [HQ HS].
  destruct (perform F W a v) as [v' x]. cbn [fst] in *.
  unfold work_left, unseen. by rewrite HQ, HS.
Qed.

Lemma tame_enqueueVerifyDirectory F W U oid path :
  oid ∈ U -> tame F W U (enqueueVerifyDirectory oid path).
Proof.
  intros Hin v. unfold enqueueVerifyDirectory. cbn. unfold shouldEnqueue.
  destruct (default false (seen v !! oid)) eqn:Hs; cbn; [done|].
  assert (Hn : seen v !! oid <> Some true) by (intros E; by rewrite E in Hs).
  pose proof (unseen_insert_lt U v oid Hin Hn).
  unfold work_left, unseen in *. cbn in *. lia.
Qed.

Lemma tame_enqueueVerifyObject F W U oid path len :
  oid ∈ U -> tame F W U (enqueueVerifyObject oid path len).
Proof.
  intros Hin v. unfold enqueueVerifyObject. cbn. unfold shouldEnqueue.
  destruct (default false (seen v !! oid)) eqn:Hs; cbn; [done|].
  assert (Hn : seen v !! oid <> Some true) by (intros E; by rewrite E in Hs).
  pose proof (unseen_insert_lt U v oid Hin Hn).
  unfold work_left, unseen in *. cbn in *. rewrite length_app. cbn. lia.
Qed.

Lemma tame_forEntries F W U path entries :
  (forall e, e ∈ entries -> ObjectID e ∈ U) ->
  tame F W U (forEntries path entries).
Proof.
  induction entries as [|e rest IH]; intros HU; [apply tame_ret|].
  cbn [forEntries]. apply tame_bind; [by apply tame_call|].
  intros [|]; [apply tame_ret|].
  apply tame_bind.
  - unfold enqueueEntry. destruct (IsDir e);
      [apply tame_enqueueVerifyDirectory | apply tame_enqueueVerifyObject];
      apply HU; by left.
  - intros _. apply IH. intros e' He'. apply HU. by right.
Qed.

Lemma tame_report {A : Type} F W U path err (m : M A) :
  tame F W U m -> tame F W U (call (ReportError path err) ;; m).
Proof. intros Hm. apply tame_bind; [by apply tame_call | done]. Qed.

Lemma tame_run_task F W U t :
  listings_within W U -> tame F W U (run_task F t).
Proof.
  intros HU. destruct t as [oid path | oid path len]; cbn [run_task].
  - intros v. unfold doVerifyDirectory. cbn -[forEntries work_left].
    destruct (Readdir W oid) as [entries | err] eqn:Hd.
    + exact (tame_forEntries F W U path entries
               (fun e He => HU oid entries e Hd He)
               (add_call (CReaddir oid) v)).
    + done.
  - unfold doVerifyObject. apply tame_bind; [by apply tame_call|].
    intros [n err]. apply tame_bind.
    { destruct err; [apply tame_report|]; apply tame_ret. }
    intros _. apply tame_bind.
    { destruct (_ && _); [apply tame_report|]; apply tame_ret. }
    intros _. apply tame_bind; [by apply tame_call|].
    intros r. destruct (r <? FilesPercent F); [|apply tame_ret].
    apply tame_bind.
    + unfold readEntireObject. apply tame_bind; [by apply tame_call|].
      intros [rd | e]; apply tame_ret.
    + intros [e|]; [apply tame_report|]; apply tame_ret.
Qed.

(** A worker scheduled alone runs its program to the end. *)
Lemma solo_run F W (p : M unit) i c :
  workers c !! i = Some p ->
  exists n,
    steps F W (replicate n i) c
    = {| shared := (run F W p (shared c)).1;
         workers := <[i := Ret tt]> (workers c) |}.
Proof.
  revert c. induction p as [[] | X a k IH]; intros c Hi.
  - exists 0%nat. cbn. rewrite list_insert_id by done. by destruct c.
  - destruct (perform F W a (shared c)) as [v' x] eqn:Hp.
    destruct (IH x {| shared := v'; workers := <[i := k x]> (workers c) |})
      as (n & Hn).
    { cbn. apply list_lookup_insert_eq, lookup_lt_is_Some. eauto. }
    exists (S n). cbn [replicate]. change (steps F W (i :: replicate n i) c)
      with (steps F W (replicate n i) (step F W i c)).
    unfold step at 1. rewrite Hi, Hp, Hn. cbn [shared workers run].
    by rewrite Hp, list_insert_insert_eq.
Qed.

Lemma drain_alone F W U n :
  listings_within W U ->
  forall v ws,
    (work_left U v <= n)%nat ->
    forallb idle ws = true -> ws !! 0%nat = Some (Ret tt) ->
    exists N,
      drained (steps F W (replicate N 0%nat) {| shared := v; workers := ws |})
      = true.
Proof.
  intros HU. induction n as [|n IH]; intros v ws Hle Hidle H0.
  - exists 0%nat. unfold drained. cbn.
    unfold work_left in Hle. destruct (workQueue v); [done | cbn in Hle; lia].
  - destruct (workQueue v) as [|t q] eqn:Hq.
    { exists 0%nat. unfold drained. cbn. by rewrite Hq. }
    set (c1 := {| shared := set_workQueue q v;
                  workers := <[0%nat := run_task F t]> ws |}).
    assert (Hstep : step F W 0 {| shared := v; workers := ws |} = c1).
    { unfold step. cbn [shared workers]. by rewrite H0, Hq. }
    destruct (solo_run F W (run_task F t) 0%nat c1) as (n1 & Hn1).
    { cbn. apply list_lookup_insert_eq, lookup_lt_is_Some. eauto. }
    cbn [c1 shared workers] in Hn1.
    rewrite list_insert_insert_eq, list_insert_id in Hn1 by done.
    destruct (IH (run F W (run_task F t) (set_workQueue q v)).1 ws)
      as (N & HN); [|done|done|].
    { pose proof (tame_run_task F W U t HU (set_workQueue q v)) as Ht.
      unfold work_left, unseen in *. rewrite Hq in Hle.
      cbn [set_workQueue workQueue seen length] in *. lia. }
    exists (S (n1 + N)). cbn [replicate].
    change (steps F W (0%nat :: replicate (n1 + N) 0%nat)
              {| shared := v; workers := ws |})
      with (steps F W (replicate (n1 + N) 0%nat)
              (step F W 0 {| shared := v; workers := ws |})).
    by rewrite Hstep, replicate_add, steps_app, Hn1.
Qed.

(** X7.  With at least one worker and directories that list identifiers
    of a finite set only, some schedule makes the run return. *)
Theorem run_terminates F W U :
  0 < Parallel F -> listings_within W U ->
  exists sched v r, runVerifyCommand F W sched = Some (v, r).
Proof.
  intros Hpar HU. unfold runVerifyCommand.
  destruct (run F W (enqueueRootsToVerify F W) new_verifier) as [v0 [e|]].
  { by exists [], v0, (Some e). }
  destruct (drain_alone F W U (work_left U v0) HU v0
              (replicate (Z.to_nat (Parallel F)) (Ret tt))) as (N & HN).
  - done.
  - apply forallb_forall. intros w Hw.
    apply list_elem_of_In, elem_of_replicate in Hw as [-> _]. done.
  - destruct (Z.to_nat (Parallel F)) eqn:Hn; [lia | done].
  - exists (replicate N 0%nat). rewrite Process_workers by done.
    unfold start_pool. rewrite HN. eauto.
Qed.

(** ** Every task and every length failure has a lawful origin *)

Lemma lawful_bind {A B : Type} F W (m : M A) (f : A -> M B) :
  lawful F W m -> (forall a, lawful F W (f a)) -> lawful F W (bind m f).
Proof.
  intros Hm Hf. induction m as [a | X a k IH]; [apply Hf|].
  destruct Hm as [Ha Hk]. split; [done|]. intros v. apply IH, Hk.
Qed.

Lemma lawful_call {X : Type} F W (a : action X) :
  act_ok W a -> lawful F W (call a).
Proof. intros Ha. by split. Qed.

Lemma lawful_enqueueVerifyDirectory F W oid path :
  lawful F W (enqueueVerifyDirectory oid path).
Proof.
  split; [done|]. intros v. cbn [bind].
  destruct (negb _); [done|]. apply lawful_call. by left.
Qed.

Lemma lawful_enqueueVerifyObject F W oid path len :
  task_origin W (VerifyObjectTask oid path len) ->
  lawful F W (enqueueVerifyObject oid path len).
Proof.
  intros Ht. split; [done|]. intros v. cbn [bind].
  destruct (negb _); [done|]. by apply lawful_call.
Qed.

Lemma lawful_forEntries F W d path all entries :
  Readdir W d = Ok all -> (forall e, e ∈ entries -> e ∈ all) ->
  lawful F W (forEntries path entries).
Proof.
  intros Hd. induction entries as [|e rest IH]; intros Hsub; [done|].
  cbn [forEntries]. apply lawful_bind; [by apply lawful_call|].
  intros [|]; [done|]. apply lawful_bind.
  - unfold enqueueEntry. destruct (IsDir e) eqn:He;
      [apply lawful_enqueueVerifyDirectory|].
    apply lawful_enqueueVerifyObject. right. exists d, all, e, path.
    split; [done|]. split; [apply Hsub; by left|].
    unfold task_of_entry. by rewrite He.
  - intros _. apply IH. intros e' He'. apply Hsub. by right.
Qed.

Lemma lawful_report {A : Type} F W path err (m : M A) :
  report_ok W err -> lawful F W m ->
  lawful F W (call (ReportError path err) ;; m).
Proof.
  intros He Hm. apply lawful_bind; [by apply lawful_call | done].
Qed.

Lemma lawful_run_task F W t : lawful F W (run_task F t).
Proof.
  destruct t as [oid path | oid path el]; cbn [run_task].
  - unfold doVerifyDirectory. split; [done|]. intros v.
    cbn [perform snd bind].
    destruct (Readdir W oid) as [entries | err] eqn:Hd.
    + by eapply lawful_forEntries.
    + by apply lawful_report.
  - unfold doVerifyObject. split; [done|]. intros v.
    cbn [perform snd bind].
    destruct (VerifyObject W oid) as [len err] eqn:HV.
    apply lawful_bind.
    { destruct err; [by apply lawful_report | done]. }
    intros _. apply lawful_bind.
    { destruct (el >=? 0) eqn:H0; cbn [andb]; [|done].
      destruct (Z.eqb_spec len el); cbn [negb]; [done|].
      apply lawful_report; [|done]. cbn. rewrite HV.
      rewrite Z.geb_le in H0. done. }
    intros _. apply lawful_bind; [by apply lawful_call|].
    intros r. destruct (r <? FilesPercent F); [|done].
    apply lawful_bind.
    + unfold readEntireObject. apply lawful_bind; [by apply lawful_call|].
      by intros [rd | e].
    + intros [e|]; [by apply lawful_report | done].
Qed.

Lemma perform_records_ok {X : Type} F W (a : action X) v :
  act_ok W a -> records_ok W v -> records_ok W (perform F W a v).1.
Proof.
  intros Ha [HT HE]. destruct a; cbn in *; try by split.
  - split; [done|]. apply Forall_app. split; [done | by constructor].
  - unfold shouldEnqueue. by destruct (default false _).
  - split; [|done]. apply Forall_app. split; [done | by constructor].
  - split; [|done]. apply Forall_app. split; [done | by constructor].
  - split; [done|]. apply Forall_app. split; [done | by constructor].
Qed.

Lemma step_records_ok F W i c :
  records_ok W (shared c) /\ Forall (lawful F W) (workers c) ->
  records_ok W (shared (step F W i c))
  /\ Forall (lawful F W) (workers (step F W i c)).
Proof.
  intros [Hv Hws]. unfold step.
  destruct (workers c !! i) as [w|] eqn:Hi; [|done].
  assert (Hw : lawful F W w) by (rewrite Forall_forall in Hws; apply Hws;
                                 eapply list_elem_of_lookup_2; eauto).
  destruct w as [[] | X a k].
  - destruct (workQueue (shared c)); [done|]. split; [done|].
    apply Forall_insert; [done | apply lawful_run_task].
  - destruct Hw as [Ha Hk].
    pose proof (perform_records_ok F W a (shared c) Ha Hv) as Hn.
    specialize (Hk (shared c)).
    destruct (perform F W a (shared c)) as [v' x].
    split; [done | by apply Forall_insert].
Qed.

Lemma steps_records_ok F W sched c :
  records_ok W (shared c) /\ Forall (lawful F W) (workers c) ->
  records_ok W (shared (steps F W sched c))
  /\ Forall (lawful F W) (workers (steps F W sched c)).
Proof.
  revert c. induction sched as [|i sched IH]; intros c Hc; [done|].
  apply (IH (step F W i c)). by apply step_records_ok.
Qed.

Lemma seeding_records_ok F W :
  records_ok W (run F W (enqueueRootsToVerify F W) new_verifier).1.
Proof.
  destruct (adds_enqueueRootsToVerify F W new_verifier) as (new & E & HP).
  destruct (keeps_enqueueRootsToVerify F W new_verifier) as (E1 & _).
  split.
  - rewrite E. cbn. eapply Forall_impl; [exact HP|]. intros t Ht. by left.
  - rewrite E1. constructor.
Qed.

Lemma reachable_records_ok F W sched :
  records_ok W
    (shared (steps F W sched
               (start_pool (Parallel F)
                  (run F W (enqueueRootsToVerify F W) new_verifier).1))).
Proof.
  apply steps_records_ok. split; [apply seeding_records_ok|].
  apply Forall_forall. intros w Hw.
  apply elem_of_replicate in Hw as [-> _]. done.
Qed.

(** C4, as amended.  Object tasks made from snapshot roots and from the
    identifiers given on the command line carry -1; an object task made
    from a directory listing carries the size recorded in the listing; the
    length-mismatch record is reported exactly when the expected length is
    not negative and differs from the length found, so never for -1.  In
    every state a run reaches, under every schedule, each object task ever
    enqueued carries -1 or the size of a listed entry with its identifier,
    and each length failure is about an expected length that is not
    negative. *)
Theorem expected_length_of_object_tasks :
  forall (F : flags) (W : world),
    (forall oid path expectedLength,
       VerifyObjectTask oid path expectedLength
         ∈ enqueued (run F W (enqueueRootsToVerify F W) new_verifier).1 ->
       expectedLength = -1)
    /\ (forall path entries v oid p expectedLength,
          VerifyObjectTask oid p expectedLength
            ∈ drop (length (enqueued v))
                (enqueued (run F W (forEntries path entries) v).1) ->
          exists e, e ∈ entries /\ IsDir e = false /\ oid = ObjectID e
                    /\ p = path +:+ "/" +:+ Name e
                    /\ expectedLength = FileSize e)
    /\ (forall oid path expectedLength v,
          let reported :=
            drop (length (errors v))
              (errors (run F W (doVerifyObject F oid path expectedLength) v).1)
          in
          (ErrInvalidLength oid (VerifyObject W oid).1 expectedLength
             ∈ reported
           <-> 0 <= expectedLength
               /\ (VerifyObject W oid).1 <> expectedLength)
          /\ (forall o len el, ErrInvalidLength o len el ∈ reported ->
                o = oid /\ len = (VerifyObject W oid).1
                /\ el = expectedLength /\ 0 <= expectedLength))
    /\ (forall sched,
          let v :=
            shared (steps F W sched
                      (start_pool (Parallel F)
                         (run F W (enqueueRootsToVerify F W)
                            new_verifier).1)) in
          (forall oid p expectedLength,
             VerifyObjectTask oid p expectedLength ∈ enqueued v ->
             expectedLength = -1
             \/ exists d entries e,
                  Readdir W d = Ok entries /\ e ∈ entries
                  /\ IsDir e = false /\ oid = ObjectID e
                  /\ expectedLength = FileSize e)
          /\ (forall o len el,
                ErrInvalidLength o len el ∈ errors v ->
                0 <= el /\ len = (VerifyObject W o).1 /\ len <> el)).
Proof.
  intros F W. split; [|split; [|split]]; cycle 3.
  { intros sched v.
    destruct (reachable_records_ok F W sched) as [HT HE].
    fold v in HT, HE. rewrite Forall_forall in HT.
    rewrite Forall_forall in HE. split.
    - intros oid p el Hin. destruct (HT _ Hin) as [Hu | Hl]; [by left|].
      destruct Hl as (d & entries & e & path & Hd & He & Ht). right.
      exists d, entries, e. unfold task_of_entry in Ht.
      destruct (IsDir e); [discriminate|]. by injection Ht as -> _ ->.
    - intros o len el Hin. exact (HE _ Hin). }
  - intros oid path el Hin.
    destruct (adds_enqueueRootsToVerify F W new_verifier) as (new & E & HP).
    rewrite E in Hin. simpl in Hin.
    rewrite Forall_forall in HP. exact (HP _ Hin).
  - intros path entries v oid p el Hin.
    destruct (adds_forEntries F W path entries v) as (new & E & HP).
    rewrite E, drop_app_length in Hin.
    rewrite Forall_forall in HP.
    destruct (HP _ Hin) as (e & He & Ht).
    exists e. unfold task_of_entry in Ht.
    destruct (IsDir e); [discriminate|].
    injection Ht as -> -> ->. done.
  - intros oid path el v reported.
    destruct (doVerifyObject_run F W oid path el v) as (He & _).
    assert (Hr : reported
                 = verification_failure W oid ++ length_mismatch W oid el
                   ++ (if sampled F W (draws v) then deep_read_failure W oid
                       else [])).
    { unfold reported. by rewrite He, drop_app_length. }
    rewrite Hr. clear Hr He reported.
    assert (Hlm : forall o len el',
              ErrInvalidLength o len el'
                ∈ verification_failure W oid ++ length_mismatch W oid el
                  ++ (if sampled F W (draws v) then deep_read_failure W oid
                      else [])
              <-> ErrInvalidLength o len el' ∈ length_mismatch W oid el).
    { intros o len el'. rewrite !elem_of_app. split; [|tauto].
      intros [H|[H|H]]; [|done|]; exfalso.
      - unfold verification_failure in H.
        destruct ((VerifyObject W oid).2);
          [apply list_elem_of_singleton in H; discriminate
          |by apply elem_of_nil in H].
      - destruct (sampled F W (draws v)); [|by apply elem_of_nil in H].
        unfold deep_read_failure in H.
        destruct (Open W oid) as [[[e|]]|e];
          first [by apply elem_of_nil in H
                | apply list_elem_of_singleton in H; discriminate]. }
    split.
    + rewrite Hlm. unfold length_mismatch. cbn zeta.
      destruct (Z.leb_spec 0 el), (Z.eqb_spec (VerifyObject W oid).1 el);
        simpl; rewrite ?list_elem_of_singleton, ?elem_of_nil;
        intuition (try lia; try done).
    + intros o len el' Hin. apply Hlm in Hin.
      unfold length_mismatch in Hin. cbn zeta in Hin.
      destruct (Z.leb_spec 0 el); simpl in Hin;
        [|by apply elem_of_nil in Hin].
      destruct (negb _); [|by apply elem_of_nil in Hin].
      apply list_elem_of_singleton in Hin. injection Hin as -> -> ->. done.
Qed.

(** C4, as stated: a directory lists a file with the size -2, which is not
    the sentinel -1; the object task carries -2, the object has length 10,
    and the run ends with no failure at all: the lengths were not
    compared. *)
Lemma negative_length_is_not_checked :
  exists v,
    runVerifyCommand negative_size_flags negative_size_world
      (replicate 12 0%nat) = Some (v, None)
    /\ enqueued v = [VerifyDirectoryTask "root" "root";
                     VerifyObjectTask "o" "root/f" (-2)]
    /\ calls v = [CReaddir "root"; CVerifyObject "o"]
    /\ VerifyObject negative_size_world "o" = (10, None)
    /\ -2 <> -1 /\ 10 <> -2
    /\ errors v = [].
Proof.
  eexists. split; [vm_compute; reflexivity|].
  repeat split; lia.
Qed.


(** * Further properties *)

(** ** Every action of the verifier's programs *)

Lemma every_bind {A B : Type} Q (m : M A) (f : A -> M B) :
  every Q m -> (forall a, every Q (f a)) -> every Q (bind m f).
Proof.
  intros Hm Hf. induction m as [a | X a k IH]; [apply Hf|].
  destruct Hm as [Ha Hk]. split; [done|]. intros x. apply IH, Hk.
Qed.

Lemma every_call {X : Type} Q (a : action X) : Q _ a -> every Q (call a).
Proof. by split. Qed.

Lemma every_after_first {A : Type} Q (p : M A) :
  every Q p -> after_first Q p.
Proof. destruct p; [done|]. by intros [_ ?]. Qed.

Lemma admits_enqueueVerifyDirectory Q oid path :
  admits Q -> every Q (enqueueVerifyDirectory oid path).
Proof.
  intros (_ & HS & HF & _). apply every_bind; [by apply every_call|].
  intros [|]; [by apply every_call | done].
Qed.

Lemma admits_enqueueVerifyObject Q oid path len :
  admits Q -> every Q (enqueueVerifyObject oid path len).
Proof.
  intros (_ & HS & _ & HB & _). apply every_bind; [by apply every_call|].
  intros [|]; [by apply every_call | done].
Qed.

Lemma admits_forEntries Q path entries :
  admits Q -> every Q (forEntries path entries).
Proof.
  intros HQ. induction entries as [|e rest IH]; [done|].
  cbn [forEntries]. apply every_bind; [apply every_call, HQ|].
  intros [|]; [done|]. apply every_bind; [|intros _; exact IH].
  unfold enqueueEntry. destruct (IsDir e);
    [by apply admits_enqueueVerifyDirectory
    | by apply admits_enqueueVerifyObject].
Qed.

Lemma admits_report {A : Type} Q path err (m : M A) :
  admits Q -> every Q m -> every Q (call (ReportError path err) ;; m).
Proof.
  intros HQ Hm. apply every_bind; [apply every_call, HQ | done].
Qed.

Lemma after_first_bind_call {A X : Type} Q (a : action X) (f : X -> M A) :
  (forall x, every Q (f x)) -> after_first Q (bind (call a) f).
Proof. intros Hf x. apply Hf. Qed.

Lemma admits_run_task Q F t : admits Q -> after_first Q (run_task F t).
Proof.
  intros HQ. destruct t as [oid path | oid path len]; cbn [run_task];
    apply after_first_bind_call; intros r.
  - destruct r as [entries | err];
      [by apply admits_forEntries | by apply admits_report].
  - destruct r as [n err]. apply every_bind.
    { destruct err; [by apply admits_report | done]. }
    intros _. apply every_bind.
    { destruct (_ && _); [by apply admits_report | done]. }
    intros _. apply every_bind; [apply every_call, HQ|].
    intros x. destruct (x <? FilesPercent F); [|done].
    apply every_bind.
    + unfold readEntireObject. apply every_bind; [apply every_call, HQ|].
      by intros [rd | e].
    + intros [e|]; [by apply admits_report | done].
Qed.

Lemma admits_every_run_task Q F t :
  admits Q -> (forall oid, Q _ (CallReaddir oid)) ->
  (forall oid, Q _ (CallVerifyObject oid)) -> every Q (run_task F t).
Proof.
  intros HQ HR HV. pose proof (admits_run_task Q F t HQ) as Ht.
  destruct t; split; try done.
Qed.

Lemma admits_enqueueManifests Q manifests :
  admits Q -> every Q (enqueueManifests manifests).
Proof.
  intros HQ. induction manifests as [|man rest IH]; [done|].
  cbn [enqueueManifests]. destruct (RootEntry man) as [re|]; [|exact IH].
  apply every_bind; [|intros _; exact IH].
  destruct (Type_ re);
    first [by apply admits_enqueueVerifyDirectory
          | by apply admits_enqueueVerifyObject].
Qed.

Lemma admits_enqueueDirObjectIDs Q W ids :
  admits Q -> every Q (enqueueDirObjectIDs W ids).
Proof.
  intros HQ. induction ids as [|oidStr rest IH]; [done|].
  cbn [enqueueDirObjectIDs]. destruct (parseObjectID W oidStr); [|done].
  apply every_bind; [by apply admits_enqueueVerifyDirectory|].
  intros _; exact IH.
Qed.

Lemma admits_enqueueFileObjectIDs Q W ids :
  admits Q -> every Q (enqueueFileObjectIDs W ids).
Proof.
  intros HQ. induction ids as [|oidStr rest IH]; [done|].
  cbn [enqueueFileObjectIDs]. destruct (parseObjectID W oidStr); [|done].
  apply every_bind; [by apply admits_enqueueVerifyObject|].
  intros _; exact IH.
Qed.

Lemma admits_enqueueRootsToVerify Q F W :
  admits Q -> every Q (enqueueRootsToVerify F W).
Proof.
  intros HQ. unfold enqueueRootsToVerify.
  destruct (loadSourceManifests F W); [|done].
  apply every_bind; [by apply admits_enqueueManifests|]. intros _.
  apply every_bind; [by apply admits_enqueueDirObjectIDs|].
  intros [e|]; [done | by apply admits_enqueueFileObjectIDs].
Qed.

Lemma admits_sides : admits sides.
Proof. by repeat split. Qed.

Lemma admits_no_start : admits no_start.
Proof. by repeat split. Qed.

(** ** Directories before files *)

Lemma dirs_first_front t q :
  is_dir_task t = true ->
  q = dir_tasks q ++ obj_tasks q ->
  t :: q = dir_tasks (t :: q) ++ obj_tasks (t :: q).
Proof.
  intros Ht Hq. unfold dir_tasks, obj_tasks in *. cbn [List.filter].
  rewrite Ht. cbn [negb app]. by rewrite <- Hq.
Qed.

Lemma dirs_first_back t q :
  is_dir_task t = false ->
  q = dir_tasks q ++ obj_tasks q ->
  q ++ [t] = dir_tasks (q ++ [t]) ++ obj_tasks (q ++ [t]).
Proof.
  intros Ht Hq. unfold dir_tasks, obj_tasks in *.
  rewrite !List.filter_app. cbn [List.filter]. rewrite Ht. cbn [negb].
  by rewrite app_nil_r, app_assoc, <- Hq.
Qed.

Lemma dir_tasks_are_dirs t q : t ∈ dir_tasks q -> is_dir_task t = true.
Proof.
  unfold dir_tasks. rewrite list_elem_of_In, List.filter_In. tauto.
Qed.

Lemma dirs_first_tail t q :
  t :: q = dir_tasks (t :: q) ++ obj_tasks (t :: q) ->
  q = dir_tasks q ++ obj_tasks q
  /\ (is_dir_task t = false -> dir_tasks q = []).
Proof.
  unfold dir_tasks, obj_tasks. cbn [List.filter].
  destruct (is_dir_task t) eqn:Ht; cbn [negb app]; intros Hq.
  - split; [by injection Hq | done].
  - destruct (List.filter is_dir_task q) as [|d ds] eqn:Hd.
    + cbn [app] in Hq |- *. split; [by injection Hq | done].
    + cbn [app] in Hq. injection Hq as <- _.
      assert (Hin : t ∈ dir_tasks q) by (unfold dir_tasks; rewrite Hd; by left).
      apply dir_tasks_are_dirs in Hin. congruence.
Qed.

Lemma perform_dirs_first {X : Type} F W (a : action X) v :
  sides _ a ->
  workQueue v = dir_tasks (workQueue v) ++ obj_tasks (workQueue v) ->
  workQueue (perform F W a v).1
  = dir_tasks (workQueue (perform F W a v).1)
    ++ obj_tasks (workQueue (perform F W a v).1).
Proof.
  intros Ha Hq. destruct a; cbn in *; try done.
  - unfold shouldEnqueue. by destruct (default false _).
  - by apply dirs_first_front.
  - by apply dirs_first_back.
Qed.

Lemma step_dirs_first F W i c :
  workQueue (shared c)
  = dir_tasks (workQueue (shared c)) ++ obj_tasks (workQueue (shared c))
  /\ Forall (every sides) (workers c) ->
  workQueue (shared (step F W i c))
  = dir_tasks (workQueue (shared (step F W i c)))
    ++ obj_tasks (workQueue (shared (step F W i c)))
  /\ Forall (every sides) (workers (step F W i c)).
Proof.
  intros [Hq Hws]. unfold step.
  destruct (workers c !! i) as [w|] eqn:Hi; [|done].
  assert (Hw : every sides w) by (rewrite Forall_forall in Hws; apply Hws;
                                  eapply list_elem_of_lookup_2; eauto).
  destruct w as [[] | X a k].
  - destruct (workQueue (shared c)) as [|t q] eqn:Hwq; [by rewrite Hwq|].
    split.
    + cbn. by apply dirs_first_tail in Hq as [? _].
    + apply Forall_insert; [done|].
      by apply admits_every_run_task; [apply admits_sides|..].
  - destruct Hw as [Ha Hk].
    pose proof (perform_dirs_first F W a (shared c) Ha Hq) as Hn.
    destruct (perform F W a (shared c)) as [v' x].
    split; [done | by apply Forall_insert].
Qed.

Lemma steps_dirs_first F W sched c :
  workQueue (shared c)
  = dir_tasks (workQueue (shared c)) ++ obj_tasks (workQueue (shared c))
  /\ Forall (every sides) (workers c) ->
  workQueue (shared (steps F W sched c))
  = dir_tasks (workQueue (shared (steps F W sched c)))
    ++ obj_tasks (workQueue (shared (steps F W sched c))).
Proof.
  revert c. induction sched as [|i sched IH]; intros c Hc; [by destruct Hc|].
  apply (IH (step F W i c)). by apply step_dirs_first.
Qed.

(** What a program running alone does to the queue: the directory tasks
    it enqueues end up in front, the last one first, the object tasks
    behind, in the order they were enqueued. *)
Lemma run_queue_shape {A : Type} F W (p : M A) v :
  every sides p ->
  exists new,
    enqueued (run F W p v).1 = enqueued v ++ new
    /\ workQueue (run F W p v).1
       = rev (dir_tasks new) ++ workQueue v ++ obj_tasks new.
Proof.
  revert v. induction p as [a | X a k IH]; intros v Hp.
  - exists []. cbn. by rewrite !app_nil_r.
  - destruct Hp as [Ha Hk]. cbn [run].
    destruct (perform F W a v) as [v' x] eqn:Hperf.
    destruct (IH x v' (Hk x)) as (new & HE & HQ).
    assert (Hsame : enqueued v' = enqueued v -> workQueue v' = workQueue v ->
                    exists new0,
                      enqueued (run F W (k x) v').1 = enqueued v ++ new0
                      /\ workQueue (run F W (k x) v').1
                         = rev (dir_tasks new0) ++ workQueue v
                           ++ obj_tasks new0).
    { intros E1 E2. exists new. by rewrite HE, HQ, E1, E2. }
    destruct a; cbn in Hperf, Ha; try (injection Hperf as <- <-; by apply Hsame).
    + unfold shouldEnqueue in Hperf.
      destruct (default false _); injection Hperf as <- <-; by apply Hsame.
    + injection Hperf as <- <-. cbn in HE, HQ.
      exists (t :: new). rewrite HE, HQ, <- app_assoc. split; [done|].
      unfold dir_tasks, obj_tasks. cbn [List.filter]. rewrite Ha.
      cbn [negb rev]. by rewrite <- app_assoc.
    + injection Hperf as <- <-. cbn in HE, HQ.
      exists (t :: new). rewrite HE, HQ, <- !app_assoc. split; [done|].
      unfold dir_tasks, obj_tasks. cbn [List.filter]. rewrite Ha.
      by cbn [negb rev].
Qed.

Lemma run_dirs_first {A : Type} F W (p : M A) v :
  every sides p ->
  workQueue v = dir_tasks (workQueue v) ++ obj_tasks (workQueue v) ->
  workQueue (run F W p v).1
  = dir_tasks (workQueue (run F W p v).1)
    ++ obj_tasks (workQueue (run F W p v).1).
Proof.
  revert v. induction p as [a | X a k IH]; intros v Hp Hq; [done|].
  destruct Hp as [Ha Hk]. cbn [run].
  pose proof (perform_dirs_first F W a v Ha Hq) as Hn.
  destruct (perform F W a v) as [v' x]. by apply IH.
Qed.

(** X1.  In every state a run reaches, under every schedule, the queue
    holds its directory tasks before its object tasks; so when the task at
    the front is an object task, no directory task is waiting. *)
Theorem queue_keeps_directories_first :
  forall (F : flags) (W : world) (sched : list nat),
    let q :=
      workQueue
        (shared (steps F W sched
                   (start_pool (Parallel F)
                      (run F W (enqueueRootsToVerify F W) new_verifier).1)))
    in
    q = dir_tasks q ++ obj_tasks q
    /\ (forall oid path len rest,
          q = VerifyObjectTask oid path len :: rest -> dir_tasks rest = []).
Proof.
  intros F W sched q.
  assert (Hq : q = dir_tasks q ++ obj_tasks q).
  { apply steps_dirs_first. split; cbn [start_pool shared workers].
    - apply run_dirs_first; [|done].
      apply admits_enqueueRootsToVerify, admits_sides.
    - apply Forall_forall. intros w Hw.
      apply elem_of_replicate in Hw as [-> _]. done. }
  split; [exact Hq|]. intros oid path len rest Hrest.
  rewrite Hrest in Hq. by apply dirs_first_tail in Hq as [_ ->].
Qed.

Lemma forEntries_enqueued F W path entries v :
  tooManyErrors F v = false ->
  enqueued (run F W (forEntries path entries) v).1
  = enqueued v ++ map (task_of_entry path) (fresh (seen v) entries).
Proof.
  revert v. induction entries as [|e rest IH]; intros v Hb.
  { cbn. by rewrite app_nil_r. }
  cbn [forEntries bind call run perform]. rewrite Hb.
  rewrite run_bind. cbn [fresh]. unfold enqueueEntry.
  destruct (IsDir e) eqn:Hdir;
    [unfold enqueueVerifyDirectory | unfold enqueueVerifyObject];
    cbn [bind call run perform]; unfold shouldEnqueue;
    destruct (default false (seen v !! ObjectID e));
    cbn [negb run call perform]; try (by apply IH).
  - rewrite IH by exact Hb.
    cbn [push_front set_seen enqueued seen map]. rewrite <- app_assoc.
    cbn [app]. unfold task_of_entry at 2. by rewrite Hdir.
  - rewrite IH by exact Hb.
    cbn [push_back set_seen enqueued seen map]. rewrite <- app_assoc.
    cbn [app]. unfold task_of_entry at 2. by rewrite Hdir.
Qed.

Lemma fresh_sublist s entries : fresh s entries `sublist_of` entries.
Proof.
  revert s. induction entries as [|e rest IH]; intros s; [done|].
  cbn [fresh]. destruct (default false (s !! ObjectID e));
    [by apply sublist_cons | by apply sublist_skip].
Qed.

Lemma fresh_all s entries :
  NoDup (map ObjectID entries) ->
  (forall e, e ∈ entries -> default false (s !! ObjectID e) = false) ->
  fresh s entries = entries.
Proof.
  revert s. induction entries as [|e rest IH]; intros s Hnd Hs; [done|].
  cbn [fresh]. rewrite (Hs e) by (by left).
  cbn [map] in Hnd. apply NoDup_cons in Hnd as [Hnot Hnd].
  f_equal. apply IH; [done|]. intros e' He'.
  rewrite lookup_insert_ne; [apply Hs; by right|].
  intros Heq. apply Hnot. rewrite Heq. apply list_elem_of_fmap. by exists e'.
Qed.

(** X2.  Seeding leaves in the queue the directory roots, the last one
    enqueued in front, followed by the object roots in the order they were
    enqueued.  A directory task running alone, when the listing succeeds
    and the budget is not exhausted, enqueues the tasks of the entries of
    the listing that are new (not in the visited set, not a repetition of
    an earlier entry), in listing order; it puts the sub-directories among
    them in front of the queue, the last one first, and the files behind,
    in listing order.  When no identifier of the listing was seen or
    repeats, these are the tasks of all the entries. *)
Theorem enqueue_order :
  forall (F : flags) (W : world),
    (let v := (run F W (enqueueRootsToVerify F W) new_verifier).1 in
     workQueue v = rev (dir_tasks (enqueued v)) ++ obj_tasks (enqueued v))
    /\ (forall oid path v entries,
          Readdir W oid = Ok entries -> tooManyErrors F v = false ->
          let new := map (task_of_entry path) (fresh (seen v) entries) in
          let v' := (run F W (doVerifyDirectory oid path) v).1 in
          enqueued v' = enqueued v ++ new
          /\ workQueue v'
             = rev (dir_tasks new) ++ workQueue v ++ obj_tasks new)
    /\ (forall s entries, fresh s entries `sublist_of` entries)
    /\ (forall s entries,
          NoDup (map ObjectID entries) ->
          (forall e, e ∈ entries -> s !! ObjectID e <> Some true) ->
          fresh s entries = entries).
Proof.
  intros F W. split; [|split; [|split]].
  - destruct (run_queue_shape F W (enqueueRootsToVerify F W) new_verifier)
      as (new & HE & HQ).
    { apply admits_enqueueRootsToVerify, admits_sides. }
    cbn zeta. by rewrite HE, HQ.
  - intros oid path v entries Hr Hb new v'.
    assert (HE : enqueued v' = enqueued v ++ new).
    { unfold v', new, doVerifyDirectory. cbn [bind call run perform].
      rewrite Hr. cbn [bind]. by rewrite forEntries_enqueued. }
    split; [exact HE|].
    destruct (run_queue_shape F W (doVerifyDirectory oid path) v)
      as (new' & HE' & HQ').
    { by apply (admits_every_run_task sides F
                  (VerifyDirectoryTask oid path)); [apply admits_sides|..]. }
    fold v' in HE', HQ'. rewrite HE in HE'.
    apply app_inv_head in HE'. by rewrite HE'.
  - apply fresh_sublist.
  - intros s entries Hnd Hs. apply fresh_all; [done|].
    intros e He. specialize (Hs e He).
    by destruct (s !! ObjectID e) as [[|]|].
Qed.

(** The root of the repository with five damaged files, listed from the
    empty state: the five sub-directories are enqueued in listing order
    and wait in the queue in the reverse order. *)
Lemma enqueue_order_witness :
  let v' := (run five_flags five_world (doVerifyDirectory "root" "s")
               new_verifier).1 in
  enqueued v'
  = [VerifyDirectoryTask "A" "s/a"; VerifyDirectoryTask "B" "s/b";
     VerifyDirectoryTask "C" "s/c"; VerifyDirectoryTask "D" "s/d";
     VerifyDirectoryTask "E" "s/e"]
  /\ workQueue v'
     = [VerifyDirectoryTask "E" "s/e"; VerifyDirectoryTask "D" "s/d";
        VerifyDirectoryTask "C" "s/c"; VerifyDirectoryTask "B" "s/b";
        VerifyDirectoryTask "A" "s/a"].
Proof.
  exact (proj1 (proj2 (enqueue_order five_flags five_world))
           "root" "s" new_verifier _ eq_refl eq_refl).
Defined.

(** ** Every enqueued task is started once *)

Lemma listed_snoc cs c :
  listed (cs ++ [c])
  = listed cs ++ match c with CReaddir oid => [oid] | _ => [] end.
Proof. unfold listed. rewrite omap_app. by destruct c. Qed.

Lemma no_start_pend {A : Type} (p : M A) :
  every no_start p -> pendR p = [] /\ pendV p = [].
Proof. destruct p as [|X a k]; [done|]. intros [Ha _]. by destruct a. Qed.

Lemma accounted_perm v pr pr' pv pv' :
  pr ≡ₚ pr' -> pv ≡ₚ pv' -> accounted v pr pv -> accounted v pr' pv'.
Proof. intros Hr Hv [H1 H2]. split; [by rewrite <- Hr | by rewrite <- Hv]. Qed.

Lemma perform_accounted {A X : Type} F W (a : action X) (k : X -> M A)
    v pr pv :
  accounted v (pendR (Act a k) ++ pr) (pendV (Act a k) ++ pv) ->
  accounted (perform F W a v).1 pr pv.
Proof.
  unfold accounted. intros [H1 H2].
  destruct a; cbn [perform pendR pendV app fst] in *; try done.
  - unfold shouldEnqueue. by destruct (default false _).
  - cbn [push_front enqueued calls workQueue]. unfold dir_ids, obj_ids in *.
    rewrite !omap_app. destruct t; cbn [omap]; cbn; rewrite ?app_nil_r.
    + split; [|done]. rewrite H1. solve_Permutation.
    + split; [done|]. rewrite H2. solve_Permutation.
  - cbn [push_back enqueued calls workQueue]. unfold dir_ids, obj_ids in *.
    rewrite !omap_app. destruct t; cbn [omap]; cbn; rewrite ?app_nil_r.
    + split; [|done]. rewrite H1. solve_Permutation.
    + split; [done|]. rewrite H2. solve_Permutation.
  - cbn [add_call enqueued calls workQueue].
    rewrite listed_snoc, verified_snoc, app_nil_r.
    split; [|done]. rewrite H1. solve_Permutation.
  - cbn [add_call enqueued calls workQueue].
    rewrite listed_snoc, verified_snoc, app_nil_r.
    split; [done|]. rewrite H2. solve_Permutation.
  - cbn [add_call enqueued calls workQueue].
    by rewrite listed_snoc, verified_snoc, !app_nil_r.
Qed.

Lemma run_accounted {A : Type} F W (p : M A) v pr pv :
  every no_start p -> accounted v pr pv -> accounted (run F W p v).1 pr pv.
Proof.
  revert v. induction p as [a | X a k IH]; intros v Hp Hacc; [done|].
  destruct (no_start_pend _ Hp) as [HR HV]. destruct Hp as [_ Hk].
  cbn [run].
  pose proof (perform_accounted F W a k v pr pv) as Hn.
  rewrite HR, HV in Hn. specialize (Hn Hacc).
  destruct (perform F W a v) as [v' x]. by apply IH.
Qed.

Lemma step_accounted F W i c :
  accounted (shared c) (workers c ≫= pendR) (workers c ≫= pendV)
  /\ Forall (after_first no_start) (workers c) ->
  accounted (shared (step F W i c))
    (workers (step F W i c) ≫= pendR) (workers (step F W i c) ≫= pendV)
  /\ Forall (after_first no_start) (workers (step F W i c)).
Proof.
  intros [Hacc Hws]. unfold step.
  destruct (workers c !! i) as [w|] eqn:Hi; [|done].
  assert (Hw : after_first no_start w)
    by (rewrite Forall_forall in Hws; apply Hws;
        eapply list_elem_of_lookup_2; eauto).
  destruct w as [[] | X a k].
  - destruct (workQueue (shared c)) as [|t q] eqn:Hq; [done|].
    split; [|apply Forall_insert; [done|];
             apply admits_run_task, admits_no_start].
    cbn [shared workers].
    destruct (insert_bind_Permutation pendR _ i _ (run_task F t) Hi)
      as [PR1 PR2].
    destruct (insert_bind_Permutation pendV _ i _ (run_task F t) Hi)
      as [PV1 PV2].
    eapply accounted_perm; [symmetry; exact PR2 | symmetry; exact PV2 |].
    eapply accounted_perm in Hacc; [|exact PR1 | exact PV1].
    destruct Hacc as [H1 H2]. rewrite Hq in H1, H2.
    unfold accounted. cbn [set_workQueue enqueued calls workQueue].
    unfold dir_ids, obj_ids in *.
    destruct t; cbn [omap pendR pendV run_task doVerifyDirectory
                     doVerifyObject bind call app] in *.
    + split; [|done]. rewrite H1. cbn. solve_Permutation.
    + split; [done|]. rewrite H2. cbn. solve_Permutation.
  - destruct (insert_bind_Permutation pendR _ i _
                (k (perform F W a (shared c)).2) Hi) as [PR1 PR2].
    destruct (insert_bind_Permutation pendV _ i _
                (k (perform F W a (shared c)).2) Hi) as [PV1 PV2].
    eapply accounted_perm in Hacc; [|exact PR1 | exact PV1].
    pose proof (perform_accounted F W a k _ _ _ Hacc) as Hn.
    cbn [after_first] in Hw.
    destruct (no_start_pend _ (Hw (perform F W a (shared c)).2)) as [ER EV].
    rewrite ER in PR2. rewrite EV in PV2.
    destruct (perform F W a (shared c)) as [v' x]. cbn [fst snd] in *.
    split; [|apply Forall_insert; [done | by apply every_after_first]].
    cbn [shared workers].
    eapply accounted_perm; [symmetry; exact PR2 | symmetry; exact PV2 | done].
Qed.

Lemma steps_accounted F W sched c :
  accounted (shared c) (workers c ≫= pendR) (workers c ≫= pendV)
  /\ Forall (after_first no_start) (workers c) ->
  accounted (shared (steps F W sched c))
    (workers (steps F W sched c) ≫= pendR)
    (workers (steps F W sched c) ≫= pendV).
Proof.
  revert c. induction sched as [|i sched IH]; intros c Hc; [by destruct Hc|].
  apply (IH (step F W i c)). by apply step_accounted.
Qed.

Lemma idle_pend (ws : list (M unit)) :
  forallb idle ws = true ->
  ws ≫= pendR = [] /\ ws ≫= pendV = [] /\ ws ≫= pendE = [].
Proof.
  induction ws as [|w ws IH]; [done|]. cbn [forallb].
  intros [Hw Hws]%andb_prop. destruct (IH Hws) as (E1 & E2 & E3).
  rewrite !bind_cons, E1, E2, E3. by destruct w.
Qed.

Lemma start_pool_pend n v :
  forallb idle (workers (start_pool n v)) = true.
Proof.
  apply forallb_forall. intros w Hw.
  apply list_elem_of_In, elem_of_replicate in Hw as [-> _]. done.
Qed.

(** When [Process] has returned, what was enqueued is what was started. *)
Lemma Process_accounted F W sched v :
  0 < Parallel F ->
  Process F W (Parallel F) sched
    (run F W (enqueueRootsToVerify F W) new_verifier).1 = Some v ->
  dir_ids (enqueued v) ≡ₚ listed (calls v)
  /\ obj_ids (enqueued v) ≡ₚ verified (calls v).
Proof.
  intros Hpar. rewrite Process_workers by done.
  destruct (drained _) eqn:Hd; [|done]. intros [= <-].
  set (c := steps F W sched _) in *.
  assert (Hacc : accounted (shared c) (workers c ≫= pendR)
                   (workers c ≫= pendV)).
  { apply steps_accounted. split.
    - destruct (idle_pend _ (start_pool_pend (Parallel F)
          (run F W (enqueueRootsToVerify F W) new_verifier).1))
        as (-> & -> & _).
      cbn [start_pool shared].
      apply run_accounted;
        [apply admits_enqueueRootsToVerify, admits_no_start | by split].
    - apply Forall_forall. intros w Hw.
      apply elem_of_replicate in Hw as [-> _]. done. }
  unfold drained in Hd.
  destruct (workQueue (shared c)) eqn:Hq; [|done].
  destruct (idle_pend _ Hd) as (ER & EV & _).
  destruct Hacc as [H1 H2]. rewrite ER, Hq in H1. rewrite EV, Hq in H2.
  cbn in H1, H2. rewrite app_nil_r in H1. by rewrite app_nil_r in H2.
Qed.

(** X3.  With at least one worker, when the roots resolve and the run
    returns, whatever the error threshold: every directory task that was
    enqueued had its directory listed exactly once, every object task that
    was enqueued had its object verified exactly once, and nothing else
    was listed or verified.  (With no worker the run returns at once and
    the enqueued roots are neither listed nor verified.) *)
Theorem every_enqueued_task_is_started_once :
  forall (F : flags) (W : world) (sched : list nat) (v : verifier)
         (r : option error),
    0 < Parallel F ->
    (run F W (enqueueRootsToVerify F W) new_verifier).2 = None ->
    runVerifyCommand F W sched = Some (v, r) ->
    dir_ids (enqueued v) ≡ₚ listed (calls v)
    /\ obj_ids (enqueued v) ≡ₚ verified (calls v).
Proof.
  intros F W sched v r Hpar Hseed. unfold runVerifyCommand.
  pose proof (Process_accounted F W sched) as HP.
  destruct (run F W (enqueueRootsToVerify F W) new_verifier) as [v0 r0].
  cbn in Hseed, HP. subst r0.
  destruct (Process F W (Parallel F) sched v0) as [v'|]; [|done].
  intros [= <- _]. by apply HP.
Qed.

(** ** The visited set is the set of enqueued identifiers *)

Lemma pendE_bind_cons {A B : Type} (m : M A) (f : A -> M B) x :
  pendE m = [x] -> pendE (bind m f) = [x].
Proof. by destruct m. Qed.

Lemma eager_bind {A B : Type} (m : M A) (f : A -> M B) :
  eager m -> (forall a, eager (f a)) -> eager (bind m f).
Proof.
  intros Hm Hf. induction m as [a | X a k IH]; [apply Hf|].
  destruct Hm as [Ha Hk]. split; [|intros x; apply IH, Hk].
  destruct a; cbn in *; try done. by apply pendE_bind_cons.
Qed.

Lemma eager_call {X : Type} (a : action X) :
  pushes_after a (Ret (A:=X)) -> eager (call a).
Proof. by split. Qed.

Lemma eager_enqueueVerifyDirectory oid path :
  eager (enqueueVerifyDirectory oid path).
Proof. split; [done|]. by intros [|]. Qed.

Lemma eager_enqueueVerifyObject oid path len :
  eager (enqueueVerifyObject oid path len).
Proof. split; [done|]. by intros [|]. Qed.

Lemma eager_forEntries path entries : eager (forEntries path entries).
Proof.
  induction entries as [|e rest IH]; [done|].
  cbn [forEntries]. apply eager_bind; [by apply eager_call|].
  intros [|]; [done|]. apply eager_bind; [|intros _; exact IH].
  unfold enqueueEntry. destruct (IsDir e);
    [apply eager_enqueueVerifyDirectory | apply eager_enqueueVerifyObject].
Qed.

Lemma eager_report {A : Type} path err (m : M A) :
  eager m -> eager (call (ReportError path err) ;; m).
Proof. intros Hm. apply eager_bind; [by apply eager_call | done]. Qed.

Lemma eager_run_task F t : eager (run_task F t).
Proof.
  destruct t as [oid path | oid path len]; cbn [run_task].
  - unfold doVerifyDirectory. apply eager_bind; [by apply eager_call|].
    intros [entries | err]; [apply eager_forEntries | by apply eager_report].
  - unfold doVerifyObject. apply eager_bind; [by apply eager_call|].
    intros [n err]. apply eager_bind.
    { destruct err; [by apply eager_report | done]. }
    intros _. apply eager_bind.
    { destruct (_ && _); [by apply eager_report | done]. }
    intros _. apply eager_bind; [by apply eager_call|].
    intros x. destruct (x <? FilesPercent F); [|done].
    apply eager_bind.
    + unfold readEntireObject. apply eager_bind; [by apply eager_call|].
      by intros [rd | e].
    + intros [e|]; [by apply eager_report | done].
Qed.

Lemma eager_enqueueManifests manifests : eager (enqueueManifests manifests).
Proof.
  induction manifests as [|man rest IH]; [done|].
  cbn [enqueueManifests]. destruct (RootEntry man) as [re|]; [|exact IH].
  apply eager_bind; [|intros _; exact IH].
  destruct (Type_ re);
    first [apply eager_enqueueVerifyDirectory
          | apply eager_enqueueVerifyObject].
Qed.

Lemma eager_enqueueDirObjectIDs W ids : eager (enqueueDirObjectIDs W ids).
Proof.
  induction ids as [|oidStr rest IH]; [done|].
  cbn [enqueueDirObjectIDs]. destruct (parseObjectID W oidStr); [|done].
  apply eager_bind; [apply eager_enqueueVerifyDirectory | intros _; exact IH].
Qed.

Lemma eager_enqueueFileObjectIDs W ids : eager (enqueueFileObjectIDs W ids).
Proof.
  induction ids as [|oidStr rest IH]; [done|].
  cbn [enqueueFileObjectIDs]. destruct (parseObjectID W oidStr); [|done].
  apply eager_bind; [apply eager_enqueueVerifyObject | intros _; exact IH].
Qed.

Lemma eager_enqueueRootsToVerify F W : eager (enqueueRootsToVerify F W).
Proof.
  unfold enqueueRootsToVerify.
  destruct (loadSourceManifests F W); [|done].
  apply eager_bind; [apply eager_enqueueManifests|]. intros _.
  apply eager_bind; [apply eager_enqueueDirObjectIDs|].
  intros [e|]; [done | apply eager_enqueueFileObjectIDs].
Qed.

Lemma seen_enqueued_perm v pe pe' :
  pe ≡ₚ pe' -> seen_enqueued v pe -> seen_enqueued v pe'.
Proof.
  intros Hp H x b Hx. destruct (H x b Hx) as [-> Hin]. split; [done|].
  by rewrite <- Hp.
Qed.

Lemma seen_enqueued_more v pe extra :
  seen_enqueued v pe -> seen_enqueued v (extra ++ pe).
Proof.
  intros H x b Hx. destruct (H x b Hx) as [-> Hin]. split; [done|].
  apply elem_of_app in Hin as [Hin | Hin]; apply elem_of_app;
    [by left | right; apply elem_of_app; by right].
Qed.

Lemma perform_seen_enqueued {A X : Type} F W (a : action X) (k : X -> M A)
    v pe :
  pushes_after a k ->
  seen_enqueued v (pendE (Act a k) ++ pe) ->
  seen_enqueued (perform F W a v).1 (pendE (k (perform F W a v).2) ++ pe).
Proof.
  intros Hk H.
  destruct a; cbn [perform pendE pushes_after app fst snd] in *;
    try (by apply seen_enqueued_more).
  - unfold shouldEnqueue.
    destruct (default false (seen v !! oid)); cbn [fst snd];
      [by apply seen_enqueued_more|].
    rewrite Hk. intros x b. cbn [set_seen seen enqueued].
    destruct (decide (oid = x)) as [-> | Hne].
    + rewrite lookup_insert_eq. intros [= <-]. split; [done|].
      rewrite elem_of_app. right. by left.
    + rewrite lookup_insert_ne by done. intros Hx.
      destruct (H x b Hx) as [-> Hin]. split; [done|].
      rewrite !elem_of_app in Hin |- *. destruct Hin; [by left|].
      right. by right.
  - intros x b Hx. destruct (H x b Hx) as [-> Hin]. split; [done|].
    cbn [push_front enqueued]. rewrite map_app. cbn [map].
    apply elem_of_app in Hin as [Hin | Hin].
    + apply elem_of_app; left; apply elem_of_app; by left.
    + apply elem_of_cons in Hin as [-> | Hin].
      * apply elem_of_app; left; apply elem_of_app; right; by left.
      * apply elem_of_app; right; apply elem_of_app; by right.
  - intros x b Hx. destruct (H x b Hx) as [-> Hin]. split; [done|].
    cbn [push_back enqueued]. rewrite map_app. cbn [map].
    apply elem_of_app in Hin as [Hin | Hin].
    + apply elem_of_app; left; apply elem_of_app; by left.
    + apply elem_of_cons in Hin as [-> | Hin].
      * apply elem_of_app; left; apply elem_of_app; right; by left.
      * apply elem_of_app; right; apply elem_of_app; by right.
Qed.

Lemma run_seen_enqueued {A : Type} F W (p : M A) v pe :
  eager p -> seen_enqueued v (pendE p ++ pe) ->
  seen_enqueued (run F W p v).1 pe.
Proof.
  revert v. induction p as [a | X a k IH]; intros v Hp H; [done|].
  destruct Hp as [Ha Hk]. cbn [run].
  pose proof (perform_seen_enqueued F W a k v pe Ha H) as Hn.
  destruct (perform F W a v) as [v' x]. by apply IH.
Qed.

Lemma step_seen_enqueued F W i c :
  seen_enqueued (shared c) (workers c ≫= pendE)
  /\ Forall eager (workers c) ->
  seen_enqueued (shared (step F W i c)) (workers (step F W i c) ≫= pendE)
  /\ Forall eager (workers (step F W i c)).
Proof.
  intros [H Hws]. unfold step.
  destruct (workers c !! i) as [w|] eqn:Hi; [|done].
  assert (Hw : eager w) by (rewrite Forall_forall in Hws; apply Hws;
                            eapply list_elem_of_lookup_2; eauto).
  destruct w as [[] | X a k].
  - destruct (workQueue (shared c)) as [|t q] eqn:Hq; [done|].
    split; [|apply Forall_insert; [done | apply eager_run_task]].
    cbn [shared workers].
    destruct (insert_bind_Permutation pendE _ i _ (run_task F t) Hi)
      as [PE1 PE2].
    eapply seen_enqueued_perm; [symmetry; exact PE2|].
    eapply seen_enqueued_perm in H; [|exact PE1].
    apply seen_enqueued_more. exact H.
  - destruct Hw as [Ha Hk].
    destruct (insert_bind_Permutation pendE _ i _
                (k (perform F W a (shared c)).2) Hi) as [PE1 PE2].
    eapply seen_enqueued_perm in H; [|exact PE1].
    pose proof (perform_seen_enqueued F W a k _ _ Ha H) as Hn.
    destruct (perform F W a (shared c)) as [v' x]. cbn [fst snd] in *.
    split; [|by apply Forall_insert]. cbn [shared workers].
    eapply seen_enqueued_perm; [symmetry; exact PE2 | done].
Qed.

Lemma steps_seen_enqueued F W sched c :
  seen_enqueued (shared c) (workers c ≫= pendE)
  /\ Forall eager (workers c) ->
  seen_enqueued (shared (steps F W sched c))
    (workers (steps F W sched c) ≫= pendE).
Proof.
  revert c. induction sched as [|i sched IH]; intros c Hc; [by destruct Hc|].
  apply (IH (step F W i c)). by apply step_seen_enqueued.
Qed.

Lemma seeding_seen_enqueued F W :
  seen_enqueued (run F W (enqueueRootsToVerify F W) new_verifier).1 [].
Proof.
  apply run_seen_enqueued; [apply eager_enqueueRootsToVerify|].
  intros x b Hx. cbn in Hx. by rewrite lookup_empty in Hx.
Qed.

(** In the state returned by a run, with no action pending. *)
Lemma result_seen_enqueued F W sched v r :
  runVerifyCommand F W sched = Some (v, r) ->
  seen_enqueued v [] /\ inv v [] [].
Proof.
  unfold runVerifyCommand.
  pose proof (seeding_seen_enqueued F W) as Hs.
  pose proof (seeding_inv F W) as Hi.
  destruct (run F W (enqueueRootsToVerify F W) new_verifier) as [v0 [e|]].
  { by intros [= <- _]. }
  destruct (Z.le_gt_cases (Parallel F) 0) as [Hle | Hpar].
  { rewrite Process_no_worker by done. by intros [= <- _]. }
  rewrite Process_workers by done.
  destruct (drained _) eqn:Hd; [|done]. intros [= <- _].
  set (c := steps F W sched _) in *.
  assert (Hidle : forallb idle (workers c) = true).
  { unfold drained in Hd. by destruct (workQueue (shared c)). }
  destruct (idle_pend _ Hidle) as (_ & EV & EE).
  destruct (idle_pend _ (start_pool_pend (Parallel F) v0)) as (_ & EV0 & EE0).
  split.
  - assert (H : seen_enqueued (shared c) (workers c ≫= pendE)).
    { apply steps_seen_enqueued. split.
      - by rewrite EE0.
      - apply Forall_forall. intros w Hw.
        apply elem_of_replicate in Hw as [-> _]. done. }
    by rewrite EE in H.
  - assert (H : pool_inv c) by (apply steps_inv, start_pool_inv; exact Hi).
    destruct H as [H _]. by rewrite EE, EV in H.
Qed.

(** X4.  In the state a run returns, the visited set is exactly the set of
    identifiers that were handed to the queue: the map holds no [false],
    an identifier is in it if and only if a task with that identifier was
    enqueued, and its size is the number of tasks enqueued. *)
Theorem visited_set_is_enqueued_set :
  forall (F : flags) (W : world) (sched : list nat) (v : verifier)
         (r : option error),
    runVerifyCommand F W sched = Some (v, r) ->
    (forall x, seen v !! x <> Some false)
    /\ (forall x, seen v !! x = Some true <-> x ∈ map task_oid (enqueued v))
    /\ size (seen v) = length (enqueued v).
Proof.
  intros F W sched v r Hrun.
  destruct (result_seen_enqueued F W sched v r Hrun)
    as [Hse (Hnd & Hsub & _)].
  rewrite app_nil_r in Hnd.
  assert (Hiff : forall x,
            seen v !! x = Some true <-> x ∈ map task_oid (enqueued v)).
  { intros x. split.
    - intros Hx. destruct (Hse x true Hx) as [_ Hin].
      by rewrite app_nil_r in Hin.
    - intros Hin. apply Hsub. by rewrite app_nil_r. }
  split; [|split; [exact Hiff|]].
  - intros x Hx. by destruct (Hse x false Hx).
  - rewrite <- size_dom, <- (length_map task_oid).
    rewrite <- (size_list_to_set (C:=gset string)) by exact Hnd.
    f_equal. apply set_eq. intros x.
    rewrite elem_of_dom, elem_of_list_to_set, <- Hiff. split.
    + intros [b Hb]. by destruct (Hse x b Hb) as [-> _].
    + intros Hx. by exists true.
Qed.

(** X5.  The visited set is keyed by the identifier alone.  Once an
    identifier is in it, enqueueing it again does nothing, whatever the
    kind of task, the path or the expected length: of two enqueue
    operations with the same identifier only the first takes effect, so a
    second reference to an object is verified neither as the other kind
    nor against another recorded size. *)
Theorem enqueue_first_reference_wins :
  forall (F : flags) (W : world) (oid : string) (v : verifier),
    (forall path,
       seen v !! oid = Some true ->
       run F W (enqueueVerifyDirectory oid path) v = (v, tt))
    /\ (forall path len,
          seen v !! oid = Some true ->
          run F W (enqueueVerifyObject oid path len) v = (v, tt))
    /\ (forall p1 p2 len,
          run F W (enqueueVerifyDirectory oid p1 ;;
                   enqueueVerifyObject oid p2 len) v
          = run F W (enqueueVerifyDirectory oid p1) v)
    /\ (forall p1 p2 len,
          run F W (enqueueVerifyObject oid p1 len ;;
                   enqueueVerifyDirectory oid p2) v
          = run F W (enqueueVerifyObject oid p1 len) v)
    /\ (forall p1 p2,
          run F W (enqueueVerifyDirectory oid p1 ;;
                   enqueueVerifyDirectory oid p2) v
          = run F W (enqueueVerifyDirectory oid p1) v)
    /\ (forall p1 p2 len1 len2,
          run F W (enqueueVerifyObject oid p1 len1 ;;
                   enqueueVerifyObject oid p2 len2) v
          = run F W (enqueueVerifyObject oid p1 len1) v).
Proof.
  intros F W oid v.
  assert (HD : forall v' path, seen v' !! oid = Some true ->
             run F W (enqueueVerifyDirectory oid path) v' = (v', tt)).
  { intros v' path Hs. unfold enqueueVerifyDirectory. cbn.
    unfold shouldEnqueue. by rewrite Hs. }
  assert (HO : forall v' path len, seen v' !! oid = Some true ->
             run F W (enqueueVerifyObject oid path len) v' = (v', tt)).
  { intros v' path len Hs. unfold enqueueVerifyObject. cbn.
    unfold shouldEnqueue. by rewrite Hs. }
  assert (HsD : forall path,
            seen (run F W (enqueueVerifyDirectory oid path) v).1 !! oid
            = Some true).
  { intros path. unfold enqueueVerifyDirectory. cbn. unfold shouldEnqueue.
    destruct (seen v !! oid) as [[|]|] eqn:Hs; cbn;
      by rewrite ?Hs, ?lookup_insert_eq. }
  assert (HsO : forall path len,
            seen (run F W (enqueueVerifyObject oid path len) v).1 !! oid
            = Some true).
  { intros path len. unfold enqueueVerifyObject. cbn. unfold shouldEnqueue.
    destruct (seen v !! oid) as [[|]|] eqn:Hs; cbn;
      by rewrite ?Hs, ?lookup_insert_eq. }
  split; [apply HD|]. split; [apply HO|].
  split; [|split; [|split]].
  - intros p1 p2 len. rewrite run_bind. specialize (HsD p1).
    destruct (run F W (enqueueVerifyDirectory oid p1) v) as [v1 []].
    by apply HO.
  - intros p1 p2 len. rewrite run_bind. specialize (HsO p1 len).
    destruct (run F W (enqueueVerifyObject oid p1 len) v) as [v1 []].
    by apply HD.
  - intros p1 p2. rewrite run_bind. specialize (HsD p1).
    destruct (run F W (enqueueVerifyDirectory oid p1) v) as [v1 []].
    by apply HD.
  - intros p1 p2 len1 len2. rewrite run_bind. specialize (HsO p1 len1).
    destruct (run F W (enqueueVerifyObject oid p1 len1) v) as [v1 []].
    by apply HO.
Qed.

(** An identifier given both as a directory and as a file is handled as a
    directory only: directories are seeded first. *)
Example directory_and_file_example :
  exists v,
    runVerifyCommand
      {| ErrorThreshold := 0; DirObjectIDs := ["d"]; FileObjectIDs := ["d"];
         AllSources := false; Sources := []; Parallel := 1;
         FilesPercent := 0 |}
      quiet_world (replicate 2 0%nat) = Some (v, None)
    /\ enqueued v = [VerifyDirectoryTask "d" "d"]
    /\ calls v = [CReaddir "d"].
Proof. eexists. split; [vm_compute; reflexivity|]. by split. Qed.

(** ** The traversal is complete when the budget holds *)

Lemma perform_listed {X : Type} F W (a : action X) v :
  listed (calls (perform F W a v).1)
  = listed (calls v)
    ++ match a with CallReaddir d => [d] | _ => [] end.
Proof.
  destruct a; cbn; rewrite ?listed_snoc, ?app_nil_r; try done.
  unfold shouldEnqueue. by destruct (default false _).
Qed.

Lemma perform_allowed {X : Type} F W (a : action X) v :
  tooManyErrors F v = false -> allowed a (perform F W a v).2.
Proof. intros Hb. by destruct a. Qed.

Lemma hits_seen {X : Type} F W (a : action X) v x :
  hits x a -> seen (perform F W a v).1 !! x = Some true.
Proof.
  destruct a; cbn; try done. intros ->. unfold shouldEnqueue.
  destruct (seen v !! x) as [[|]|] eqn:Hs; cbn;
    by rewrite ?Hs, ?lookup_insert_eq.
Qed.

Lemma covers_bind_r {A B : Type} x (m : M A) (f : A -> M B) :
  (forall a, covers x (f a)) -> covers x (bind m f).
Proof.
  intros Hf. induction m as [a | X a k IH]; [apply Hf|].
  right. intros r _. apply IH.
Qed.

Lemma covers_bind_l {A B : Type} x (m : M A) (f : A -> M B) :
  covers x m -> covers x (bind m f).
Proof.
  induction m as [a | X a k IH]; [done|].
  intros [Hh | Hk]; [by left|]. right. intros r Hr. by apply IH, Hk.
Qed.

Lemma covers_forEntries path entries e :
  e ∈ entries -> covers (ObjectID e) (forEntries path entries).
Proof.
  induction entries as [|e0 rest IH]; intros Hin;
    [by apply elem_of_nil in Hin|].
  cbn [forEntries]. right. intros r Hr. cbn in Hr. subst r. cbn [bind].
  apply elem_of_cons in Hin as [-> | Hin].
  - apply covers_bind_l. unfold enqueueEntry.
    destruct (IsDir e0); by left.
  - apply covers_bind_r. intros _. by apply IH.
Qed.

Lemma lists_all_run_task F W t : lists_all W (run_task F t).
Proof.
  destruct t as [oid path | oid path len]; [|done].
  intros es e Hd He. by apply covers_forEntries.
Qed.

Lemma no_start_lists_all {A : Type} W (p : M A) :
  every no_start p -> lists_all W p.
Proof. destruct p as [|X a k]; [done|]. intros [Ha _]. by destruct a. Qed.

Lemma new_listing_covered {A X : Type} F W (a : action X) (k : X -> M A)
    v d es e :
  d ∈ match a with CallReaddir d' => [d'] | _ => [] end ->
  lists_all W (Act a k) -> Readdir W d = Ok es -> e ∈ es ->
  covers (ObjectID e) (k (perform F W a v).2).
Proof.
  intros Hd Hl Hr He.
  destruct a; try (by apply elem_of_nil in Hd).
  apply list_elem_of_singleton in Hd. subst oid. cbn [perform snd].
  rewrite Hr. by apply Hl.
Qed.

Lemma step_closed F W i c :
  tooManyErrors F (shared c) = false ->
  closed_so_far W (shared c) (workers c)
  /\ Forall (lists_all W) (workers c)
  /\ Forall (after_first no_start) (workers c) ->
  closed_so_far W (shared (step F W i c)) (workers (step F W i c))
  /\ Forall (lists_all W) (workers (step F W i c))
  /\ Forall (after_first no_start) (workers (step F W i c)).
Proof.
  intros Hbudget (Hcl & Hla & Hns). unfold step.
  destruct (workers c !! i) as [w|] eqn:Hi; [|done].
  assert (Hlt : (i < length (workers c))%nat)
    by (apply lookup_lt_is_Some; eauto).
  assert (Hwl : lists_all W w) by (rewrite Forall_forall in Hla; apply Hla;
                                   eapply list_elem_of_lookup_2; eauto).
  assert (Hwn : after_first no_start w)
    by (rewrite Forall_forall in Hns; apply Hns;
        eapply list_elem_of_lookup_2; eauto).
  destruct w as [[] | X a k].
  - destruct (workQueue (shared c)) as [|t q] eqn:Hq; [done|].
    split; [|split].
    + intros d es e Hd Hr He. cbn [shared set_workQueue calls seen workers].
      destruct (Hcl d es e Hd Hr He) as [Hs | (j & w & Hj & Hc)];
        [by left|].
      destruct (decide (j = i)) as [-> | Hne].
      * rewrite Hi in Hj. injection Hj as <-. done.
      * right. exists j, w. by rewrite list_lookup_insert_ne.
    + apply Forall_insert; [done | apply lists_all_run_task].
    + apply Forall_insert; [done|]. apply admits_run_task, admits_no_start.
  - cbn [after_first] in Hwn.
    pose proof (perform_listed F W a (shared c)) as HL.
    pose proof (perform_allowed F W a (shared c) Hbudget) as HA.
    pose proof (fun x => hits_seen F W a (shared c) x) as HH.
    pose proof (fun d es e => new_listing_covered F W a k (shared c) d es e)
      as HN.
    pose proof (fun x => perform_seen F W a (shared c) x) as HS.
    specialize (Hwn (perform F W a (shared c)).2).
    destruct (perform F W a (shared c)) as [v' r]. cbn [fst snd] in *.
    split; [|split].
    + intros d es e Hd Hr He. cbn [shared workers] in Hd |- *.
      rewrite HL in Hd. apply elem_of_app in Hd as [Hd | Hd].
      * destruct (Hcl d es e Hd Hr He) as [Hs | (j & w & Hj & Hc)];
          [left; by apply HS|].
        destruct (decide (j = i)) as [-> | Hne].
        -- rewrite Hi in Hj. injection Hj as <-.
           destruct Hc as [Hh | Hk]; [left; by apply HH|].
           right. exists i, (k r). split; [by apply list_lookup_insert_eq|].
           by apply Hk.
        -- right. exists j, w. by rewrite list_lookup_insert_ne.
      * right. exists i, (k r). split; [by apply list_lookup_insert_eq|].
        by apply (HN d es e).
    + apply Forall_insert; [done | by apply no_start_lists_all].
    + apply Forall_insert; [done | by apply every_after_first].
Qed.

Lemma steps_closed F W sched c :
  tooManyErrors F (shared (steps F W sched c)) = false ->
  closed_so_far W (shared c) (workers c)
  /\ Forall (lists_all W) (workers c)
  /\ Forall (after_first no_start) (workers c) ->
  closed_so_far W (shared (steps F W sched c)) (workers (steps F W sched c)).
Proof.
  revert c. induction sched as [|i sched IH]; intros c Hb Hc;
    [by destruct Hc|].
  change (steps F W (i :: sched) c) with (steps F W sched (step F W i c))
    in Hb |- *.
  apply IH; [done|]. apply step_closed; [|done].
  destruct (tooManyErrors F (shared c)) eqn:Hc0; [|done].
  destruct (steps_errors F W (i :: sched) c) as (more & E).
  change (steps F W (i :: sched) c) with (steps F W sched (step F W i c)) in E.
  by rewrite (tooManyErrors_mono F _ _ more E Hc0) in Hb.
Qed.

Lemma enqueueVerifyDirectory_seen F W oid path v :
  seen (run F W (enqueueVerifyDirectory oid path) v).1 !! oid = Some true.
Proof.
  unfold enqueueVerifyDirectory. cbn. unfold shouldEnqueue.
  destruct (seen v !! oid) as [[|]|] eqn:Hs; cbn;
    by rewrite ?Hs, ?lookup_insert_eq.
Qed.

Lemma enqueueVerifyObject_seen F W oid path len v :
  seen (run F W (enqueueVerifyObject oid path len) v).1 !! oid = Some true.
Proof.
  unfold enqueueVerifyObject. cbn. unfold shouldEnqueue.
  destruct (seen v !! oid) as [[|]|] eqn:Hs; cbn;
    by rewrite ?Hs, ?lookup_insert_eq.
Qed.

Lemma run_bind_fst_seen {A B : Type} F W (m : M A) (f : A -> M B) v x :
  seen (run F W m v).1 !! x = Some true ->
  seen (run F W (bind m f) v).1 !! x = Some true.
Proof.
  rewrite run_bind. destruct (run F W m v) as [v1 a]. apply run_seen.
Qed.

Lemma enqueueManifests_seen F W manifests man re v :
  man ∈ manifests -> RootEntry man = Some re ->
  seen (run F W (enqueueManifests manifests) v).1 !! RootObjectID re
  = Some true.
Proof.
  intros Hin Hre. revert v.
  induction manifests as [|m0 rest IH]; intros v;
    [by apply elem_of_nil in Hin|].
  cbn [enqueueManifests].
  apply elem_of_cons in Hin as [<- | Hin].
  - rewrite Hre. apply run_bind_fst_seen.
    destruct (Type_ re);
      first [apply enqueueVerifyDirectory_seen
            | apply enqueueVerifyObject_seen].
  - destruct (RootEntry m0) as [re0|]; [|by apply IH].
    rewrite run_bind. destruct (run F W _ v) as [v1 []]. by apply IH.
Qed.

Lemma enqueueDirObjectIDs_seen F W ids s oid v :
  first_parse_error W ids = None ->
  s ∈ ids -> parseObjectID W s = Ok oid ->
  seen (run F W (enqueueDirObjectIDs W ids) v).1 !! oid = Some true.
Proof.
  intros Hok Hin Hs. revert v.
  induction ids as [|s0 rest IH]; intros v; [by apply elem_of_nil in Hin|].
  cbn [enqueueDirObjectIDs first_parse_error] in *.
  destruct (parseObjectID W s0) as [oid0|] eqn:H0; [|done].
  apply elem_of_cons in Hin as [-> | Hin].
  - rewrite Hs in H0. injection H0 as <-.
    apply run_bind_fst_seen, enqueueVerifyDirectory_seen.
  - rewrite run_bind. destruct (run F W _ v) as [v1 []]. by apply IH.
Qed.

Lemma enqueueFileObjectIDs_seen F W ids s oid v :
  first_parse_error W ids = None ->
  s ∈ ids -> parseObjectID W s = Ok oid ->
  seen (run F W (enqueueFileObjectIDs W ids) v).1 !! oid = Some true.
Proof.
  intros Hok Hin Hs. revert v.
  induction ids as [|s0 rest IH]; intros v; [by apply elem_of_nil in Hin|].
  cbn [enqueueFileObjectIDs first_parse_error] in *.
  destruct (parseObjectID W s0) as [oid0|] eqn:H0; [|done].
  apply elem_of_cons in Hin as [-> | Hin].
  - rewrite Hs in H0. injection H0 as <-.
    apply run_bind_fst_seen, enqueueVerifyObject_seen.
  - rewrite run_bind. destruct (run F W _ v) as [v1 []]. by apply IH.
Qed.

(** When seeding succeeds, every root is in the visited set. *)
Lemma seeding_roots F W oid :
  (run F W (enqueueRootsToVerify F W) new_verifier).2 = None ->
  is_root F W oid ->
  seen (run F W (enqueueRootsToVerify F W) new_verifier).1 !! oid
  = Some true.
Proof.
  unfold is_root, enqueueRootsToVerify.
  destruct (loadSourceManifests F W) as [ms | err]; [|done].
  intros Hres Hroot.
  rewrite !run_bind_snd, enqueueDirObjectIDs_result in Hres.
  destruct (first_parse_error W (DirObjectIDs F)) as [e|] eqn:Hdirs;
    [done|].
  rewrite enqueueFileObjectIDs_result in Hres.
  destruct Hroot as [(ms' & man & re & [= <-] & Hin & Hre & <-)
                    | [(s & Hin & Hs) | (s & Hin & Hs)]].
  - apply run_bind_fst_seen. by eapply enqueueManifests_seen.
  - rewrite run_bind. destruct (run F W _ new_verifier) as [v1 []].
    apply run_bind_fst_seen. by eapply enqueueDirObjectIDs_seen.
  - rewrite run_bind. destruct (run F W _ new_verifier) as [v1 []].
    rewrite run_bind.
    pose proof (enqueueDirObjectIDs_result F W (DirObjectIDs F) v1) as Hr.
    destruct (run F W (enqueueDirObjectIDs W (DirObjectIDs F)) v1)
      as [v2 r2]. cbn in Hr. rewrite Hdirs in Hr. subst r2.
    by eapply enqueueFileObjectIDs_seen.
Qed.

Lemma task_oid_kinds ts x :
  x ∈ map task_oid ts -> x ∈ dir_ids ts \/ x ∈ obj_ids ts.
Proof.
  unfold dir_ids, obj_ids. rewrite list_elem_of_fmap, !list_elem_of_omap.
  intros (t & -> & Hin). destruct t as [oid p | oid p l];
    [left | right]; by eexists (_).
Qed.

(** When the roots resolve and the run returns, every identifier of the
    visited set was listed or verified. *)
Lemma returned_started F W sched v r :
  0 < Parallel F ->
  (run F W (enqueueRootsToVerify F W) new_verifier).2 = None ->
  runVerifyCommand F W sched = Some (v, r) ->
  forall x, seen v !! x = Some true ->
            x ∈ listed (calls v) ++ verified (calls v).
Proof.
  intros Hpar Hseed Hrun.
  destruct (result_seen_enqueued F W sched v r Hrun) as [Hse _].
  intros x Hx. destruct (Hse x true Hx) as [_ Hin].
  rewrite app_nil_r in Hin.
  pose proof (Process_accounted F W sched v) as Hacc.
  unfold runVerifyCommand in Hrun.
  destruct (run F W (enqueueRootsToVerify F W) new_verifier) as [v0 r0].
  cbn in Hseed, Hacc. subst r0.
  destruct (Process F W (Parallel F) sched v0) as [v'|]; [|done].
  injection Hrun as <- _. destruct (Hacc Hpar eq_refl) as [HD HO].
  apply elem_of_app.
  destruct (task_oid_kinds _ _ Hin) as [Hd | Ho];
    [left; by rewrite <- HD | right; by rewrite <- HO].
Qed.

(** When the roots resolve and the run returns, the roots are in the
    visited set, and so are, when the budget holds, the entries of the
    directories that were listed. *)
Lemma returned_seen F W sched v r :
  0 < Parallel F ->
  (run F W (enqueueRootsToVerify F W) new_verifier).2 = None ->
  runVerifyCommand F W sched = Some (v, r) ->
  (forall oid, is_root F W oid -> seen v !! oid = Some true)
  /\ (tooManyErrors F v = false ->
      forall d es e,
        d ∈ listed (calls v) -> Readdir W d = Ok es -> e ∈ es ->
        seen v !! ObjectID e = Some true).
Proof.
  intros Hpar Hseed Hrun.
  pose proof (seeding_roots F W) as Hroots.
  pose proof (keeps_enqueueRootsToVerify F W new_verifier) as (_ & _ & Hc & _).
  unfold runVerifyCommand in Hrun.
  destruct (run F W (enqueueRootsToVerify F W) new_verifier) as [v0 r0].
  cbn in Hseed, Hroots, Hc. subst r0.
  rewrite Process_workers in Hrun by done.
  destruct (drained _) eqn:Hd; [|done].
  injection Hrun as <- _.
  set (c := steps F W sched (start_pool (Parallel F) v0)) in *.
  split.
  - intros oid Hroot. apply steps_seen. by apply Hroots.
  - intros Hbudget d es e Hl Hr He.
    assert (Hcl : closed_so_far W (shared c) (workers c)).
    { apply steps_closed; [done|]. split; [|split].
      - intros d' es' e' Hd'. cbn in Hd'. rewrite Hc in Hd'.
        by apply elem_of_nil in Hd'.
      - apply Forall_forall. intros w Hw.
        apply elem_of_replicate in Hw as [-> _]. done.
      - apply Forall_forall. intros w Hw.
        apply elem_of_replicate in Hw as [-> _]. done. }
    destruct (Hcl d es e Hl Hr He) as [Hs | (j & w & Hj & Hcov)]; [done|].
    exfalso. unfold drained in Hd.
    destruct (workQueue (shared c)); [|done].
    rewrite forallb_forall in Hd.
    apply list_elem_of_lookup_2, list_elem_of_In, Hd in Hj.
    by destruct w.
Qed.

(** X6.  With at least one worker, when the roots resolve and the run
    returns with the error budget not exhausted (always so when the
    threshold is 0), the traversal is complete: every root was listed or
    verified, and so was every entry of every directory that was listed.
    (With no worker the run returns at once with nothing listed.) *)
Theorem traversal_is_complete :
  forall (F : flags) (W : world) (sched : list nat) (v : verifier)
         (r : option error),
    0 < Parallel F ->
    (run F W (enqueueRootsToVerify F W) new_verifier).2 = None ->
    runVerifyCommand F W sched = Some (v, r) ->
    tooManyErrors F v = false ->
    (forall oid,
       is_root F W oid -> oid ∈ listed (calls v) ++ verified (calls v))
    /\ (forall d es e,
          d ∈ listed (calls v) -> Readdir W d = Ok es -> e ∈ es ->
          ObjectID e ∈ listed (calls v) ++ verified (calls v)).
Proof.
  intros F W sched v r Hpar Hseed Hrun Hbudget.
  pose proof (returned_started F W sched v r Hpar Hseed Hrun) as Hstarted.
  destruct (returned_seen F W sched v r Hpar Hseed Hrun) as [Hroots Hclosed].
  split.
  - intros oid Hroot. by apply Hstarted, Hroots.
  - intros d es e Hl Hr He. apply Hstarted. by apply (Hclosed Hbudget d es e).
Qed.

(** The repository with five damaged files, threshold 0, two workers
    taking turns. *)
Lemma every_enqueued_task_is_started_once_witness :
  exists v r,
    runVerifyCommand five_flags five_world (turns 45) = Some (v, r)
    /\ dir_ids (enqueued v) ≡ₚ listed (calls v)
    /\ obj_ids (enqueued v) ≡ₚ verified (calls v).
Proof.
  destruct (runVerifyCommand five_flags five_world (turns 45))
    as [[v r]|] eqn:Hrun; [|vm_compute in Hrun; discriminate].
  exists v, r. split; [reflexivity|].
  exact (every_enqueued_task_is_started_once five_flags five_world
           (turns 45) v r eq_refl eq_refl Hrun).
Defined.

Lemma visited_set_is_enqueued_set_witness :
  exists v r,
    runVerifyCommand five_flags five_world (turns 45) = Some (v, r)
    /\ size (seen v) = length (enqueued v)
    /\ length (enqueued v) = 12%nat.
Proof.
  destruct (runVerifyCommand five_flags five_world (turns 45))
    as [[v r]|] eqn:Hrun; [|vm_compute in Hrun; discriminate].
  exists v, r. split; [reflexivity|]. split.
  - exact (proj2 (proj2 (visited_set_is_enqueued_set five_flags five_world
                           (turns 45) v r Hrun))).
  - vm_compute in Hrun. by injection Hrun as <- _.
Defined.

Lemma traversal_is_complete_witness :
  exists v r,
    runVerifyCommand five_flags five_world (turns 45) = Some (v, r)
    /\ tooManyErrors five_flags v = false
    /\ (forall d es e,
          d ∈ listed (calls v) -> Readdir five_world d = Ok es -> e ∈ es ->
          ObjectID e ∈ listed (calls v) ++ verified (calls v)).
Proof.
  destruct (runVerifyCommand five_flags five_world (turns 45))
    as [[v r]|] eqn:Hrun; [|vm_compute in Hrun; discriminate].
  exists v, r. split; [reflexivity|]. split; [reflexivity|].
  exact (proj2 (traversal_is_complete five_flags five_world (turns 45) v r
                  eq_refl eq_refl Hrun eq_refl)).
Defined.

(** ** The run ends, an instance *)

Lemma assoc_Some_elem {A : Type} (l : list (string * A)) key a :
  assoc l key = Some a -> exists k, (k, a) ∈ l.
Proof.
  induction l as [|[k0 a0] l IH]; [done|]. cbn [assoc].
  destruct (String.eqb k0 key).
  - intros [= <-]. exists k0. by left.
  - intros H. destruct (IH H) as [k Hk]. exists k. by right.
Qed.

Lemma five_listings_within : listings_within five_world five_ids.
Proof.
  intros oid entries e Hr He. unfold five_world in Hr. cbn [Readdir] in Hr.
  destruct (assoc five_listing oid) as [es|] eqn:Ha; [|done].
  injection Hr as <-. apply assoc_Some_elem in Ha as [k Hk].
  assert (Hall : Forall (fun p : string * list Entry =>
                           Forall (fun e => ObjectID e ∈ five_ids) p.2)
                   five_listing).
  { apply (bool_decide_unpack _). vm_compute. exact I. }
  rewrite Forall_forall in Hall. specialize (Hall _ Hk). cbn in Hall.
  rewrite Forall_forall in Hall. by apply Hall.
Qed.

(** The repository with five damaged files lists identifiers of
    [five_ids] only and the flags ask for two workers: some schedule makes
    the run return. *)
Lemma run_terminates_witness :
  0 < Parallel five_flags
  /\ exists sched v r, runVerifyCommand five_flags five_world sched = Some (v, r).
Proof.
  split; [reflexivity|].
  exact (run_terminates five_flags five_world five_ids eq_refl
           five_listings_within).
Defined.

(** ** Loading the manifests of the sources *)

Lemma sourceManifestIDs_Ok W acc sources srcs :
  Forall2 (fun s src => ParseSourceInfo W s = Ok src) sources srcs ->
  sourceManifestIDs W acc sources
  = Ok (acc ++ (srcs ≫= fun src => ListSnapshotManifests W (Some src))).
Proof.
  intros H. revert acc. induction H as [|s src sources srcs Hs _ IH];
    intros acc; cbn [sourceManifestIDs].
  - by rewrite app_nil_r.
  - rewrite Hs, IH, bind_cons. by rewrite app_assoc.
Qed.

Lemma sourceManifestIDs_first_Err W acc before s after e :
  Forall (fun s' => exists src, ParseSourceInfo W s' = Ok src) before ->
  ParseSourceInfo W s = Err e ->
  sourceManifestIDs W acc (before ++ s :: after) = Err (ErrParsing s e).
Proof.
  intros Hb Hs. revert acc. induction Hb as [|s0 before [src H0] _ IH];
    intros acc; cbn [sourceManifestIDs app].
  - by rewrite Hs.
  - rewrite H0. apply IH.
Qed.

(** X8.  With all-sources on, the manifests loaded are those listed for no
    particular source, and the source strings are not parsed at all.  With
    it off, the sources are parsed in the order given: if all parse, the
    manifests loaded are those listed for the first source, then those for
    the second, and so on, duplicates included; otherwise the error names
    the first source that does not parse and no manifest is loaded. *)
Theorem sources_are_loaded_in_order :
  forall (F : flags) (W : world),
    (AllSources F = true ->
     loadSourceManifests F W
     = LoadSnapshots W (ListSnapshotManifests W None))
    /\ (forall srcs,
          AllSources F = false ->
          Forall2 (fun s src => ParseSourceInfo W s = Ok src)
            (Sources F) srcs ->
          loadSourceManifests F W
          = LoadSnapshots W
              (srcs ≫= fun src => ListSnapshotManifests W (Some src)))
    /\ (forall before s after e,
          AllSources F = false ->
          Sources F = before ++ s :: after ->
          Forall (fun s' => exists src, ParseSourceInfo W s' = Ok src)
            before ->
          ParseSourceInfo W s = Err e ->
          loadSourceManifests F W = Err (ErrParsing s e)).
Proof.
  intros F W. unfold loadSourceManifests. split; [|split].
  - by intros ->.
  - intros srcs -> Hs. by rewrite (sourceManifestIDs_Ok W [] _ srcs Hs).
  - intros before s after e -> -> Hb Hs.
    by rewrite (sourceManifestIDs_first_Err W [] before s after e Hb Hs).
Qed.

(** Two sources that parse, then one that does not. *)
Example sources_example :
  loadSourceManifests
    {| ErrorThreshold := 0; DirObjectIDs := []; FileObjectIDs := [];
       AllSources := false; Sources := ["/b"; "/a"; "/b"]; Parallel := 1;
       FilesPercent := 0 |} two_sources_world
  = LoadSnapshots two_sources_world ["m2"; "m3"; "m1"; "m2"; "m3"]
  /\ loadSourceManifests
       {| ErrorThreshold := 0; DirObjectIDs := []; FileObjectIDs := [];
          AllSources := false; Sources := ["/a"; "?"; "/b"; "?"];
          Parallel := 1; FilesPercent := 0 |} two_sources_world
     = Err (ErrParsing "?" (ErrorString "invalid source"))
  /\ loadSourceManifests
       {| ErrorThreshold := 0; DirObjectIDs := []; FileObjectIDs := [];
          AllSources := true; Sources := ["?"]; Parallel := 1;
          FilesPercent := 0 |} two_sources_world
     = LoadSnapshots two_sources_world ["m1"; "m2"; "m3"; "m4"].
Proof. by repeat split. Qed.

(** ** What holds of every action holds of every state *)

Lemma always_weaken {A : Type} F W Q ls vs ls' vs' (p : M A) :
  monotone_in_calls Q ->
  (forall x, x ∈ ls -> x ∈ ls') -> (forall x, x ∈ vs -> x ∈ vs') ->
  always F W Q ls vs p -> always F W Q ls' vs' p.
Proof.
  intros HQ. revert ls vs ls' vs'.
  induction p as [a | X a k IH]; intros ls vs ls' vs' Hl Hv; [done|].
  intros [Ha Hk]. split; [by eapply HQ|]. intros v.
  eapply IH; [| |apply Hk]; intros x; rewrite !elem_of_app;
    intros [?|?]; auto.
Qed.

Lemma always_bind {A B : Type} F W Q ls vs (m : M A) (f : A -> M B) :
  always F W Q ls vs m ->
  (forall a ls' vs',
     (forall x, x ∈ ls -> x ∈ ls') -> (forall x, x ∈ vs -> x ∈ vs') ->
     always F W Q ls' vs' (f a)) ->
  always F W Q ls vs (bind m f).
Proof.
  revert ls vs. induction m as [a | X a k IH]; intros ls vs Hm Hf.
  - by apply Hf.
  - destruct Hm as [Ha Hk]. split; [done|]. intros v.
    apply IH; [apply Hk|]. intros b ls' vs' Hl Hv.
    apply Hf; intros x Hx; [apply Hl | apply Hv]; apply elem_of_app; by left.
Qed.

Lemma always_call {X : Type} F W Q ls vs (a : action X) :
  Q ls vs _ a -> always F W Q ls vs (call a).
Proof. by split. Qed.

Lemma perform_verified {X : Type} F W (a : action X) v :
  verified (calls (perform F W a v).1) = verified (calls v) ++ starts_v a.
Proof.
  destruct a; cbn; rewrite ?verified_snoc, ?app_nil_r; try done.
  unfold shouldEnqueue. by destruct (default false _).
Qed.

Lemma perform_starts_l {X : Type} F W (a : action X) v :
  listed (calls (perform F W a v).1) = listed (calls v) ++ starts_l a.
Proof. apply perform_listed. Qed.

Section Safety.

Variables (F : flags) (W : world).
Variable Q : list ID -> list ID -> forall X : Type, action X -> Prop.
Variable G : verifier -> Prop.

Hypothesis Q_mono : monotone_in_calls Q.
Hypothesis G_perform : forall X (a : action X) v,
  Q (listed (calls v)) (verified (calls v)) X a -> G v ->
  G (perform F W a v).1.
Hypothesis G_dequeue : forall q v, G v -> G (set_workQueue q v).
Hypothesis Q_task : forall t ls vs, always F W Q ls vs (run_task F t).

Lemma run_always {A : Type} (p : M A) v :
  always F W Q (listed (calls v)) (verified (calls v)) p -> G v ->
  G (run F W p v).1.
Proof.
  revert v. induction p as [a | X a k IH]; intros v Hp Hg; [done|].
  destruct Hp as [Ha Hk]. cbn [run].
  specialize (Hk v). pose proof (G_perform X a v Ha Hg) as Hg'.
  rewrite <- (perform_starts_l F W), <- (perform_verified F W) in Hk.
  destruct (perform F W a v) as [v' r]. by apply IH.
Qed.

Lemma step_always i c :
  G (shared c) /\ Forall (upholds F W Q (shared c)) (workers c) ->
  G (shared (step F W i c))
  /\ Forall (upholds F W Q (shared (step F W i c)))
       (workers (step F W i c)).
Proof.
  intros [Hg Hws]. unfold step.
  destruct (workers c !! i) as [w|] eqn:Hi; [|done].
  assert (Hw : upholds F W Q (shared c) w)
    by (rewrite Forall_forall in Hws; apply Hws;
        eapply list_elem_of_lookup_2; eauto).
  destruct w as [[] | X a k].
  - destruct (workQueue (shared c)) as [|t q] eqn:Hq; [done|].
    cbn [shared workers]. split; [by apply G_dequeue|].
    apply Forall_insert; [done | apply Q_task].
  - destruct Hw as [Ha Hk]. specialize (Hk (shared c)).
    pose proof (G_perform X a (shared c) Ha Hg) as Hg'.
    pose proof (perform_starts_l F W a (shared c)) as HL.
    pose proof (perform_verified F W a (shared c)) as HV.
    rewrite <- HL, <- HV in Hk.
    destruct (perform F W a (shared c)) as [v' r]. cbn [fst snd] in *.
    split; [done|]. cbn [shared workers].
    apply Forall_insert; [|done].
    eapply Forall_impl; [exact Hws|]. intros w' Hw'. unfold upholds in *.
    eapply always_weaken; [done| | |exact Hw']; intros x Hx;
      rewrite ?HL, ?HV; apply elem_of_app; by left.
Qed.

Lemma steps_always sched c :
  G (shared c) /\ Forall (upholds F W Q (shared c)) (workers c) ->
  G (shared (steps F W sched c)).
Proof.
  revert c. induction sched as [|i sched IH]; intros c Hc;
    [by destruct Hc|].
  change (steps F W (i :: sched) c) with (steps F W sched (step F W i c)).
  by apply IH, step_always.
Qed.

(** When [Q] holds of every action of the tasks and of seeding, and [G]
    is kept by every action that satisfies [Q], then [G] holds in every
    state of a run. *)
Lemma reachable_always sched :
  always F W Q [] [] (enqueueRootsToVerify F W) -> G new_verifier ->
  G (shared (steps F W sched
               (start_pool (Parallel F)
                  (run F W (enqueueRootsToVerify F W) new_verifier).1))).
Proof.
  intros Hseed Hnew. apply steps_always. split.
  - by apply run_always.
  - apply Forall_forall. intros w Hw.
    apply elem_of_replicate in Hw as [-> _]. done.
Qed.

End Safety.

(** ** Seeding and the loop over the entries only test and enqueue *)

Lemma walk_enqueueVerifyDirectory oid path :
  every walk (enqueueVerifyDirectory oid path).
Proof.
  apply every_bind; [by apply every_call|].
  intros [|]; [by apply every_call | done].
Qed.

Lemma walk_enqueueVerifyObject oid path len :
  every walk (enqueueVerifyObject oid path len).
Proof.
  apply every_bind; [by apply every_call|].
  intros [|]; [by apply every_call | done].
Qed.

Lemma walk_forEntries path entries : every walk (forEntries path entries).
Proof.
  induction entries as [|e rest IH]; [done|].
  cbn [forEntries]. apply every_bind; [by apply every_call|].
  intros [|]; [done|]. apply every_bind; [|intros _; exact IH].
  unfold enqueueEntry. destruct (IsDir e);
    [apply walk_enqueueVerifyDirectory | apply walk_enqueueVerifyObject].
Qed.

Lemma walk_enqueueManifests manifests :
  every walk (enqueueManifests manifests).
Proof.
  induction manifests as [|man rest IH]; [done|].
  cbn [enqueueManifests]. destruct (RootEntry man) as [re|]; [|exact IH].
  apply every_bind; [|intros _; exact IH].
  destruct (Type_ re);
    first [apply walk_enqueueVerifyDirectory
          | apply walk_enqueueVerifyObject].
Qed.

Lemma walk_enqueueDirObjectIDs W ids : every walk (enqueueDirObjectIDs W ids).
Proof.
  induction ids as [|oidStr rest IH]; [done|].
  cbn [enqueueDirObjectIDs]. destruct (parseObjectID W oidStr); [|done].
  apply every_bind; [apply walk_enqueueVerifyDirectory|].
  intros _; exact IH.
Qed.

Lemma walk_enqueueFileObjectIDs W ids :
  every walk (enqueueFileObjectIDs W ids).
Proof.
  induction ids as [|oidStr rest IH]; [done|].
  cbn [enqueueFileObjectIDs]. destruct (parseObjectID W oidStr); [|done].
  apply every_bind; [apply walk_enqueueVerifyObject|].
  intros _; exact IH.
Qed.

Lemma walk_enqueueRootsToVerify F W : every walk (enqueueRootsToVerify F W).
Proof.
  unfold enqueueRootsToVerify.
  destruct (loadSourceManifests F W); [|done].
  apply every_bind; [apply walk_enqueueManifests|]. intros _.
  apply every_bind; [apply walk_enqueueDirObjectIDs|].
  intros [e|]; [done | apply walk_enqueueFileObjectIDs].
Qed.

Lemma every_always {A : Type} F W Q0 Q ls vs (p : M A) :
  (forall ls vs X (a : action X), Q0 X a -> Q ls vs X a) ->
  every Q0 p -> always F W Q ls vs p.
Proof.
  intros HQ. revert ls vs.
  induction p as [a | X a k IH]; intros ls vs; [done|].
  intros [Ha Hk]. split; [by apply HQ|]. intros v. apply IH, Hk.
Qed.

(** ** No false alarm *)

Lemma started_in_mono ls vs ls' vs' err :
  (forall x, x ∈ ls -> x ∈ ls') -> (forall x, x ∈ vs -> x ∈ vs') ->
  started_in ls vs err -> started_in ls' vs' err.
Proof. intros Hl Hv. destruct err; cbn; auto. Qed.

Lemma report_sound_mono W : monotone_in_calls (report_sound W).
Proof.
  intros ls vs ls' vs' X a Hl Hv. destruct a; cbn; try done;
    intros [? ?]; split; try done; by eapply started_in_mono.
Qed.

Lemma report_sound_walk W ls vs X (a : action X) :
  walk X a -> report_sound W ls vs X a.
Proof. by destruct a. Qed.

Lemma failures_sound_perform {X : Type} F W (a : action X) v :
  report_sound W (listed (calls v)) (verified (calls v)) X a ->
  failures_sound W v -> failures_sound W (perform F W a v).1.
Proof.
  unfold failures_sound. intros Ha Hv.
  rewrite perform_starts_l, perform_verified.
  assert (Hold : Forall (fun err => failure_of W err
                   /\ started_in (listed (calls v) ++ starts_l a)
                                 (verified (calls v) ++ starts_v a) err)
                   (errors v)).
  { eapply Forall_impl; [exact Hv|]. intros err [? ?]. split; [done|].
    eapply started_in_mono; [| |done]; intros x Hx; apply elem_of_app;
      by left. }
  destruct a; cbn in Ha |- *; try done.
  - apply Forall_app. split; [done|]. apply Forall_singleton.
    by rewrite !app_nil_r.
  - unfold shouldEnqueue. by destruct (default false _).
  - apply Forall_app. split; [done|]. apply Forall_singleton.
    by rewrite !app_nil_r.
Qed.

Lemma sound_run_task F W t ls vs :
  always F W (report_sound W) ls vs (run_task F t).
Proof.
  destruct t as [oid path | oid path expectedLength]; cbn [run_task].
  - split; [done|]. intros v. cbn [perform snd starts_l starts_v bind].
    destruct (Readdir W oid) as [entries | e] eqn:Hr.
    + eapply every_always; [apply report_sound_walk | apply walk_forEntries].
    + split; [|done]. split; [exact Hr|]. cbn. apply elem_of_app. right.
      by left.
  - split; [done|]. intros v. cbn [perform snd starts_l starts_v bind].
    destruct (VerifyObject W oid) as [len err] eqn:Hv.
    assert (Hin : oid ∈ vs ++ [oid]) by (apply elem_of_app; right; by left).
    apply always_bind.
    { destruct err as [e|]; [|done]. split; [|done].
      split; [by cbn; rewrite Hv | exact Hin]. }
    intros _ ls1 vs1 _ Hv1. apply always_bind.
    { destruct ((expectedLength >=? 0) && negb (len =? expectedLength))
        eqn:Hc; [|done].
      apply andb_true_iff in Hc as [H0 Hne].
      apply Z.geb_le in H0. apply negb_true_iff, Z.eqb_neq in Hne.
      split; [|done]. split; [|by apply Hv1].
      cbn. by rewrite Hv. }
    intros _ ls2 vs2 _ Hv2. split; [done|]. intros v2.
    cbn [perform snd starts_l starts_v bind].
    destruct (_ <? FilesPercent F); [|done].
    split; [done|]. intros v3.
    cbn [perform snd starts_l starts_v bind].
    assert (Hin3 : oid ∈ (vs2 ++ []) ++ [])
      by (rewrite !app_nil_r; by apply Hv2, Hv1).
    destruct (Open W oid) as [rd | e] eqn:Ho; cbn [bind].
    + destruct (copyErr rd) as [e|] eqn:Hce; [|done].
      split; [|done]. split; [|exact Hin3]. right. by exists rd.
    + split; [|done]. split; [|exact Hin3]. by left.
Qed.

Lemma reachable_failures_sound F W sched :
  failures_sound W
    (shared (steps F W sched
               (start_pool (Parallel F)
                  (run F W (enqueueRootsToVerify F W) new_verifier).1))).
Proof.
  apply (reachable_always F W (report_sound W) (failures_sound W)).
  - apply report_sound_mono.
  - intros X a v. apply failures_sound_perform.
  - intros q v Hv. exact Hv.
  - intros t ls vs. apply sound_run_task.
  - eapply every_always;
      [apply report_sound_walk | apply walk_enqueueRootsToVerify].
  - apply Forall_nil_2.
Qed.

(** X9.  No false alarm: in every state a run reaches, under every
    schedule, each record of the failure list states a failure that
    happened.  A listing failure names a directory that was listed and the
    error [Readdir] gives for it; a verification failure names an object
    that was verified and the error [VerifyObject] gives for it; a length
    mismatch names an object that was verified, the length [VerifyObject]
    gives for it and an expected length that is not negative and differs
    from it; a read failure names an object that was verified and the
    error of opening or of reading it.  The list holds no other kind of
    record. *)
Theorem no_false_alarm :
  forall (F : flags) (W : world) (sched : list nat),
    let v :=
      shared (steps F W sched
                (start_pool (Parallel F)
                   (run F W (enqueueRootsToVerify F W) new_verifier).1))
    in
    (forall d e,
       ErrReading d e ∈ errors v ->
       d ∈ listed (calls v) /\ Readdir W d = Err e)
    /\ (forall o e,
          ErrVerifying o e ∈ errors v ->
          o ∈ verified (calls v) /\ (VerifyObject W o).2 = Some e)
    /\ (forall o len expectedLength,
          ErrInvalidLength o len expectedLength ∈ errors v ->
          o ∈ verified (calls v) /\ len = (VerifyObject W o).1
          /\ 0 <= expectedLength /\ len <> expectedLength)
    /\ (forall o e,
          ErrReadingObject o e ∈ errors v ->
          o ∈ verified (calls v)
          /\ (Open W o = Err e
              \/ exists rd, Open W o = Ok rd /\ copyErr rd = Some e))
    /\ (forall msg, ErrorString msg ∉ errors v)
    /\ (forall s e, ErrParsing s e ∉ errors v).
Proof.
  intros F W sched v.
  pose proof (reachable_failures_sound F W sched) as Hs.
  fold v in Hs. unfold failures_sound in Hs. rewrite Forall_forall in Hs.
  split; [|split; [|split; [|split; [|split]]]].
  - intros d e Hin. by destruct (Hs _ Hin).
  - intros o e Hin. by destruct (Hs _ Hin).
  - intros o len el Hin. by destruct (Hs _ Hin) as [(? & ? & ?) ?].
  - intros o e Hin. by destruct (Hs _ Hin).
  - intros msg Hin. by destruct (Hs _ Hin).
  - intros s e Hin. by destruct (Hs _ Hin).
Qed.

(** ** What a task is on its way to do gets done *)

Lemma perform_enqueued_waits {X : Type} F W (a : action X) v t :
  t ∈ enqueued (perform F W a v).1 ->
  t ∈ enqueued v \/ t ∈ workQueue (perform F W a v).1.
Proof.
  destruct a; cbn; try (by left).
  - unfold shouldEnqueue. destruct (default false _); by left.
  - intros Hin. apply elem_of_app in Hin as [Hin | Hin]; [by left|].
    apply list_elem_of_singleton in Hin as ->. right. by left.
  - intros Hin. apply elem_of_app in Hin as [Hin | Hin]; [by left|].
    right. apply elem_of_app. by right.
Qed.

Lemma perform_still_waits {X : Type} F W (a : action X) v t :
  t ∈ workQueue v -> t ∈ workQueue (perform F W a v).1.
Proof.
  destruct a; cbn; try done.
  - unfold shouldEnqueue. by destruct (default false _).
  - by right.
  - intros Hin. apply elem_of_app. by left.
Qed.

Lemma run_enqueued_waits {A : Type} F W (p : M A) v :
  (forall t, t ∈ enqueued v -> t ∈ workQueue v) ->
  forall t, t ∈ enqueued (run F W p v).1 -> t ∈ workQueue (run F W p v).1.
Proof.
  revert v. induction p as [a | X a k IH]; intros v Hv; [done|].
  cbn [run].
  pose proof (fun t => perform_enqueued_waits F W a v t) as HE.
  pose proof (fun t => perform_still_waits F W a v t) as HQ.
  destruct (perform F W a v) as [v' r]. cbn [fst] in *.
  apply IH. intros t Ht. destruct (HE t Ht) as [Hold | Hnew]; [|done].
  by apply HQ, Hv.
Qed.

Section Liveness.

Variables (F : flags) (W : world) (T : Type).
Variable expected : task -> list T.
Variable event : T -> forall X : Type, action X -> Prop.
Variable recorded : T -> verifier -> Prop.

Hypothesis event_recorded : forall x X (a : action X) v,
  event x X a -> recorded x (perform F W a v).1.
Hypothesis recorded_perform : forall x X (a : action X) v,
  recorded x v -> recorded x (perform F W a v).1.
Hypothesis recorded_dequeue : forall x q v,
  recorded x v -> recorded x (set_workQueue q v).
Hypothesis task_eventually : forall t x,
  x ∈ expected t -> eventually F W (event x) (run_task F t).

Lemma step_owed i c :
  owed F W expected event recorded (shared c) (workers c) ->
  owed F W expected event recorded (shared (step F W i c))
    (workers (step F W i c)).
Proof.
  intros Ho. unfold step.
  destruct (workers c !! i) as [w|] eqn:Hi; [|done].
  assert (Hlt : (i < length (workers c))%nat)
    by (apply lookup_lt_is_Some; eauto).
  destruct w as [[] | X a k].
  - destruct (workQueue (shared c)) as [|t0 q] eqn:Hq; [done|].
    intros t x Ht Hx. cbn [shared workers set_workQueue enqueued workQueue]
      in Ht |- *.
    destruct (Ho t x Ht Hx) as [Hw | [Hr | (j & w & Hj & He)]].
    + rewrite Hq in Hw. apply elem_of_cons in Hw as [-> | Hw]; [|by left].
      right. right. exists i, (run_task F t0).
      split; [by apply list_lookup_insert_eq | by apply task_eventually].
    + right. left. by apply recorded_dequeue.
    + destruct (decide (j = i)) as [-> | Hne].
      * rewrite Hi in Hj. injection Hj as <-. done.
      * right. right. exists j, w. by rewrite list_lookup_insert_ne.
  - pose proof (fun t => perform_enqueued_waits F W a (shared c) t) as HE.
    pose proof (fun t => perform_still_waits F W a (shared c) t) as HQ.
    pose proof (fun x => event_recorded x X a (shared c)) as HR.
    pose proof (fun x => recorded_perform x X a (shared c)) as HP.
    assert (Hk : forall x, eventually F W (event x) (Act a k) ->
                   event x X a
                   \/ eventually F W (event x)
                        (k (perform F W a (shared c)).2)).
    { intros x [He | He]; [by left | right; apply He]. }
    destruct (perform F W a (shared c)) as [v' r]. cbn [fst snd] in *.
    intros t x Ht Hx. cbn [shared workers] in Ht |- *.
    destruct (HE t Ht) as [Hold | Hnew]; [|by left].
    destruct (Ho t x Hold Hx) as [Hw | [Hr | (j & w & Hj & He)]].
    + left. by apply HQ.
    + right. left. by apply HP.
    + destruct (decide (j = i)) as [-> | Hne].
      * rewrite Hi in Hj. injection Hj as <-.
        destruct (Hk x He) as [Hev | Hnext]; [right; left; by apply HR|].
        right. right. exists i, (k r).
        split; [by apply list_lookup_insert_eq | done].
      * right. right. exists j, w. by rewrite list_lookup_insert_ne.
Qed.

Lemma steps_owed sched c :
  owed F W expected event recorded (shared c) (workers c) ->
  owed F W expected event recorded (shared (steps F W sched c))
    (workers (steps F W sched c)).
Proof.
  revert c. induction sched as [|i sched IH]; intros c Hc; [done|].
  change (steps F W (i :: sched) c) with (steps F W sched (step F W i c)).
  by apply IH, step_owed.
Qed.

(** When each task comes, on every path, to the actions that record what
    is expected of it, everything expected of the enqueued tasks is
    recorded when the run returns. *)
Lemma returned_owed sched v r :
  0 < Parallel F ->
  (run F W (enqueueRootsToVerify F W) new_verifier).2 = None ->
  runVerifyCommand F W sched = Some (v, r) ->
  forall t x, t ∈ enqueued v -> x ∈ expected t -> recorded x v.
Proof.
  intros Hpar Hseed Hrun t x Ht Hx. unfold runVerifyCommand in Hrun.
  pose proof (run_enqueued_waits F W (enqueueRootsToVerify F W) new_verifier)
    as Hw.
  destruct (run F W (enqueueRootsToVerify F W) new_verifier) as [v0 r0].
  cbn [fst snd] in *. subst r0.
  rewrite Process_workers in Hrun by done.
  destruct (drained _) eqn:Hd; [|done].
  injection Hrun as <- _.
  set (c := steps F W sched (start_pool (Parallel F) v0)) in *.
  assert (Ho : owed F W expected event recorded (shared c) (workers c)).
  { apply steps_owed. intros t' x' Ht' _. left. cbn [start_pool shared] in *.
    apply Hw; [|done]. intros t'' Hin. by apply elem_of_nil in Hin. }
  unfold drained in Hd.
  destruct (Ho t x Ht Hx) as [Hq | [Hr | (j & w & Hj & He)]]; [|done|].
  - destruct (workQueue (shared c)); [by apply elem_of_nil in Hq | done].
  - destruct (workQueue (shared c)); [|done].
    rewrite forallb_forall in Hd.
    apply list_elem_of_lookup_2, list_elem_of_In, Hd in Hj.
    by destruct w.
Qed.

End Liveness.

(** ** No failure is missed *)

Lemma eventually_bind_l {A B : Type} F W E (m : M A) (f : A -> M B) :
  eventually F W E m -> eventually F W E (bind m f).
Proof.
  induction m as [a | X a k IH]; [done|].
  intros [He | Hk]; [by left|]. right. intros v. apply IH, Hk.
Qed.

Lemma eventually_bind_r {A B : Type} F W E (m : M A) (f : A -> M B) :
  (forall a, eventually F W E (f a)) -> eventually F W E (bind m f).
Proof.
  intros Hf. induction m as [a | X a k IH]; [apply Hf|].
  right. intros v. apply IH.
Qed.

Lemma reports_run_task F W t pe :
  pe ∈ expected_reports W t -> eventually F W (reports pe) (run_task F t).
Proof.
  destruct t as [d path | o path expectedLength];
    cbn [expected_reports run_task].
  - intros Hin. right. intros v. cbn [perform snd bind].
    destruct (Readdir W d) as [entries | e];
      [by apply elem_of_nil in Hin|].
    apply list_elem_of_singleton in Hin as ->. by left.
  - intros Hin. apply list_elem_of_fmap in Hin as (err & -> & Hin).
    right. intros v. cbn [perform snd bind].
    unfold verification_failure, length_mismatch in Hin.
    destruct (VerifyObject W o) as [len e] eqn:Hv. cbn [fst snd] in Hin.
    apply elem_of_app in Hin as [Hin | Hin].
    + apply eventually_bind_l. destruct e as [e|];
        [|by apply elem_of_nil in Hin].
      apply list_elem_of_singleton in Hin as ->. by left.
    + apply eventually_bind_r. intros _. apply eventually_bind_l.
      replace (0 <=? expectedLength) with (expectedLength >=? 0) in Hin
        by (rewrite Z.geb_leb; done).
      destruct ((expectedLength >=? 0) && negb (len =? expectedLength));
        [|by apply elem_of_nil in Hin].
      apply list_elem_of_singleton in Hin as ->. by left.
Qed.

Lemma perform_warnings {X : Type} F W (a : action X) v :
  exists more, warnings (perform F W a v).1 = warnings v ++ more.
Proof.
  destruct a; cbn; try (exists []; by rewrite app_nil_r).
  - by eexists.
  - unfold shouldEnqueue. destruct (default false _);
      exists []; by rewrite app_nil_r.
  - by eexists.
Qed.

Lemma true_always {A : Type} F W ls vs (p : M A) :
  always F W (fun _ _ _ _ => True) ls vs p.
Proof.
  revert ls vs. induction p as [a | X a k IH]; intros ls vs; [done|].
  split; [done|]. intros v. apply IH.
Qed.

(** The failure list is the list of the logged failures without the
    paths. *)
Lemma reachable_errors_logged F W sched :
  let v :=
    shared (steps F W sched
              (start_pool (Parallel F)
                 (run F W (enqueueRootsToVerify F W) new_verifier).1))
  in errors v = (warnings v).*2.
Proof.
  apply (reachable_always F W (fun _ _ _ _ => True)
           (fun v => errors v = (warnings v).*2)).
  - by intros ls vs ls' vs' X a _ _ _.
  - intros X a v _ Hv. destruct a; cbn; try done.
    + by rewrite fmap_app, Hv.
    + unfold shouldEnqueue. by destruct (default false _).
    + by rewrite fmap_app, Hv.
  - by intros q v Hv.
  - intros t ls vs. apply true_always.
  - apply true_always.
  - done.
Qed.

(** When the roots resolve and the run returns, every failure that an
    enqueued task has to report is logged and in the failure list. *)
Lemma returned_reports F W sched v r :
  0 < Parallel F ->
  (run F W (enqueueRootsToVerify F W) new_verifier).2 = None ->
  runVerifyCommand F W sched = Some (v, r) ->
  forall t pe,
    t ∈ enqueued v -> pe ∈ expected_reports W t ->
    pe ∈ warnings v /\ pe.2 ∈ errors v.
Proof.
  intros Hpar Hseed Hrun t pe Ht Hpe.
  assert (Hlog : pe ∈ warnings v).
  { apply (returned_owed F W _ (expected_reports W) reports logged)
      with (sched := sched) (r := r) (t := t); try done.
    - intros [p e] X a v0 Ha. destruct a; try done. cbn in Ha.
      injection Ha as -> ->. unfold logged. cbn.
      apply elem_of_app. right. by left.
    - intros x X a v0 Hx. unfold logged in *.
      destruct (perform_warnings F W a v0) as [more ->].
      apply elem_of_app. by left.
    - intros t0 x. apply reports_run_task. }
  split; [done|].
  pose proof (reachable_errors_logged F W sched) as He. cbn zeta in He.
  unfold runVerifyCommand in Hrun.
  destruct (run F W (enqueueRootsToVerify F W) new_verifier) as [v0 r0].
  cbn [fst snd] in *. subst r0.
  rewrite Process_workers in Hrun by done.
  destruct (drained _); [|done].
  injection Hrun as <- _. rewrite He.
  apply list_elem_of_fmap. by exists pe.
Qed.

(** X10.  No failure is missed: with at least one worker, when the roots
    resolve and the run returns, whatever the error threshold, every
    directory task that was enqueued and whose listing fails has its
    listing failure in the failure list, every object task that was
    enqueued and whose verification fails has its verification failure
    there, and every object task with an expected length that is not
    negative and differs from the verified length has its length mismatch
    there; each of them is logged under the path of its task.  (With no
    worker the run returns at once and the enqueued roots are not run.) *)
Theorem no_failure_missed :
  forall (F : flags) (W : world) (sched : list nat) (v : verifier)
         (r : option error),
    0 < Parallel F ->
    (run F W (enqueueRootsToVerify F W) new_verifier).2 = None ->
    runVerifyCommand F W sched = Some (v, r) ->
    (forall d path e,
       VerifyDirectoryTask d path ∈ enqueued v -> Readdir W d = Err e ->
       (path, ErrReading d e) ∈ warnings v /\ ErrReading d e ∈ errors v)
    /\ (forall o path expectedLength e,
          VerifyObjectTask o path expectedLength ∈ enqueued v ->
          (VerifyObject W o).2 = Some e ->
          (path, ErrVerifying o e) ∈ warnings v
          /\ ErrVerifying o e ∈ errors v)
    /\ (forall o path expectedLength,
          VerifyObjectTask o path expectedLength ∈ enqueued v ->
          0 <= expectedLength ->
          (VerifyObject W o).1 <> expectedLength ->
          (path, ErrInvalidLength o (VerifyObject W o).1 expectedLength)
            ∈ warnings v
          /\ ErrInvalidLength o (VerifyObject W o).1 expectedLength
               ∈ errors v).
Proof.
  intros F W sched v r Hpar Hseed Hrun.
  pose proof (returned_reports F W sched v r Hpar Hseed Hrun) as Hall.
  split; [|split].
  - intros d path e Ht Hr.
    apply (Hall _ (path, ErrReading d e) Ht). cbn. rewrite Hr. by left.
  - intros o path expectedLength e Ht Hv.
    apply (Hall _ (path, ErrVerifying o e) Ht). cbn.
    apply list_elem_of_fmap. exists (ErrVerifying o e). split; [done|].
    apply elem_of_app. left. unfold verification_failure. rewrite Hv.
    by left.
  - intros o path expectedLength Ht H0 Hne.
    apply (Hall _ (path, ErrInvalidLength o (VerifyObject W o).1
                           expectedLength) Ht). cbn.
    apply list_elem_of_fmap. eexists. split; [done|].
    apply elem_of_app. right. unfold length_mismatch. cbn zeta.
    apply Z.leb_le in H0. apply Z.eqb_neq in Hne. rewrite H0, Hne.
    by left.
Qed.

(** The returned state of the repository with five damaged files. *)
Lemma no_failure_missed_witness :
  exists v r,
    runVerifyCommand five_flags five_world (turns 45) = Some (v, r)
    /\ (forall d path e,
          VerifyDirectoryTask d path ∈ enqueued v ->
          Readdir five_world d = Err e ->
          (path, ErrReading d e) ∈ warnings v /\ ErrReading d e ∈ errors v)
    /\ (forall o path expectedLength e,
          VerifyObjectTask o path expectedLength ∈ enqueued v ->
          (VerifyObject five_world o).2 = Some e ->
          (path, ErrVerifying o e) ∈ warnings v
          /\ ErrVerifying o e ∈ errors v).
Proof.
  destruct (runVerifyCommand five_flags five_world (turns 45))
    as [[v r]|] eqn:Hrun; [|vm_compute in Hrun; discriminate].
  exists v, r. split; [reflexivity|].
  pose proof (no_failure_missed five_flags five_world (turns 45) v r
                eq_refl eq_refl Hrun) as (H1 & H2 & _).
  by split.
Defined.

(** ** Full reads at the ends of the scale *)

Lemma opened_snoc cs c :
  opened (cs ++ [c])
  = opened cs ++ match c with COpen oid => [oid] | _ => [] end.
Proof. unfold opened. rewrite omap_app. by destruct c. Qed.

Lemma no_open_walk ls vs X (a : action X) : walk X a -> no_open ls vs X a.
Proof. by destruct a. Qed.

Lemma no_open_perform {X : Type} F W (a : action X) v :
  no_open (listed (calls v)) (verified (calls v)) X a ->
  opened (calls v) = [] -> opened (calls (perform F W a v).1) = [].
Proof.
  intros Ha Hv. destruct a; cbn in Ha |- *;
    rewrite ?opened_snoc, ?Hv; try done.
  unfold shouldEnqueue. by destruct (default false _).
Qed.

Lemma no_open_run_task F W t ls vs :
  (forall k, 0 <= Intn W k) -> FilesPercent F <= 0 ->
  always F W no_open ls vs (run_task F t).
Proof.
  intros Hd Hp. destruct t as [oid path | oid path expectedLength];
    cbn [run_task].
  - split; [done|]. intros v. cbn [perform snd bind].
    destruct (Readdir W oid) as [entries | e].
    + eapply every_always; [apply no_open_walk | apply walk_forEntries].
    + by split.
  - split; [done|]. intros v. cbn [perform snd bind].
    destruct (VerifyObject W oid) as [len err].
    apply always_bind; [destruct err; [by split | done]|].
    intros _ ls1 vs1 _ _.
    apply always_bind; [destruct (_ && _); [by split | done]|].
    intros _ ls2 vs2 _ _. split; [done|]. intros v2. cbn [perform snd bind].
    destruct (Z.ltb_spec (Intn W (draws v2)) (FilesPercent F)) as [Hlt|_];
      [|done].
    specialize (Hd (draws v2)). lia.
Qed.

(** X11.  With a files percentage of 0 or less (0 is the default), no
    object is ever opened for a full read, in any state a run reaches,
    given that the random draws are not negative. *)
Theorem no_full_read_at_zero_percent :
  forall (F : flags) (W : world) (sched : list nat),
    (forall k, 0 <= Intn W k) ->
    FilesPercent F <= 0 ->
    opened
      (calls
         (shared (steps F W sched
                    (start_pool (Parallel F)
                       (run F W (enqueueRootsToVerify F W) new_verifier).1))))
    = [].
Proof.
  intros F W sched Hd Hp.
  apply (reachable_always F W no_open (fun v => opened (calls v) = [])).
  - by intros ls vs ls' vs' X a _ _.
  - intros X a v. apply no_open_perform.
  - by intros q v.
  - intros t ls vs. by apply no_open_run_task.
  - eapply every_always;
      [apply no_open_walk | apply walk_enqueueRootsToVerify].
  - done.
Qed.

Lemma no_full_read_at_zero_percent_witness :
  FilesPercent five_flags <= 0
  /\ opened
       (calls
          (shared (steps five_flags five_world (turns 45)
                     (start_pool (Parallel five_flags)
                        (run five_flags five_world
                           (enqueueRootsToVerify five_flags five_world)
                           new_verifier).1))))
     = [].
Proof.
  split; [cbn; lia|].
  apply (no_full_read_at_zero_percent five_flags five_world (turns 45)).
  - intros k. cbn. lia.
  - cbn. lia.
Defined.

Lemma opens_run_task F W t o :
  (forall k, Intn W k < 100) -> 100 <= FilesPercent F ->
  o ∈ expected_opens t -> eventually F W (opens o) (run_task F t).
Proof.
  intros Hd Hp. destruct t as [d path | oid path expectedLength];
    cbn [expected_opens run_task]; intros Hin;
    [by apply elem_of_nil in Hin|].
  apply list_elem_of_singleton in Hin as ->.
  right. intros v. cbn [perform snd bind].
  destruct (VerifyObject W oid) as [len err].
  apply eventually_bind_r. intros _. apply eventually_bind_r. intros _.
  right. intros v2. cbn [perform snd bind].
  destruct (Z.ltb_spec (Intn W (draws v2)) (FilesPercent F)) as [_|Hge];
    [by left|].
  specialize (Hd (draws v2)). lia.
Qed.

Lemma read_reports_run_task F W t pe :
  (forall k, Intn W k < 100) -> 100 <= FilesPercent F ->
  pe ∈ expected_read_reports W t ->
  eventually F W (reports pe) (run_task F t).
Proof.
  intros Hd Hp. destruct t as [d path | oid path expectedLength];
    cbn [expected_read_reports run_task]; intros Hin;
    [by apply elem_of_nil in Hin|].
  apply list_elem_of_fmap in Hin as (err & -> & Hin).
  right. intros v. cbn [perform snd bind].
  destruct (VerifyObject W oid) as [len e0].
  apply eventually_bind_r. intros _. apply eventually_bind_r. intros _.
  right. intros v2. cbn [perform snd bind].
  destruct (Z.ltb_spec (Intn W (draws v2)) (FilesPercent F)) as [_|Hge];
    [|specialize (Hd (draws v2)); lia].
  right. intros v3. cbn [perform snd bind]. unfold deep_read_failure in Hin.
  destruct (Open W oid) as [rd | e]; cbn [bind].
  - destruct (copyErr rd) as [e|]; [|by apply elem_of_nil in Hin].
    apply list_elem_of_singleton in Hin as ->. by left.
  - apply list_elem_of_singleton in Hin as ->. by left.
Qed.

Lemma logged_report F W (pe : string * error) X (a : action X) v :
  reports pe X a -> logged pe (perform F W a v).1.
Proof.
  destruct pe as [p e]. destruct a; try done. cbn. intros [= -> ->].
  unfold logged. cbn. apply elem_of_app. right. by left.
Qed.

Lemma logged_perform F W (pe : string * error) X (a : action X) v :
  logged pe v -> logged pe (perform F W a v).1.
Proof.
  unfold logged. destruct (perform_warnings F W a v) as [more ->].
  intros Hin. apply elem_of_app. by left.
Qed.

(** X12.  With a files percentage of 100 or more, random draws below 100
    and at least one worker, every object is read in full: when the roots
    resolve and the run returns, every enqueued object task has had its
    object opened, and if opening or reading the object fails, the read
    failure is logged under the path of the task.  (With no worker the run
    returns at once and nothing is opened.) *)
Theorem every_object_read_at_hundred_percent :
  forall (F : flags) (W : world) (sched : list nat) (v : verifier)
         (r : option error),
    (forall k, Intn W k < 100) ->
    100 <= FilesPercent F ->
    0 < Parallel F ->
    (run F W (enqueueRootsToVerify F W) new_verifier).2 = None ->
    runVerifyCommand F W sched = Some (v, r) ->
    forall o path expectedLength,
      VerifyObjectTask o path expectedLength ∈ enqueued v ->
      o ∈ opened (calls v)
      /\ (forall e, e ∈ deep_read_failure W o -> (path, e) ∈ warnings v).
Proof.
  intros F W sched v r Hd Hp Hpar Hseed Hrun o path expectedLength Ht.
  split.
  - apply (returned_owed F W _ expected_opens opens was_opened)
      with (sched := sched) (r := r)
           (t := VerifyObjectTask o path expectedLength); try done.
    + intros x X a v0 Ha. destruct a; try done. cbn in Ha. subst oid.
      unfold was_opened. cbn. rewrite opened_snoc. apply elem_of_app.
      right. by left.
    + intros x X a v0. unfold was_opened.
      destruct a; cbn; rewrite ?opened_snoc; try done;
        try (intros Hin; apply elem_of_app; by left).
      unfold shouldEnqueue. by destruct (default false _).
    + intros t x. by apply opens_run_task.
    + by left.
  - intros e He.
    apply (returned_owed F W _ (expected_read_reports W) reports logged)
      with (sched := sched) (r := r)
           (t := VerifyObjectTask o path expectedLength); try done.
    + intros x X a v0. apply logged_report.
    + intros x X a v0. apply logged_perform.
    + intros t x. by apply read_reports_run_task.
    + cbn. apply list_elem_of_fmap. by exists e.
Qed.

(** The repository with five damaged files, one of which breaks off when
    read and the shared file of which cannot be opened, every object
    sampled: each read failure is logged under the path of its task. *)
Lemma every_object_read_at_hundred_percent_witness :
  exists v r,
    runVerifyCommand (with_percent 100 five_flags) five_unreadable_world
      (turns 50) = Some (v, r)
    /\ (forall o path expectedLength,
          VerifyObjectTask o path expectedLength ∈ enqueued v ->
          o ∈ opened (calls v)
          /\ (forall e, e ∈ deep_read_failure five_unreadable_world o ->
                        (path, e) ∈ warnings v))
    /\ VerifyObjectTask "fa" "user@host:/home@2019-01-01/a/bad" 1
         ∈ enqueued v
    /\ deep_read_failure five_unreadable_world "fa"
       = [ErrReadingObject "fa" (ErrorString "unexpected EOF")]
    /\ deep_read_failure five_unreadable_world "good"
       = [ErrReadingObject "good" (ErrorString "unreadable")]
    /\ length (errors v) = 7%nat.
Proof.
  destruct (runVerifyCommand (with_percent 100 five_flags)
              five_unreadable_world (turns 50)) as [[v r]|] eqn:Hrun;
    [|vm_compute in Hrun; discriminate].
  exists v, r. split; [reflexivity|]. split.
  - apply (every_object_read_at_hundred_percent
             (with_percent 100 five_flags) five_unreadable_world (turns 50)
             v r).
    + intros k. cbn. lia.
    + cbn. lia.
    + cbn. lia.
    + reflexivity.
    + exact Hrun.
  - vm_compute in Hrun. injection Hrun as <- _.
    split; [|by repeat split].
    cbn [enqueued]. repeat (first [by left | right]).
Defined.

(** ** What a run that returns no error has checked *)

Lemma dir_ids_task ts d :
  d ∈ dir_ids ts -> exists path, VerifyDirectoryTask d path ∈ ts.
Proof.
  unfold dir_ids. rewrite list_elem_of_omap. intros ([o p | o p l] & Hin & Ht);
    [|done].
  injection Ht as ->. by exists p.
Qed.

Lemma obj_ids_task ts o :
  o ∈ obj_ids ts -> exists path len, VerifyObjectTask o path len ∈ ts.
Proof.
  unfold obj_ids. rewrite list_elem_of_omap.
  intros ([o' p | o' p l] & Hin & Ht); [done|].
  injection Ht as ->. by exists p, l.
Qed.

(** X13.  A run that returns no error has checked everything, when there
    is at least one worker and the error threshold is not negative: every
    root was listed or verified;
    every directory that was listed could be read, and each of its entries
    was listed or verified in turn; every object that was verified passed
    verification; and every object task with an expected length that is
    not negative found that length.  (With no worker, or with a negative
    threshold, the run can return no error with roots or entries left
    unchecked.) *)
Theorem success_means_everything_checked :
  forall (F : flags) (W : world) (sched : list nat) (v : verifier),
    0 < Parallel F ->
    0 <= ErrorThreshold F ->
    runVerifyCommand F W sched = Some (v, None) ->
    (forall oid,
       is_root F W oid -> oid ∈ listed (calls v) ++ verified (calls v))
    /\ (forall d,
          d ∈ listed (calls v) ->
          exists es,
            Readdir W d = Ok es
            /\ forall e, e ∈ es ->
                 ObjectID e ∈ listed (calls v) ++ verified (calls v))
    /\ (forall o, o ∈ verified (calls v) -> (VerifyObject W o).2 = None)
    /\ (forall o path expectedLength,
          VerifyObjectTask o path expectedLength ∈ enqueued v ->
          0 <= expectedLength -> (VerifyObject W o).1 = expectedLength).
Proof.
  intros F W sched v Hpar Hthr Hrun.
  assert (Hseed : (run F W (enqueueRootsToVerify F W) new_verifier).2 = None).
  { unfold runVerifyCommand in Hrun.
    destruct (run F W (enqueueRootsToVerify F W) new_verifier) as [v0 [e|]];
      [done | reflexivity]. }
  assert (Hacc : dir_ids (enqueued v) ≡ₚ listed (calls v)
                 /\ obj_ids (enqueued v) ≡ₚ verified (calls v)
                 /\ errors v = []).
  { pose proof (Process_accounted F W sched v) as Hacc.
    unfold runVerifyCommand in Hrun.
    destruct (run F W (enqueueRootsToVerify F W) new_verifier) as [v0 r0].
    cbn [fst snd] in *. subst r0.
    destruct (Process F W (Parallel F) sched v0) as [v'|]; [|done].
    destruct (Nat.eqb (length (errors v')) 0) eqn:He; [|done].
    injection Hrun as <-. destruct (Hacc Hpar eq_refl) as [HD HO].
    split; [done|]. split; [done|].
    apply Nat.eqb_eq in He. by destruct (errors v'). }
  destruct Hacc as (HD & HO & Herr).
  assert (Hbudget : tooManyErrors F v = false).
  { unfold tooManyErrors. rewrite Herr. cbn [length].
    destruct (Z.eqb_spec (ErrorThreshold F) 0) as [|Hne]; [done|].
    rewrite Z.geb_leb. apply Z.leb_gt. lia. }
  pose proof (returned_started F W sched v None Hpar Hseed Hrun) as Hstarted.
  destruct (returned_seen F W sched v None Hpar Hseed Hrun)
    as [Hroots Hclosed].
  pose proof (returned_reports F W sched v None Hpar Hseed Hrun) as Hrep.
  split; [|split; [|split]].
  - intros oid Hroot. by apply Hstarted, Hroots.
  - intros d Hd.
    assert (Ht : d ∈ dir_ids (enqueued v)) by (by rewrite HD).
    apply dir_ids_task in Ht as [path Ht].
    destruct (Readdir W d) as [es | e] eqn:Hr.
    + exists es. split; [done|]. intros e He.
      by apply Hstarted, (Hclosed Hbudget d es e).
    + destruct (Hrep _ (path, ErrReading d e) Ht) as [_ Hin].
      { cbn. rewrite Hr. by left. }
      rewrite Herr in Hin. by apply elem_of_nil in Hin.
  - intros o Ho.
    assert (Ht : o ∈ obj_ids (enqueued v)) by (by rewrite HO).
    apply obj_ids_task in Ht as (path & len & Ht).
    destruct (VerifyObject W o).2 as [e|] eqn:Hv; [|done].
    destruct (Hrep _ (path, ErrVerifying o e) Ht) as [_ Hin].
    { cbn. apply list_elem_of_fmap. exists (ErrVerifying o e).
      split; [done|]. apply elem_of_app. left.
      unfold verification_failure. rewrite Hv. by left. }
    rewrite Herr in Hin. by apply elem_of_nil in Hin.
  - intros o path expectedLength Ht H0.
    destruct (Z.eq_dec (VerifyObject W o).1 expectedLength) as [|Hne];
      [done|].
    destruct (Hrep _ (path, ErrInvalidLength o (VerifyObject W o).1
                              expectedLength) Ht) as [_ Hin].
    { cbn. apply list_elem_of_fmap. eexists. split; [done|].
      apply elem_of_app. right. unfold length_mismatch. cbn zeta.
      apply Z.leb_le in H0. apply Z.eqb_neq in Hne. rewrite H0, Hne.
      by left. }
    rewrite Herr in Hin. by apply elem_of_nil in Hin.
Qed.

(** A directory with one sound file, threshold 0. *)
Lemma success_means_everything_checked_witness :
  exists v,
    0 < Parallel negative_size_flags
    /\ 0 <= ErrorThreshold negative_size_flags
    /\ runVerifyCommand negative_size_flags negative_size_world
         (replicate 12 0%nat) = Some (v, None)
    /\ (forall d,
          d ∈ listed (calls v) ->
          exists es,
            Readdir negative_size_world d = Ok es
            /\ forall e, e ∈ es ->
                 ObjectID e ∈ listed (calls v) ++ verified (calls v)).
Proof.
  destruct (runVerifyCommand negative_size_flags negative_size_world
              (replicate 12 0%nat)) as [[v [e|]]|] eqn:Hrun;
    [vm_compute in Hrun; discriminate | | vm_compute in Hrun; discriminate].
  exists v. split; [cbn; lia|]. split; [cbn; lia|]. split; [reflexivity|].
  exact (proj1 (proj2 (success_means_everything_checked negative_size_flags
                         negative_size_world (replicate 12 0%nat) v
                         ltac:(cbn; lia) ltac:(cbn; lia) Hrun))).
Defined.

(** With a negative threshold the budget is exhausted from the start: the
    run lists the root, enqueues none of its entries and returns no error,
    although five files of the repository are damaged. *)
Example negative_threshold_example :
  exists v,
    runVerifyCommand (with_threshold (-1) five_flags) five_world (turns 4)
    = Some (v, None)
    /\ calls v = [CReaddir "root"]
    /\ enqueued v = [VerifyDirectoryTask "root" "user@host:/home@2019-01-01"].
Proof. eexists. split; [vm_compute; reflexivity|]. by split. Qed.

(** ** The failure list is the list of the failures that occurred *)

Lemma perform_ledger {X : Type} F W (a : action X) v :
  errors (perform F W a v).1 = errors v ++ reported a
  /\ (exists pushed,
        enqueued (perform F W a v).1 = enqueued v ++ pushed
        /\ workQueue (perform F W a v).1 ≡ₚ workQueue v ++ pushed)
  /\ opened (calls (perform F W a v).1) ≫= deep_read_failure W
     = (opened (calls v) ≫= deep_read_failure W) ++ read_failures W a.
Proof.
  destruct a; cbn;
    rewrite ?opened_snoc, ?bind_app, ?app_nil_r; cbn; rewrite ?app_nil_r;
    try (split; [done|]; split; [exists []; by rewrite !app_nil_r | done]).
  - unfold shouldEnqueue. destruct (default false _); cbn;
      rewrite ?app_nil_r;
      (split; [done|]; split; [exists []; by rewrite !app_nil_r | done]).
  - split; [done|]. split; [|done]. exists [t]. split; [done|].
    by rewrite Permutation_app_comm.
  - split; [done|]. split; [|done]. by exists [t].
Qed.

Lemma owes_walk {A : Type} F W (p : M A) : every walk p -> owes F W p = [].
Proof. destruct p as [|X a k]; [done|]. intros [Ha _]. by destruct a. Qed.

Lemma settled_walk {A : Type} F W (p : M A) : every walk p -> settled F W p.
Proof.
  induction p as [a | X a k IH]; [done|]. intros [Ha Hk] v.
  split; [|apply IH, Hk].
  rewrite (owes_walk F W (k _)) by apply Hk.
  by destruct a.
Qed.

Lemma owes_run_task F W t : owes F W (run_task F t) = shallow_failures W t.
Proof.
  destruct t as [d path | o path expectedLength]; cbn.
  - unfold listing_failure. destruct (Readdir W d) as [entries | e]; [|done].
    apply owes_walk, walk_forEntries.
  - unfold verification_failure, length_mismatch.
    rewrite Z.geb_leb.
    destruct (VerifyObject W o) as [len [e|]]; cbn;
      destruct ((0 <=? expectedLength) && negb (len =? expectedLength));
      done.
Qed.

Lemma sampled_read_settled F W o path (r : Z) :
  let p : M unit :=
    if r <? FilesPercent F then
      err' <- readEntireObject o path ;;
      match err' with
      | Some e => call (ReportError path (ErrReadingObject o e)) ;; Ret tt
      | None => Ret tt
      end
    else Ret tt in
  owes F W p = [] /\ settled F W p.
Proof.
  cbn zeta. destruct (r <? FilesPercent F); [|done]. split; [done|].
  intros v. cbn. unfold deep_read_failure.
  destruct (Open W o) as [rd | e]; cbn.
  - destruct (copyErr rd) as [e|]; cbn; [|done].
    split; [done|]. intros v1. cbn. by split.
  - split; [done|]. intros v1. cbn. by split.
Qed.

Lemma settled_run_task F W t : settled F W (run_task F t).
Proof.
  destruct t as [d path | o path expectedLength]; cbn [run_task].
  - intros v. cbn. rewrite ?app_nil_r. split; [done|].
    destruct (Readdir W d) as [entries | e].
    + apply settled_walk, walk_forEntries.
    + intros v1. cbn. split; [|done]. by rewrite ?app_nil_r.
  - intros v. cbn. rewrite ?app_nil_r. split; [done|].
    pose proof (fun r => sampled_read_settled F W o path r) as Htail.
    cbn zeta in Htail.
    destruct (VerifyObject W o) as [len [e|]]; cbn;
      destruct ((expectedLength >=? 0) && negb (len =? expectedLength));
      cbn.
    + intros v1. split; [apply Permutation_swap|]. intros v2.
      split; [done|]. intros v3.
      destruct (Htail (Intn W (draws v3))) as [Ho Hs].
      split; [rewrite app_nil_r; apply reflexive_eq; exact Ho | exact Hs].
    + intros v1. split; [done|]. intros v3.
      destruct (Htail (Intn W (draws v3))) as [Ho Hs].
      split; [rewrite app_nil_r; apply reflexive_eq; exact Ho | exact Hs].
    + intros v1. split; [done|]. intros v3.
      destruct (Htail (Intn W (draws v3))) as [Ho Hs].
      split; [rewrite app_nil_r; apply reflexive_eq; exact Ho | exact Hs].
    + intros v3.
      destruct (Htail (Intn W (draws v3))) as [Ho Hs].
      split; [rewrite app_nil_r; apply reflexive_eq; exact Ho | exact Hs].
Qed.

Lemma step_ledger F W i c :
  ledger F W (shared c) (workers c) /\ Forall (settled F W) (workers c) ->
  ledger F W (shared (step F W i c)) (workers (step F W i c))
  /\ Forall (settled F W) (workers (step F W i c)).
Proof.
  intros [Hl Hws]. unfold step.
  destruct (workers c !! i) as [w|] eqn:Hi; [|done].
  assert (Hw : settled F W w)
    by (rewrite Forall_forall in Hws; apply Hws;
        eapply list_elem_of_lookup_2; eauto).
  destruct w as [[] | X a k].
  - destruct (workQueue (shared c)) as [|t q] eqn:Hq; [done|].
    split; [|apply Forall_insert; [done | apply settled_run_task]].
    unfold ledger in *. cbn [shared workers set_workQueue errors enqueued
                             calls workQueue].
    destruct (insert_bind_Permutation (owes F W) _ i _ (run_task F t) Hi)
      as [P1 P2].
    rewrite P2, owes_run_task. rewrite P1, Hq, bind_cons in Hl.
    cbn [owes] in Hl. rewrite <- Hl. solve_Permutation.
  - destruct (Hw (shared c)) as [Hlaw Hk].
    destruct (perform_ledger F W a (shared c))
      as (HE & (pushed & HN & HQ) & HO).
    destruct (insert_bind_Permutation (owes F W) _ i _
                (k (perform F W a (shared c)).2) Hi) as [P1 P2].
    destruct (perform F W a (shared c)) as [v' r]. cbn [fst snd] in *.
    split; [|by apply Forall_insert].
    unfold ledger in *. cbn [shared workers].
    rewrite HE, HN, HO, HQ, P2, !bind_app. rewrite P1 in Hl.
    set (rest := delete i (workers c) ≫= owes F W) in *.
    set (Qs := workQueue (shared c) ≫= shallow_failures W) in *.
    set (Ps := pushed ≫= shallow_failures W) in *.
    set (Es := enqueued (shared c) ≫= shallow_failures W) in *.
    set (Os := opened (calls (shared c)) ≫= deep_read_failure W) in *.
    transitivity (errors (shared c) ++ rest ++ Qs ++ Ps
                  ++ (owes F W (k r) ++ reported a));
      [solve_Permutation|].
    rewrite Hlaw.
    transitivity ((errors (shared c) ++ (owes F W (Act a k) ++ rest) ++ Qs)
                  ++ Ps ++ read_failures W a); [solve_Permutation|].
    rewrite Hl. solve_Permutation.
Qed.

Lemma steps_ledger F W sched c :
  ledger F W (shared c) (workers c) /\ Forall (settled F W) (workers c) ->
  ledger F W (shared (steps F W sched c)) (workers (steps F W sched c)).
Proof.
  revert c. induction sched as [|i sched IH]; intros c Hc;
    [by destruct Hc|].
  change (steps F W (i :: sched) c) with (steps F W sched (step F W i c)).
  by apply IH, step_ledger.
Qed.

Lemma run_ledger {A : Type} F W (p : M A) v :
  settled F W p ->
  errors v ++ owes F W p ++ (workQueue v ≫= shallow_failures W)
  ≡ₚ (enqueued v ≫= shallow_failures W)
     ++ (opened (calls v) ≫= deep_read_failure W) ->
  errors (run F W p v).1
  ++ (workQueue (run F W p v).1 ≫= shallow_failures W)
  ≡ₚ (enqueued (run F W p v).1 ≫= shallow_failures W)
     ++ (opened (calls (run F W p v).1) ≫= deep_read_failure W).
Proof.
  revert v. induction p as [a | X a k IH]; intros v Hp Hl; [done|].
  cbn [run]. destruct (Hp v) as [Hlaw Hk].
  destruct (perform_ledger F W a v) as (HE & (pushed & HN & HQ) & HO).
  destruct (perform F W a v) as [v' r]. cbn [fst snd] in *.
  apply IH; [done|]. rewrite HE, HN, HO, HQ, !bind_app.
  set (Qs := workQueue v ≫= shallow_failures W) in *.
  set (Ps := pushed ≫= shallow_failures W) in *.
  set (Es := enqueued v ≫= shallow_failures W) in *.
  set (Os := opened (calls v) ≫= deep_read_failure W) in *.
  transitivity (errors v ++ Qs ++ Ps ++ (owes F W (k r) ++ reported a));
    [solve_Permutation|].
  rewrite Hlaw.
  transitivity ((errors v ++ owes F W (Act a k) ++ Qs)
                ++ Ps ++ read_failures W a); [solve_Permutation|].
  rewrite Hl. solve_Permutation.
Qed.

Lemma idle_owes F W (ws : list (M unit)) :
  forallb idle ws = true -> ws ≫= owes F W = [].
Proof.
  induction ws as [|w ws IH]; [done|]. cbn [forallb].
  intros [Hw Hws]%andb_true_iff. rewrite bind_cons, IH by done.
  by destruct w.
Qed.

(** With at least one worker, when [Process] has returned after seeding,
    the failure list holds the records of all the tasks enqueued and of
    all the full reads made, each once. *)
Lemma Process_ledger F W sched v :
  0 < Parallel F ->
  Process F W (Parallel F) sched
    (run F W (enqueueRootsToVerify F W) new_verifier).1 = Some v ->
  errors v
  ≡ₚ (enqueued v ≫= shallow_failures W)
     ++ (opened (calls v) ≫= deep_read_failure W).
Proof.
  intros Hpar. rewrite Process_workers by done.
  destruct (drained _) eqn:Hd; [|done]. intros [= <-].
  set (c := steps F W sched _) in *.
  assert (Hl : ledger F W (shared c) (workers c)).
  { apply steps_ledger. split.
    - unfold ledger.
      rewrite (idle_owes F W _ (start_pool_pend (Parallel F) _)).
      cbn [start_pool shared app]. apply run_ledger.
      + apply settled_walk, walk_enqueueRootsToVerify.
      + by rewrite owes_walk by apply walk_enqueueRootsToVerify.
    - apply Forall_forall. intros w Hw.
      apply elem_of_replicate in Hw as [-> _]. done. }
  unfold drained in Hd. unfold ledger in Hl.
  destruct (workQueue (shared c)) eqn:Hq; [|done].
  rewrite idle_owes in Hl by done. cbn in Hl. by rewrite app_nil_r in Hl.
Qed.

Lemma filter_length_Permutation {A : Type} (f : A -> bool) (l l' : list A) :
  l ≡ₚ l' -> length (List.filter f l) = length (List.filter f l').
Proof.
  induction 1 as [|x l l' _ IH|x y l|l l' l'' _ IH1 _ IH2]; cbn;
    [done| |by destruct (f x), (f y)|congruence].
  destruct (f x); cbn; by rewrite IH.
Qed.

Lemma length_listing_failure W d :
  length (listing_failure W d) = if fails_listing W d then 1%nat else 0%nat.
Proof. unfold listing_failure, fails_listing. by destruct (Readdir W d). Qed.

Lemma length_verification_failure W o :
  length (verification_failure W o)
  = if fails_verification W o then 1%nat else 0%nat.
Proof.
  unfold verification_failure, fails_verification.
  by destruct (VerifyObject W o).2.
Qed.

Lemma length_shallow_failures W ts :
  length (ts ≫= shallow_failures W)
  = (length (List.filter (fails_listing W) (dir_ids ts))
     + length (List.filter (fails_verification W) (obj_ids ts))
     + length (ts ≫= mismatch_of W))%nat.
Proof.
  induction ts as [|t ts IH]; [done|].
  rewrite !bind_cons, !length_app, IH. unfold dir_ids, obj_ids.
  destruct t as [d path | o path expectedLength];
    cbn [omap list_omap shallow_failures mismatch_of List.filter length].
  - rewrite length_listing_failure.
    destruct (fails_listing W d); cbn [length]; lia.
  - rewrite length_app, length_verification_failure.
    destruct (fails_verification W o); cbn [length]; lia.
Qed.

Lemma length_read_failures W os :
  length (os ≫= deep_read_failure W)
  = length (List.filter (fails_read W) os).
Proof.
  induction os as [|o os IH]; [done|].
  rewrite bind_cons, length_app, IH. cbn [List.filter].
  unfold deep_read_failure, fails_read.
  destruct (Open W o) as [rd | e]; [destruct (copyErr rd)|]; done.
Qed.

Lemma string_app_inv_tail (s1 s2 t : string) :
  s1 +:+ t = s2 +:+ t -> s1 = s2.
Proof.
  intros H.
  assert (Happ : forall a b,
            Stdlib.Strings.String.list_ascii_of_string (a +:+ b)
            = Stdlib.Strings.String.list_ascii_of_string a
              ++ Stdlib.Strings.String.list_ascii_of_string b).
  { intros a b. induction a as [|c a IH]; [done|]. simpl. f_equal. exact IH. }
  apply (f_equal Stdlib.Strings.String.list_ascii_of_string) in H.
  rewrite !Happ in H. apply app_inv_tail in H.
  apply (f_equal Stdlib.Strings.String.string_of_list_ascii) in H.
  by rewrite !Stdlib.Strings.String.string_of_list_ascii_of_string in H.
Qed.

Lemma encountered_inj n m : encountered n = encountered m -> n = m.
Proof.
  unfold encountered. intros [= H].
  apply String.app_inj, string_app_inv_tail in H.
  by apply (inj pretty) in H.
Qed.

(** C6, as amended.  When the roots resolve and the run returns, it
    returns [nil] exactly when the failure list is empty, and otherwise
    the one error "encountered N errors", N being the length of the
    failure list in decimal; the message tells the number (two numbers
    give two messages), and a longer schedule gives the same result.  With
    at least one worker the queue is then empty, and the failure list
    holds, each once, the records of the tasks enqueued (the listing
    failure of a directory task; the verification failure and the length
    mismatch of an object task) and the read failures of the objects
    opened; so N is the number of failed listings, plus the number of
    failed verifications, plus the number of length mismatches, plus the
    number of failed full reads.  With threshold 0 nothing stops early:
    every entry of every directory listed was listed or verified.  Five
    failed verifications give "encountered 5 errors" when nothing else
    failed. *)
Theorem run_result_counts_failures :
  forall (F : flags) (W : world) (sched : list nat) (v : verifier)
         (r : option error),
    (run F W (enqueueRootsToVerify F W) new_verifier).2 = None ->
    runVerifyCommand F W sched = Some (v, r) ->
    let listing :=
      length (List.filter (fails_listing W) (listed (calls v))) in
    let verification :=
      length (List.filter (fails_verification W) (verified (calls v))) in
    let mismatch := length (enqueued v ≫= mismatch_of W) in
    let reading :=
      length (List.filter (fails_read W) (opened (calls v))) in
    (r = None <-> errors v = [])
    /\ (errors v <> [] ->
        r = Some (ErrorString ("encountered " +:+ pretty (length (errors v))
                               +:+ " errors")))
    /\ (forall n m : nat, encountered n = encountered m -> n = m)
    /\ (forall more, runVerifyCommand F W (sched ++ more) = Some (v, r))
    /\ (0 < Parallel F ->
        workQueue v = []
        /\ errors v
           ≡ₚ (enqueued v ≫= shallow_failures W)
              ++ (opened (calls v) ≫= deep_read_failure W)
        /\ length (errors v)
           = (listing + verification + mismatch + reading)%nat
        /\ (ErrorThreshold F = 0 ->
            forall d es e,
              d ∈ listed (calls v) -> Readdir W d = Ok es -> e ∈ es ->
              ObjectID e ∈ listed (calls v) ++ verified (calls v))
        /\ (verification = 5%nat -> listing = 0%nat -> mismatch = 0%nat ->
            reading = 0%nat ->
            r = Some (ErrorString "encountered 5 errors"))).
Proof.
  intros F W sched v r Hseed Hrun listing verification mismatch reading.
  assert (Hres : exists v0,
            (run F W (enqueueRootsToVerify F W) new_verifier).1 = v0
            /\ Process F W (Parallel F) sched v0 = Some v
            /\ r = (if Nat.eqb (length (errors v)) 0 then None
                    else Some (encountered (length (errors v))))).
  { unfold runVerifyCommand in Hrun.
    destruct (run F W (enqueueRootsToVerify F W) new_verifier) as [v0 r0].
    cbn in Hseed. subst r0. exists v0. split; [done|].
    destruct (Process F W (Parallel F) sched v0) as [v'|]; [|done].
    by injection Hrun as <- <-. }
  destruct Hres as (v0 & Hv0 & HP & Hr).
  assert (Hmsg : errors v <> [] ->
            r = Some (ErrorString ("encountered "
                                   +:+ pretty (length (errors v))
                                   +:+ " errors"))).
  { intros Hne. rewrite Hr. by destruct (errors v). }
  split; [|split; [exact Hmsg|split; [apply encountered_inj|split]]].
  - rewrite Hr. destruct (errors v); cbn; split; done.
  - intros more. unfold runVerifyCommand.
    destruct (run F W (enqueueRootsToVerify F W) new_verifier) as [v1 r1].
    cbn in Hseed, Hv0. subst r1 v1.
    by rewrite (Process_extend _ _ _ _ more _ _ HP), Hr.
  - intros Hpar.
    assert (Hled : errors v
                   ≡ₚ (enqueued v ≫= shallow_failures W)
                      ++ (opened (calls v) ≫= deep_read_failure W)).
    { apply (Process_ledger F W sched v Hpar). by rewrite Hv0. }
    assert (Hacc : dir_ids (enqueued v) ≡ₚ listed (calls v)
                   /\ obj_ids (enqueued v) ≡ₚ verified (calls v)).
    { apply (Process_accounted F W sched v Hpar). by rewrite Hv0. }
    destruct Hacc as [HD HO].
    assert (Hlen : length (errors v)
                   = (listing + verification + mismatch + reading)%nat).
    { rewrite Hled, length_app, length_shallow_failures,
        length_read_failures.
      by rewrite (filter_length_Permutation _ _ _ HD),
        (filter_length_Permutation _ _ _ HO). }
    split; [by eapply Process_drained|].
    split; [exact Hled|]. split; [exact Hlen|]. split.
    + intros Hthr d es e Hd Hes He.
      apply (returned_started F W sched v r Hpar Hseed Hrun).
      apply (proj2 (returned_seen F W sched v r Hpar Hseed Hrun))
        with (d := d) (es := es); try done.
      unfold tooManyErrors. by rewrite Hthr.
    + intros H5 H0 H1 H2. rewrite Hmsg.
      * by rewrite Hlen, H5, H0, H1, H2.
      * intros Hnil. rewrite Hnil in Hlen. cbn in Hlen. lia.
Qed.

(** The repository with five damaged files, threshold 0, two workers
    taking turns: the run ends, every object was verified, five
    verifications failed and nothing else did, and the result is
    "encountered 5 errors". *)
Lemma run_result_counts_failures_witness :
  exists v r,
    runVerifyCommand five_flags five_world (turns 45) = Some (v, r)
    /\ ErrorThreshold five_flags = 0
    /\ verified (calls v) = ["fa"; "good"; "fc"; "fe"; "fd"; "fb"]
    /\ length (List.filter (fails_verification five_world)
                 (verified (calls v))) = 5%nat
    /\ length (errors v) = 5%nat
    /\ r = Some (ErrorString "encountered 5 errors").
Proof.
  destruct (runVerifyCommand five_flags five_world (turns 45))
    as [[v r]|] eqn:Hrun; [|vm_compute in Hrun; discriminate].
  exists v, r. split; [reflexivity|]. split; [reflexivity|].
  assert (Hseed : (run five_flags five_world
                     (enqueueRootsToVerify five_flags five_world)
                     new_verifier).2 = None) by reflexivity.
  destruct (run_result_counts_failures five_flags five_world (turns 45) v r
              Hseed Hrun) as (_ & _ & _ & _ & H).
  destruct (H eq_refl) as (_ & _ & Hlen & _ & H5).
  vm_compute in Hrun. injection Hrun as <- <-.
  split; [reflexivity|]. split; [reflexivity|]. split; [reflexivity|].
  apply H5; vm_compute; reflexivity.
Defined.

(** C6, as stated.  In the repository with five damaged files in which a
    failed verification gives the length 0, with threshold 0: five
    verifications fail, each of the five files has the expected length 1,
    and the result is "encountered 10 errors". *)
Lemma five_failed_verifications_ten_failures :
  exists v,
    runVerifyCommand five_flags five_short_world (turns 50)
    = Some (v, Some (ErrorString "encountered 10 errors"))
    /\ ErrorThreshold five_flags = 0
    /\ verified (calls v) = ["fa"; "good"; "fc"; "fe"; "fd"; "fb"]
    /\ List.filter (fails_verification five_short_world)
         (verified (calls v))
       = ["fa"; "fc"; "fe"; "fd"; "fb"]
    /\ length (errors v) = 10%nat.
Proof. eexists. split; [vm_compute; reflexivity|]. by repeat split. Qed.

(** With no worker, [Process] returns at once: the root stays in the
    queue, nothing is listed, and the run returns no error, under every
    schedule. *)
Example no_worker_example :
  forall sched,
    exists v,
      runVerifyCommand (with_parallel 0 five_flags) five_world sched
      = Some (v, None)
      /\ calls v = []
      /\ workQueue v
         = [VerifyDirectoryTask "root" "user@host:/home@2019-01-01"].
Proof. intros sched. eexists. split; [vm_compute; reflexivity|]. by split. Qed.
